(** * Marketplace monitor: schedule engine, subscription compiler,
      status tracker, listing poller and message retries.

    A shallow embedding of [time_management.py], [telegram.py] and
    [new_main.py], of the compiler of [main.py] and of the search of
    [listing_location.py].  Python dictionaries are [gmap]s, Python sets are
    [gset]s, exceptions are the [Raise] branch of [result], and the
    collaborators the program imports (the classifier, the bot, the
    browser, the geocoder, [str.lower]) are the fields of two classes.

    Effectful code runs in the monad [M]: it reads and writes the
    program state, may raise, and appends to a trace the calls of the
    bot, the calls of the classifier, the pauses and the log lines the
    properties speak of (other log lines are left out).  The wall clock
    is sampled once for each call of a function of [new_main.py]: the
    sample is the argument [clk].  Tasks that the program gathers run
    one after the other. *)

From Stdlib Require Import ZArith Bool List Lia.
From stdpp Require Import gmap strings list fin_maps.

Open Scope string_scope.
Open Scope list_scope.
Open Scope Z_scope.

(** ** Exceptions *)

Inductive exn :=
| ValueError (msg : string)
| KeyError (key : string)
| TelegramError (msg : string)
| Exception (msg : string).

Inductive result (A : Type) :=
| Ok (a : A)
| Raise (e : exn).
Arguments Ok {A} a.
Arguments Raise {A} e.

#[global] Instance result_ret : MRet result := λ A a, Ok a.

#[global] Instance result_bind : MBind result := λ A B k r,
  match r with
  | Ok a => k a
  | Raise e => Raise e
  end.

Definition is_ok {A} (r : result A) : bool :=
  match r with Ok _ => true | Raise _ => false end.

(** ** [datetime.time] and [datetime.datetime] *)

Module Clock.

Record time := Time {
  t_hour : Z; t_minute : Z; t_second : Z; t_microsecond : Z
}.

(** Python orders [time] objects as the tuples
    (hour, minute, second, microsecond). *)
Definition time_compare (a b : time) : comparison :=
  match t_hour a ?= t_hour b with
  | Eq =>
    match t_minute a ?= t_minute b with
    | Eq =>
      match t_second a ?= t_second b with
      | Eq => t_microsecond a ?= t_microsecond b
      | c => c
      end
    | c => c
    end
  | c => c
  end.

Definition time_le (a b : time) : bool :=
  match time_compare a b with Gt => false | _ => true end.

Definition time_gt (a b : time) : bool :=
  match time_compare a b with Gt => true | _ => false end.

Record datetime := DateTime {
  year : Z; month : Z; day : Z;
  hour : Z; minute : Z; second : Z; microsecond : Z
}.

Definition is_leap (y : Z) : bool :=
  (y mod 4 =? 0) && (negb (y mod 100 =? 0) || (y mod 400 =? 0)).

Definition days_in_month (y m : Z) : Z :=
  if m =? 2 then (if is_leap y then 29 else 28)
  else if (m =? 4) || (m =? 6) || (m =? 9) || (m =? 11) then 30
  else 31.

Definition valid_date (y m d : Z) : bool :=
  (1 <=? y) && (y <=? 9999) && (1 <=? m) && (m <=? 12) &&
  (1 <=? d) && (d <=? days_in_month y m).

Definition valid_time (h mi s us : Z) : bool :=
  (0 <=? h) && (h <=? 23) && (0 <=? mi) && (mi <=? 59) &&
  (0 <=? s) && (s <=? 59) && (0 <=? us) && (us <=? 999999).

Definition valid_datetime (dt : datetime) : bool :=
  valid_date (year dt) (month dt) (day dt) &&
  valid_time (hour dt) (minute dt) (second dt) (microsecond dt).

(** The [datetime] constructor, which checks every field. *)
Definition datetime_new (y m d h mi s us : Z) : result datetime :=
  if negb (valid_date y m d) then Raise (ValueError "day is out of range for month")
  else if negb (valid_time h mi s us) then Raise (ValueError "time field out of range")
  else Ok (DateTime y m d h mi s us).

(** [dt.replace(hour=h, minute=mi, second=s)] *)
Definition replace_hms (dt : datetime) (h mi s : Z) : result datetime :=
  datetime_new (year dt) (month dt) (day dt) h mi s (microsecond dt).

(** [dt.replace(day=d)] *)
Definition replace_day (dt : datetime) (d : Z) : result datetime :=
  datetime_new (year dt) (month dt) d
               (hour dt) (minute dt) (second dt) (microsecond dt).

(** [dt.time()] *)
Definition time_of (dt : datetime) : time :=
  Time (hour dt) (minute dt) (second dt) (microsecond dt).

(** Decimal text of a number, left-padded with zeros to [w] digits. *)
Definition digit (n : Z) : string :=
  String (Ascii.ascii_of_nat (48 + Z.to_nat (n mod 10))) "".

Fixpoint pad (w : nat) (n : Z) : string :=
  match w with
  | O => ""
  | S w' => pad w' (n / 10) +:+ digit n
  end.

(** [strftime('%H:%M')] *)
Definition strftime_HM (t : time) : string :=
  pad 2 (t_hour t) +:+ ":" +:+ pad 2 (t_minute t).

(** [strftime('%Y-%m-%d %H:%M:%S')] (years of four digits) *)
Definition strftime_full (dt : datetime) : string :=
  pad 4 (year dt) +:+ "-" +:+ pad 2 (month dt) +:+ "-" +:+ pad 2 (day dt) +:+ " " +:+
  pad 2 (hour dt) +:+ ":" +:+ pad 2 (minute dt) +:+ ":" +:+ pad 2 (second dt).

End Clock.
Export Clock.

(** The zones [pytz.timezone] is asked for. *)
Inductive timezone := Australia_Melbourne | Australia_Brisbane | UTC.

Definition tz_name (tz : timezone) : string :=
  match tz with
  | Australia_Melbourne => "Australia/Melbourne"
  | Australia_Brisbane => "Australia/Brisbane"
  | UTC => "UTC"
  end.

(** A sample of the wall clock: [datetime.now(pytz.UTC).astimezone(tz)]
    for each zone.  Each modelled call receives the sample it reads. *)
Definition clock := timezone → datetime.

Definition LOCATION_TIMEZONES : gmap string timezone :=
  <["melbourne" := Australia_Melbourne]> (<["brisbane" := Australia_Brisbane]> ∅).

Definition DEFAULT_TIMEZONE : timezone := UTC.

Definition start_inactive : time := Time 22 0 0 0.
Definition end_inactive : time := Time 6 30 0 0.

(** The test of [is_monitoring_active] and [get_monitoring_schedule]:
    [start_inactive <= current_time or current_time <= end_inactive]. *)
Definition in_inactive_period (current_time : time) : bool :=
  time_le start_inactive current_time || time_le current_time end_inactive.

Record schedule := Schedule {
  sch_location : string;
  sch_timezone : string;
  sch_local_time : string;
  is_active : bool;
  next_change : string;
  next_status : string;
  active_hours : string
}.

(** The built-in string methods the program calls. *)
Class StrOps := {
  lower : string → string;   (* [str.lower] *)
  titlecase : string → string   (* [str.title] *)
}.

Definition get_location_timezone `{StrOps} (location : string) : timezone :=
  let location_key := lower location in
  default DEFAULT_TIMEZONE (LOCATION_TIMEZONES !! location_key).

Definition is_monitoring_active `{StrOps} (clk : clock) (location : string)
  : result (bool * string * datetime) :=
  let tz := get_location_timezone location in
  let now := clk tz in
  let current_time := time_of now in
  if in_inactive_period current_time then
    next_active_time ←
      replace_hms now (t_hour end_inactive) (t_minute end_inactive) 0;
    next_active_time ←
      (if time_gt current_time end_inactive
       then replace_day next_active_time (day now + 1)
       else Ok next_active_time);
    let reason :=
      "Nighttime hours in " +:+ location +:+ " (local time: " +:+
      strftime_HM current_time +:+ "). Resuming at " +:+ strftime_HM end_inactive in
    Ok (false, reason, next_active_time)
  else
    next_inactive_time ←
      replace_hms now (t_hour start_inactive) (t_minute start_inactive) 0;
    Ok (true,
        "Daytime hours in " +:+ location +:+ " (local time: " +:+
        strftime_HM current_time +:+ ")",
        next_inactive_time).

Definition get_monitoring_schedule `{StrOps} (clk : clock) (location : string)
  : result schedule :=
  let tz := get_location_timezone location in
  let now := clk tz in
  let current_time := time_of now in
  let is_active := negb (in_inactive_period current_time) in
  '(next_change, next_status) ←
    (if is_active then
       next_change ←
         replace_hms now (t_hour start_inactive) (t_minute start_inactive) 0;
       Ok (next_change, "inactive")
     else
       next_change ←
         replace_hms now (t_hour end_inactive) (t_minute end_inactive) 0;
       next_change ←
         (if time_gt current_time end_inactive
          then replace_day next_change (day now + 1)
          else Ok next_change);
       Ok (next_change, "active"));
  Ok {| sch_location := location;
        sch_timezone := tz_name tz;
        sch_local_time := strftime_full now;
        is_active := is_active;
        next_change := strftime_full next_change;
        next_status := next_status;
        active_hours := strftime_HM end_inactive +:+ " - " +:+ strftime_HM start_inactive |}.


(** ** [datetime.strptime(s, "%Y-%m-%d").date()] *)

Record date := Date { d_year : Z; d_month : Z; d_day : Z }.

(** Python orders [date] objects as the tuples (year, month, day). *)
Definition date_compare (a b : date) : comparison :=
  match d_year a ?= d_year b with
  | Eq =>
    match d_month a ?= d_month b with
    | Eq => d_day a ?= d_day b
    | c => c
    end
  | c => c
  end.

Definition date_lt (a b : date) : bool :=
  match date_compare a b with Lt => true | _ => false end.

Definition date_new (y m d : Z) : result date :=
  if valid_date y m d then Ok (Date y m d)
  else Raise (ValueError "day is out of range for month").

Module Strptime.

Definition code (c : Ascii.ascii) : Z := Z.of_nat (Ascii.nat_of_ascii c).

(** [c] is one of the digits [lo] .. [hi]. *)
Definition digit_in (lo hi : Z) (c : Ascii.ascii) : bool :=
  (48 + lo <=? code c) && (code c <=? 48 + hi).

Definition digit_val (c : Ascii.ascii) : Z := code c - 48.

Definition is_dash (c : Ascii.ascii) : bool := code c =? 45.
Definition is_space (c : Ascii.ascii) : bool := code c =? 32.

(** Ordered alternatives of a regular expression: the first that matches. *)
Definition orelse {A} (p q : option A) : option A :=
  match p with Some x => Some x | None => q end.

(** [(?P<Y>\d\d\d\d)-] *)
Definition match_year (l : list Ascii.ascii) : option (Z * list Ascii.ascii) :=
  match l with
  | a :: b :: c :: d :: e :: r =>
    if digit_in 0 9 a && digit_in 0 9 b && digit_in 0 9 c && digit_in 0 9 d && is_dash e
    then Some (((digit_val a * 10 + digit_val b) * 10 + digit_val c) * 10 + digit_val d, r)
    else None
  | _ => None
  end.

(** [(?P<m>1[0-2]|0[1-9]|[1-9])-] *)
Definition match_month (l : list Ascii.ascii) : option (Z * list Ascii.ascii) :=
  orelse
    (match l with
     | a :: b :: e :: r =>
       if digit_in 1 1 a && digit_in 0 2 b && is_dash e
       then Some (10 + digit_val b, r) else None
     | _ => None
     end)
    (orelse
       (match l with
        | a :: b :: e :: r =>
          if digit_in 0 0 a && digit_in 1 9 b && is_dash e
          then Some (digit_val b, r) else None
        | _ => None
        end)
       (match l with
        | a :: e :: r =>
          if digit_in 1 9 a && is_dash e then Some (digit_val a, r) else None
        | _ => None
        end)).

(** [(?P<d>3[01]|[12]\d|0[1-9]|[1-9]| [1-9])] *)
Definition match_day (l : list Ascii.ascii) : option (Z * list Ascii.ascii) :=
  orelse
    (match l with
     | a :: b :: r =>
       if digit_in 3 3 a && digit_in 0 1 b then Some (30 + digit_val b, r) else None
     | _ => None
     end)
    (orelse
       (match l with
        | a :: b :: r =>
          if digit_in 1 2 a && digit_in 0 9 b
          then Some (digit_val a * 10 + digit_val b, r) else None
        | _ => None
        end)
       (orelse
          (match l with
           | a :: b :: r =>
             if digit_in 0 0 a && digit_in 1 9 b then Some (digit_val b, r) else None
           | _ => None
           end)
          (orelse
             (match l with
              | a :: r => if digit_in 1 9 a then Some (digit_val a, r) else None
              | _ => None
              end)
             (match l with
              | a :: b :: r =>
                if is_space a && digit_in 1 9 b then Some (digit_val b, r) else None
              | _ => None
              end)))).

(** The text must match the format, nothing may remain after the match,
    and the fields must make a date. *)
Definition strptime_date (s : string) : result date :=
  match match_year (String.list_ascii_of_string s) with
  | None => Raise (ValueError "time data does not match format")
  | Some (y, r1) =>
    match match_month r1 with
    | None => Raise (ValueError "time data does not match format")
    | Some (m, r2) =>
      match match_day r2 with
      | None => Raise (ValueError "time data does not match format")
      | Some (d, []) => date_new y m d
      | Some (d, _ :: _) => Raise (ValueError "unconverted data remains")
      end
    end
  end.

End Strptime.
Export Strptime.

(** ** Collaborators, effects and program state *)

(** What [product_checker] returns. *)
Record classification := Classification {
  product_name : string;
  preferred : bool;
  is_good_deal : bool;
  near_good_deal : bool
}.

(** One [div.xjp7ctv] of the result page: the anchor (with its [href]
    when it has one), the price text and the title text. *)
Record listing := Listing {
  link_element : option (option string);
  price_element : option string;
  title_element : option string
}.

(** The test of the subscriber loop that rejected a subscriber (one per
    [SKIP user ...] log line). *)
Inductive skip_reason :=
| ExcludedWord | NotPreferred | NotNearGoodDeal | NotGoodDeal.

(** The effects the program performs, in the order it performs them. *)
Inductive event :=
| EvBotSend (chat_id : Z) (text : string)
| EvBotEdit (chat_id message_id : Z) (text : string)
| EvSleep (seconds : Z)
| EvClassify (chat_id : Z) (title price : string)
| EvSkip (chat_id : Z) (why : skip_reason)
| EvFetch (keyword location : string)
| EvDetail (link : string)
| EvStatusLog (location : string) (active : bool) (reason : string)
| EvSaveStatus (snapshot : gmap string schedule)
| EvWritePairsLog (lines : list string).

(** The imported services.  [world] is whatever they depend on and
    change (the network, the browser, the classifier's data); [float] is
    the type of coordinates. *)
Class Collaborators := {
  world : Type;
  float : Type;
  (* telegram.Bot *)
  bot_send_message : Z → string → world → result Z * world;
  bot_edit_message_text : Z → Z → string → world → result unit * world;
  (* product_checking, location_check *)
  product_checker : Z → string → string → world → result classification * world;
  reverse_geocode : float → float → world → result string * world;
  calculate_distance : float → float → float → float → world → result string * world;
  (* selenium and BeautifulSoup *)
  start_driver : world → result unit * world;
  fetch_listings : string → string → world → result (list listing) * world;
  open_detail : string → world → result unit * world;
  extract_coordinates : string → world → (option float * option float) * world;
  close_detail : world → result unit * world;
  quit_driver : world → result unit * world
}.

Record modes_t := Modes {
  mode_only_preferred : bool;
  near_good_deals : bool;
  good_deals : bool
}.

Record user `{Collaborators} := User {
  activation_status : bool;
  expiry_date : string;
  user_id : Z;
  keywords : list string;
  location : string;
  excluded_words : list string;
  fixed_lat : float;
  fixed_lon : float;
  modes : modes_t
}.
Arguments User {_} _ _ _ _ _ _ _ _ _.

(** An entry of [user_pair_map[pair]]. *)
Record subscriber `{Collaborators} := Subscriber {
  sub_chat_id : Z;
  sub_excluded_words : list string;
  sub_fixed_lat : float;
  sub_fixed_lon : float;
  sub_modes : modes_t
}.
Arguments Subscriber {_} _ _ _ _ _.

Abbreviation pair_t := (string * string)%type.

(** The module globals of [new_main.py], the two objects
    [monitor_all_pairs_together] shares with every task, the outside
    world and the effects performed so far. *)
Record state `{Collaborators} := State {
  LOCATION_STATUS : gmap string schedule;
  LOCATION_USERS : gmap string (gset Z);
  seen_listings : gset string;
  first_run : gmap pair_t bool;
  the_world : world;
  trace : list event
}.
Arguments State {_} _ _ _ _ _ _.

Section Monad.
Context `{Collaborators}.

Definition M (A : Type) : Type := state → result A * state.

#[global] Instance M_ret : MRet M := λ A a s, (Ok a, s).

#[global] Instance M_bind : MBind M := λ A B k m s,
  match m s with
  | (Ok a, s') => k a s'
  | (Raise e, s') => (Raise e, s')
  end.

Definition raise {A} (e : exn) : M A := λ s, (Raise e, s).

Definition lift {A} (r : result A) : M A := λ s, (r, s).

Definition get_state : M state := λ s, (Ok s, s).

Definition emit (e : event) : M unit := λ s,
  (Ok (), State (LOCATION_STATUS s) (LOCATION_USERS s) (seen_listings s) (first_run s)
                (the_world s) (trace s ++ [e])).

(** A call of a collaborator. *)
Definition call {A} (f : world → result A * world) : M A := λ s,
  let '(r, w) := f (the_world s) in
  (r, State (LOCATION_STATUS s) (LOCATION_USERS s) (seen_listings s) (first_run s)
            w (trace s)).

Definition set_LOCATION_STATUS (m : gmap string schedule) : M unit := λ s,
  (Ok (), State m (LOCATION_USERS s) (seen_listings s) (first_run s)
                (the_world s) (trace s)).

Definition set_LOCATION_USERS (m : gmap string (gset Z)) : M unit := λ s,
  (Ok (), State (LOCATION_STATUS s) m (seen_listings s) (first_run s)
                (the_world s) (trace s)).

Definition set_seen_listings (x : gset string) : M unit := λ s,
  (Ok (), State (LOCATION_STATUS s) (LOCATION_USERS s) x (first_run s)
                (the_world s) (trace s)).

Definition set_first_run (m : gmap pair_t bool) : M unit := λ s,
  (Ok (), State (LOCATION_STATUS s) (LOCATION_USERS s) (seen_listings s) m
                (the_world s) (trace s)).

(** [try: m except Exception as e: h e] *)
Definition try_except {A} (m : M A) (h : exn → M A) : M A := λ s,
  match m s with
  | (Ok a, s') => (Ok a, s')
  | (Raise e, s') => h e s'
  end.

(** [try: m finally: f] *)
Definition try_finally {A} (m : M A) (f : M unit) : M A := λ s,
  match m s with
  | (r, s') =>
    match f s' with
    | (Ok _, s'') => (r, s'')
    | (Raise e, s'') => (Raise e, s'')
    end
  end.

(** [for x in l: body x] *)
Fixpoint for_each {A} (l : list A) (body : A → M unit) : M unit :=
  match l with
  | [] => mret ()
  | x :: l' => body x ;; for_each l' body
  end.

(** A loop that updates local variables [acc]. *)
Fixpoint for_fold {A B} (l : list A) (acc : B) (body : B → A → M B) : M B :=
  match l with
  | [] => mret acc
  | x :: l' => acc' ← body acc x; for_fold l' acc' body
  end.

(** [await asyncio.gather] of the tasks: every task runs, and the first
    exception, if there is one, is raised to the caller.  The model runs
    the tasks one after the other, in the order of the list. *)
Fixpoint gather {A} (tasks : list (M A)) : M (list A) := λ s,
  match tasks with
  | [] => (Ok [], s)
  | task :: tasks' =>
    match task s with
    | (Ok a, s1) =>
      match gather tasks' s1 with
      | (Ok l, s2) => (Ok (a :: l), s2)
      | (Raise e, s2) => (Raise e, s2)
      end
    | (Raise e, s1) => (Raise e, snd (gather tasks' s1))
    end
  end.

End Monad.

(** A Python [dict] whose order of insertion matters: assigning to a
    key that is present keeps its place. *)
Fixpoint dict_set {K V} `{EqDecision K} (d : list (K * V)) (k : K) (v : V) : list (K * V) :=
  match d with
  | [] => [(k, v)]
  | (k', v') :: d' => if decide (k' = k) then (k, v) :: d' else (k', v') :: dict_set d' k v
  end.

Definition nl : string := String (Ascii.ascii_of_nat 10) "".

(** [w in s] on strings *)
Fixpoint is_substring (w s : string) : bool :=
  String.prefix w s ||
  match s with
  | EmptyString => false
  | String _ s' => is_substring w s'
  end.

(** ** telegram.py *)

Section Telegram.
Context `{Collaborators}.

Definition sleep (seconds : Z) : M unit := emit (EvSleep seconds).

(** The body of the [for attempt in range(3)] loops, for the attempts
    that remain. *)
Fixpoint send_message_from (attempts : list Z) (message : string) (chat_id : Z)
  : M (option Z) :=
  match attempts with
  | [] => mret None
  | attempt :: rest =>
    try_except
      (sent_msg ← (emit (EvBotSend chat_id message) ;; call (bot_send_message chat_id message));
       mret (Some sent_msg))
      (λ e,
         match e with
         | TelegramError _ =>
           (if attempt <? 2 then sleep (2 ^ (attempt + 1)) else mret ()) ;;
           send_message_from rest message chat_id
         | _ => raise e
         end)
  end.

Definition send_message (message : string) (chat_id : Z) : M (option Z) :=
  send_message_from [0; 1; 2] message chat_id.

Fixpoint edit_message_from (attempts : list Z) (chat_id message_id : Z) (new_text : string)
  : M bool :=
  match attempts with
  | [] => mret false
  | attempt :: rest =>
    try_except
      (emit (EvBotEdit chat_id message_id new_text) ;;
       call (bot_edit_message_text chat_id message_id new_text) ;;
       mret true)
      (λ e,
         match e with
         | TelegramError _ =>
           (if attempt <? 2 then sleep (2 ^ (attempt + 1)) else mret ()) ;;
           edit_message_from rest chat_id message_id new_text
         | _ => raise e
         end)
  end.

Definition edit_message (chat_id message_id : Z) (new_text : string) : M bool :=
  edit_message_from [0; 1; 2] chat_id message_id new_text.

End Telegram.

(** ** new_main.py *)

(** [partial_sent_map]: chat id to message id, label and reference
    coordinate. *)
Abbreviation sent_map := (list (Z * (Z * string * float * float))).

Section NewMain.
Context `{StrOps} `{Collaborators}.

(** Writes the snapshot of [LOCATION_STATUS] to the status file. *)
Definition save_monitoring_status : M unit :=
  s ← get_state;
  emit (EvSaveStatus (LOCATION_STATUS s)).

(** [user_ids] is a set in the program; [elements] is the order in which
    the tasks are made. *)
Definition status_message (location : string) (active : bool)
    (reason : string) (next_change_time : option datetime) : string :=
  let when :=
    match next_change_time with
    | Some t => strftime_HM (time_of t)
    | None => "Unknown"
    end in
  if active then
    "📢 Monitoring has been resumed for " +:+ titlecase location +:+ "." +:+ nl +:+
    "Reason: " +:+ reason +:+ nl +:+
    "Will stop at: " +:+ when
  else
    "🛑 Monitoring has been paused for " +:+ titlecase location +:+ "." +:+ nl +:+
    "Reason: " +:+ reason +:+ nl +:+
    "Will resume at: " +:+ when.

Definition notify_status_change (location : string) (active : bool)
    (reason : string) (next_change_time : option datetime) : M unit :=
  s ← get_state;
  match LOCATION_USERS s !! location with
  | None => mret ()
  | Some user_ids =>
    let message := status_message location active reason next_change_time in
    let notification_tasks := map (λ user_id, send_message message user_id) (elements user_ids) in
    gather notification_tasks ;;
    emit (EvStatusLog location active reason)
  end.

(** The local variables of [generate_pairs_and_log]. *)
Record gen_acc := GenAcc {
  pairs : gset pair_t;
  user_pair_map : gmap pair_t (list subscriber);
  active_pairs : gset pair_t
}.

(** [LOCATION_STATUS[key]["is_active"] != active], for a key that is
    present. *)
Definition status_differs (s : state) (key : string) (active : bool) : option bool :=
  st ← LOCATION_STATUS s !! key;
  Some (negb (Bool.eqb (is_active st) active)).

(** The body of [for keyword in keywords]. *)
Definition gen_keyword (clk : clock) (u : user) (acc : gen_acc) (keyword : string)
  : M gen_acc :=
  let pair := (keyword, location u) in
  let pairs' : gset pair_t := pairs acc ∪ {[pair]} in
  r ← lift (is_monitoring_active clk (location u));
  let '(active, reason, next_change_time) := (r : bool * string * datetime) in
  s ← get_state;
  (if default true (status_differs s (lower (location u)) active) then
     sched ← lift (get_monitoring_schedule clk (location u));
     set_LOCATION_STATUS (<[lower (location u) := sched]> (LOCATION_STATUS s))
   else mret ()) ;;
  let active_pairs' : gset pair_t :=
    if active then active_pairs acc ∪ {[pair]} else active_pairs acc in
  let entry := Subscriber (user_id u) (excluded_words u) (fixed_lat u) (fixed_lon u) (modes u) in
  mret (GenAcc pairs'
               (<[pair := default [] (user_pair_map acc !! pair) ++ [entry]]> (user_pair_map acc))
               active_pairs').

(** The body of [for user in users]. *)
Definition gen_user (today : date) (clk : clock) (acc : gen_acc) (u : user) : M gen_acc :=
  expiry_date_obj ← lift (strptime_date (expiry_date u));
  if negb (activation_status u) || date_lt expiry_date_obj today then mret acc
  else
    s ← get_state;
    set_LOCATION_USERS
      (<[lower (location u) :=
           default ∅ (LOCATION_USERS s !! lower (location u)) ∪ {[user_id u]}]>
         (LOCATION_USERS s)) ;;
    for_fold (keywords u) acc (gen_keyword clk u).

(** [today] is [datetime.now().date()]. *)
Definition generate_pairs_and_log (today : date) (clk : clock) (users : list user)
  : M (gset pair_t * gmap pair_t (list subscriber)) :=
  set_LOCATION_USERS ∅ ;;
  acc ← for_fold users (GenAcc ∅ ∅ ∅) (gen_user today clk);
  lines ← for_fold (elements (pairs acc)) [] (λ lines '(keyword, location),
    r ← lift (is_monitoring_active clk location);
    let '(active, reason, _) := (r : bool * string * datetime) in
    let status := if active then "ACTIVE" else "PAUSED" in
    mret (lines ++ [keyword +:+ " - " +:+ location +:+ " [" +:+ status +:+ "] - " +:+
                    reason +:+ nl]));
  emit (EvWritePairsLog lines) ;;
  save_monitoring_status ;;
  mret (active_pairs acc, user_pair_map acc).

(** The block both branches of [check_marketplace_pair] run when the
    recorded status of the location differs from the computed one. *)
Definition notify_if_changed (clk : clock) (location : string) (active : bool)
    (reason : string) (next_change_time : datetime) : M unit :=
  s ← get_state;
  if default false (status_differs s (lower location) active) then
    notify_status_change (lower location) active reason (Some next_change_time) ;;
    sched ← lift (get_monitoring_schedule clk location);
    s' ← get_state;
    set_LOCATION_STATUS (<[lower location := sched]> (LOCATION_STATUS s')) ;;
    save_monitoring_status
  else mret ().

(** The three mode tests, in the order of the source. *)
Definition mode_filter (modes : modes_t) (result : classification) : option skip_reason :=
  if mode_only_preferred modes && negb (preferred result) then Some NotPreferred
  else if near_good_deals modes && negb (is_good_deal result || near_good_deal result)
       then Some NotNearGoodDeal
  else if good_deals modes && negb (is_good_deal result) then Some NotGoodDeal
  else None.

Definition link_text (link : string) : string :=
  "Link: https://www.facebook.com" +:+ link.

(** The label and the text of the provisional message. *)
Definition deal_message (result : classification) : string :=
  if is_good_deal result then "✅ Good Deal @ "
  else if near_good_deal result then "⚠️ Near Good Deal @ "
  else "".

Definition partial_text (result : classification) (price link : string) : string :=
  deal_message result +:+ "For " +:+ price +:+ nl +:+ link_text link.

(** The body of [for user in user_data[pair]]; [partial_sent_map] is the
    dictionary the loop fills. *)
Definition notify_subscriber (title price link : string)
    (partial_sent_map : sent_map) (user : subscriber) : M sent_map :=
  let chat_id := sub_chat_id user in
  if existsb (λ word, is_substring (lower word) (lower title)) (sub_excluded_words user) then
    emit (EvSkip chat_id ExcludedWord) ;; mret partial_sent_map
  else
    result ← (emit (EvClassify chat_id title price) ;; call (product_checker chat_id title price));
    match mode_filter (sub_modes user) result with
    | Some why => emit (EvSkip chat_id why) ;; mret partial_sent_map
    | None =>
      try_except
        (sent_msg ← send_message (partial_text result price link) chat_id;
         match sent_msg with
         | Some message_id =>
           mret (dict_set partial_sent_map chat_id
                   (message_id, deal_message result, sub_fixed_lat user, sub_fixed_lon user))
         | None => mret partial_sent_map
         end)
        (λ _, mret partial_sent_map)
    end.

(** The part of the listing loop after the subscriber loop: the detail
    page and the edits of the messages that were sent. *)
Definition enrich (price link : string) (partial_sent_map : sent_map) : M unit :=
  emit (EvDetail link) ;;
  call (open_detail link) ;;
  '(latitude, longitude, address) ←
    try_finally
      ('(latitude, longitude) ← call (λ w, let '(c, w') := extract_coordinates link w in (Ok c, w'));
       address ←
         match latitude, longitude with
         | Some lat, Some lon =>
           try_except (call (reverse_geocode lat lon)) (λ _, mret "Unknown Address")
         | _, _ => mret "Unknown Address"
         end;
       mret (latitude, longitude, address))
      (call close_detail);
  for_each partial_sent_map (λ '(chat_id, (msg_id, user_deal_message, fixed_lat, fixed_lon)),
    try_except
      (updated_text ←
         match latitude, longitude with
         | Some lat, Some lon =>
           distance ← call (calculate_distance fixed_lat fixed_lon lat lon);
           mret (user_deal_message +:+ address +:+ " (" +:+ distance +:+ ") For " +:+
                 price +:+ nl +:+ link_text link)
         | _, _ =>
           mret (user_deal_message +:+ address +:+ " (Distance unknown) For " +:+
                 price +:+ nl +:+ link_text link)
         end;
       edit_message chat_id msg_id updated_text ;; mret ())
      (λ _,
         let fallback_text :=
           user_deal_message +:+ "Location update failed. For " +:+ price +:+ nl +:+
           link_text link in
         try_except (edit_message chat_id msg_id fallback_text ;; mret ()) (λ _, mret ()))).

(** The body of [for listing in listings]. *)
Definition process_listing (pair : pair_t) (user_data : gmap pair_t (list subscriber))
    (l : listing) : M unit :=
  match link_element l, price_element l, title_element l with
  | Some href, Some price, Some title =>
    match href with
    | None | Some "" => mret ()
    | Some link =>
      s ← get_state;
      match first_run s !! pair with
      | None => raise (KeyError "first_run")
      | Some true => set_seen_listings (seen_listings s ∪ {[link]})
      | Some false =>
        if bool_decide (link ∈ seen_listings s) then mret ()
        else
          set_seen_listings (seen_listings s ∪ {[link]}) ;;
          partial_sent_map ←
            for_fold (default [] (user_data !! pair)) [] (notify_subscriber title price link);
          match partial_sent_map with
          | [] => mret ()
          | _ :: _ => enrich price link partial_sent_map
          end
      end
    end
  | _, _, _ => mret ()
  end.

(** The loop over the fetched listings, and the assignment after it. *)
Definition poll_listings (pair : pair_t) (user_data : gmap pair_t (list subscriber))
    (listings : list listing) : M unit :=
  for_each listings (process_listing pair user_data) ;;
  s ← get_state;
  set_first_run (<[pair := false]> (first_run s)).

Definition check_marketplace_pair (clk : clock) (pair : pair_t)
    (user_data : gmap pair_t (list subscriber)) : M unit :=
  let '(keyword, location) := pair in
  r ← lift (is_monitoring_active clk location);
  let '(active, reason, next_change_time) := (r : bool * string * datetime) in
  if negb active then
    notify_if_changed clk location active reason next_change_time
  else
    notify_if_changed clk location active reason next_change_time ;;
    call start_driver ;;
    try_finally
      (try_except
         (emit (EvFetch keyword location) ;;
          listings ← call (fetch_listings keyword location);
          poll_listings pair user_data listings)
         (λ _, mret ()))
      (call quit_driver).

(** [full_pairs] is a set in the program; the list is the order in which
    the loop visits it. *)
Definition check_and_update_schedules (clk : clock) (full_pairs : list pair_t) : M unit :=
  location_updates ←
    for_fold full_pairs [] (λ location_updates '(keyword, location),
      r ← lift (is_monitoring_active clk location);
  let '(active, reason, next_change_time) := (r : bool * string * datetime) in
      let location_key := lower location in
      s ← get_state;
      if default false (status_differs s location_key active)
      then mret (dict_set location_updates location_key (active, reason, next_change_time))
      else mret location_updates);
  for_each location_updates (λ '(location, (active, reason, next_change_time)),
    notify_status_change location active reason (Some next_change_time) ;;
    sched ← lift (get_monitoring_schedule clk location);
    s ← get_state;
    set_LOCATION_STATUS (<[location := sched]> (LOCATION_STATUS s))) ;;
  match location_updates with
  | [] => mret ()
  | _ :: _ => save_monitoring_status
  end.

(** One turn of the [while True] loop of [monitor_all_pairs_together],
    up to the sleep that ends it. *)
Definition monitor_cycle (today : date) (clk : clock) (users : list user)
    (full_pairs : list pair_t) : M unit :=
  '(active_pairs, user_pair_map) ← generate_pairs_and_log today clk users;
  check_and_update_schedules clk full_pairs ;;
  let tasks :=
    map (λ pair, check_marketplace_pair clk pair user_pair_map) (elements active_pairs) in
  gather tasks ;; mret ().

End NewMain.

(** ** telegram.py: messages sent one after the other *)

Section TelegramSequential.
Context `{Collaborators}.

(** The inner [for attempt in range(3)] loop of
    [send_messages_sequentially]: a success breaks out of it. *)
Fixpoint send_sequentially_from (attempts : list Z) (message : string) (chat_id : Z)
  : M unit :=
  match attempts with
  | [] => mret ()
  | attempt :: rest =>
    try_except
      (emit (EvBotSend chat_id message) ;;
       call (bot_send_message chat_id message) ;;
       mret ())
      (λ e,
         match e with
         | TelegramError _ =>
           (if attempt <? 2 then sleep (2 ^ (attempt + 1)) else mret ()) ;;
           send_sequentially_from rest message chat_id
         | _ => raise e
         end)
  end.

Definition send_messages_sequentially (messages : list (string * Z)) : M unit :=
  for_each messages (λ '(message, chat_id),
    send_sequentially_from [0; 1; 2] message chat_id).

End TelegramSequential.

(** ** main.py: the compiler of the version without schedules *)

Module MainPy.
Section MainPy.
Context `{Collaborators}.

(** The local variables of [generate_pairs_and_log]. *)
Record gen_acc := GenAcc {
  pairs : gset pair_t;
  user_pair_map : gmap pair_t (list subscriber)
}.

(** The body of [for keyword in keywords]. *)
Definition gen_keyword (u : user) (acc : gen_acc) (keyword : string) : M gen_acc :=
  let pair := (keyword, location u) in
  let entry := Subscriber (user_id u) (excluded_words u) (fixed_lat u) (fixed_lon u) (modes u) in
  mret (GenAcc (pairs acc ∪ {[pair]})
               (<[pair := default [] (user_pair_map acc !! pair) ++ [entry]]>
                  (user_pair_map acc))).

(** The body of [for user in users]. *)
Definition gen_user (today : date) (acc : gen_acc) (u : user) : M gen_acc :=
  expiry_date_obj ← lift (strptime_date (expiry_date u));
  if negb (activation_status u) || date_lt expiry_date_obj today then mret acc
  else for_fold (keywords u) acc (gen_keyword u).

(** [today] is [datetime.now().date()]. *)
Definition generate_pairs_and_log (today : date) (users : list user)
  : M (gset pair_t * gmap pair_t (list subscriber)) :=
  acc ← for_fold users (GenAcc ∅ ∅) (gen_user today);
  emit (EvWritePairsLog
          (map (λ '(keyword, location), keyword +:+ " - " +:+ location +:+ nl)
               (elements (pairs acc)))) ;;
  mret (pairs acc, user_pair_map acc).

End MainPy.
End MainPy.

(** ** listing_location.py *)

(** A value made by [json.loads]; a number is kept as the text of its
    literal, an object as the list of its items in order. *)
#[warnings="-register-all"]
Inductive json :=
| JNull
| JBool (b : bool)
| JNumber (literal : string)
| JString (s : string)
| JList (items : list json)
| JDict (items : list (string * json)).

(** [d.get(k)] and [k in d]; the keys of a Python dictionary are
    distinct, so the first item of a key is its only one. *)
Fixpoint dict_get {V} (d : list (string * V)) (k : string) : option V :=
  match d with
  | [] => None
  | (k', v) :: d' => if decide (k' = k) then Some v else dict_get d' k
  end.

Definition dict_has {V} (d : list (string * V)) (k : string) : bool :=
  match dict_get d k with Some _ => true | None => false end.

(** [bool(d)] for a dictionary. *)
Definition truthy {V} (d : list (string * V)) : bool :=
  match d with [] => false | _ :: _ => true end.

(** [for i, item in enumerate(value)], with [rec] the recursive call. *)
Fixpoint search_list (rec : json → option (list (string * json))) (value : list json)
  : option (list (string * json)) :=
  match value with
  | [] => None
  | item :: value' =>
    match item with
    | JDict _ =>
      match rec item with
      | Some result => if truthy result then Some result else search_list rec value'
      | None => search_list rec value'
      end
    | _ => search_list rec value'
    end
  end.

(** [for key, value in data.items()], with [rec] the recursive call. *)
Fixpoint search_items (rec : json → option (list (string * json)))
    (items : list (string * json)) : option (list (string * json)) :=
  match items with
  | [] => None
  | (key, value) :: items' =>
    match value with
    | JDict _ =>
      match rec value with
      | Some result => if truthy result then Some result else search_items rec items'
      | None => search_items rec items'
      end
    | JList value =>
      match search_list rec value with
      | Some result => Some result
      | None => search_items rec items'
      end
    | _ => search_items rec items'
    end
  end.

(** The dictionary under ['location'], when it is a dictionary that has
    both coordinates. *)
Definition location_of (data : list (string * json)) : option (list (string * json)) :=
  match dict_get data "location" with
  | Some (JDict location) =>
    if dict_has location "latitude" && dict_has location "longitude"
    then Some location else None
  | _ => None
  end.

Fixpoint find_location_recursive (data : json) (depth max_depth : Z) {struct data}
  : option (list (string * json)) :=
  if depth >? max_depth then None
  else
    match data with
    | JDict data =>
      match location_of data with
      | Some location => Some location
      | None =>
        if dict_has data "latitude" && dict_has data "longitude" then Some data
        else search_items (λ value, find_location_recursive value (depth + 1) max_depth) data
      end
    | _ => None
    end.

(** The dictionary [r] is [n] levels below [data]: a level is a step
    from a dictionary to one of its values, or to an item of a list that
    is one of its values. *)
Inductive reach : nat → list (string * json) → json → Prop :=
| reach_here r : reach 0 r (JDict r)
| reach_value n r data key value :
    (key, JDict value) ∈ data → reach n r (JDict value) → reach (S n) r (JDict data)
| reach_item n r data key value item :
    (key, JList value) ∈ data → JDict item ∈ value → reach n r (JDict item) →
    reach (S n) r (JDict data).

(** A page state with the coordinates three levels down. *)
Definition sample_page : json :=
  JDict [("require", JList [JString "x";
                            JDict [("props",
                                    JDict [("title", JString "Red bike");
                                           ("location",
                                            JDict [("latitude", JNumber "-37.81");
                                                   ("longitude", JNumber "144.96")])])]])].

(** ** Instances on which the model runs

    [str.lower] and [str.title] on ASCII text, and collaborators that
    follow a script: the world is the list of the outcomes of the next
    calls of the bot (a call after the end of the script succeeds). *)

Definition is_upper (c : Ascii.ascii) : bool :=
  let n := Ascii.nat_of_ascii c in (65 <=? n)%nat && (n <=? 90)%nat.

Definition is_lower (c : Ascii.ascii) : bool :=
  let n := Ascii.nat_of_ascii c in (97 <=? n)%nat && (n <=? 122)%nat.

Definition ascii_lower_char (c : Ascii.ascii) : Ascii.ascii :=
  if is_upper c then Ascii.ascii_of_nat (Ascii.nat_of_ascii c + 32) else c.

Definition ascii_upper_char (c : Ascii.ascii) : Ascii.ascii :=
  if is_lower c then Ascii.ascii_of_nat (Ascii.nat_of_ascii c - 32) else c.

Fixpoint ascii_lower (s : string) : string :=
  match s with
  | EmptyString => EmptyString
  | String c s' => String (ascii_lower_char c) (ascii_lower s')
  end.

(** [in_word] tells whether the previous character was a letter. *)
Fixpoint ascii_title_from (in_word : bool) (s : string) : string :=
  match s with
  | EmptyString => EmptyString
  | String c s' =>
    String (if in_word then ascii_lower_char c else ascii_upper_char c)
           (ascii_title_from (is_upper c || is_lower c) s')
  end.

Definition ascii_strops : StrOps :=
  {| lower := ascii_lower; titlecase := ascii_title_from false |}.

(** [str.lower] on UTF-8 text of ASCII characters and of the letters of
    the basic Greek alphabet, as CPython computes it: a capital letter
    becomes the small one, and a capital sigma becomes the final sigma
    when a cased letter comes before it and no cased letter comes after
    it, case-ignorable characters apart (the small sigma otherwise).
    Other characters are left as they are: the instance is [str.lower]
    on text made of ASCII characters and of these Greek letters, and is
    used on such text only. *)














Definition scripted_bot {A} (ok : A) (w : list (result A)) : result A * list (result A) :=
  match w with
  | [] => (Ok ok, [])
  | r :: w' => (r, w')
  end.

Definition scripted (classify : string → classification) (page : list listing)
  : Collaborators :=
  {| world := list (result Z);
     float := Z;
     bot_send_message := λ _ _, scripted_bot 1000;
     bot_edit_message_text := λ _ _ _ w, (Ok (), w);
     product_checker := λ _ title _ w, (Ok (classify title), w);
     reverse_geocode := λ _ _ w, (Ok "1 Example St", w);
     calculate_distance := λ _ _ _ _ w, (Ok "5 km", w);
     start_driver := λ w, (Ok (), w);
     fetch_listings := λ _ _ w, (Ok page, w);
     open_detail := λ _ w, (Ok (), w);
     extract_coordinates := λ _ w, ((None, None), w);
     close_detail := λ w, (Ok (), w);
     quit_driver := λ w, (Ok (), w) |}.

(** Collaborators with an empty result page and a classifier that
    finds nothing of interest. *)
Definition quiet : Collaborators :=
  scripted (λ _, Classification "" false false false) [].

Definition clock_at (dt : datetime) : clock := λ _, dt.

Definition initial_state `{Collaborators} (w : world) : state :=
  State ∅ ∅ ∅ ∅ w [].

(** Sample data: a subscriber of good deals on bikes in Melbourne, a
    subscriber without keywords and one whose subscription has run out;
    a record of the result page; the state in which the first-run flag
    of the work item is set, and the one in which the record was seen. *)
Definition bike_user : user (H := quiet) :=
  @User quiet true "2030-01-01" 42 ["bike"] "Melbourne" ["BROKEN"] 0 0 (Modes false false true).

Definition idle_user : user (H := quiet) :=
  @User quiet true "2030-01-01" 43 [] "Melbourne" [] 0 0 (Modes false false false).

Definition expired_user : user (H := quiet) :=
  @User quiet true "2023-12-31" 44 ["bike"] "Melbourne" [] 0 0 (Modes false false false).

Definition bike_pair : pair_t := ("bike", "Melbourne").

Definition bike_subscriber : subscriber (H := quiet) :=
  @Subscriber quiet 42 ["BROKEN"] 0 0 (Modes false false true).

Definition red_bike : listing :=
  Listing (Some (Some "/item/1")) (Some "$500") (Some "Red bike").

Definition first_run_state : state (H := quiet) :=
  @State quiet ∅ ∅ ∅ {[bike_pair := true]} [] [].

Definition seen_state : state (H := quiet) :=
  @State quiet ∅ ∅ {["/item/1"]} {[bike_pair := false]} [] [].

(** Collaborators whose classifier finds a good deal in every listing,
    a subscriber of theirs, and a second record. *)
Definition keen : Collaborators :=
  scripted (λ _, Classification "bike" true true false) [].

Definition keen_subscriber : subscriber (H := keen) :=
  @Subscriber keen 42 ["BROKEN"] 0 0 (Modes false false true).

Definition blue_bike : listing :=
  Listing (Some (Some "/item/2")) (Some "$300") (Some "Blue bike").

(** Collaborators whose result page cannot be fetched. *)
Definition offline : Collaborators :=
  {| world := list (result Z);
     float := Z;
     bot_send_message := λ _ _, scripted_bot 1000;
     bot_edit_message_text := λ _ _ _ w, (Ok (), w);
     product_checker := λ _ _ _ w, (Ok (Classification "" false false false), w);
     reverse_geocode := λ _ _ w, (Ok "1 Example St", w);
     calculate_distance := λ _ _ _ _ w, (Ok "5 km", w);
     start_driver := λ w, (Ok (), w);
     fetch_listings := λ _ _ w, (Raise (Exception "timed out"), w);
     open_detail := λ _ w, (Ok (), w);
     extract_coordinates := λ _ w, ((None, None), w);
     close_detail := λ w, (Ok (), w);
     quit_driver := λ w, (Ok (), w) |}.

(** The events that reach a subscriber or record a status change. *)
Definition is_broadcast (e : event) : bool :=
  match e with
  | EvBotSend _ _ | EvStatusLog _ _ _ => true
  | _ => false
  end.

(** ** Notions the statements below use *)

Definition is_telegram_error {A} (r : result A) : bool :=
  match r with Raise (TelegramError _) => true | _ => false end.

(** The world after [n] calls of the collaborator [f], and what the
    call number [n] (from 0) returns. *)
Fixpoint world_after `{Collaborators} {A} (f : world → result A * world)
    (n : nat) (w : world) : world :=
  match n with
  | O => w
  | S n' => world_after f n' (f w).2
  end.

Definition outcome `{Collaborators} {A} (f : world → result A * world)
    (n : nat) (w : world) : result A :=
  (f (world_after f n w)).1.

(** The events of [n] attempts [e] and the pauses between them. *)
Definition retry_events (e : event) (n : nat) : list event :=
  match n with
  | 0%nat => []
  | 1%nat => [e]
  | 2%nat => [e; EvSleep 2; e]
  | _ => [e; EvSleep 2; e; EvSleep 4; e]
  end.

Definition with_world_trace `{Collaborators} (s : state) (w : world) (t : list event) : state :=
  State (LOCATION_STATUS s) (LOCATION_USERS s) (seen_listings s) (first_run s) w t.

(** A relation between the state before and the state after that every
    effect on the world and on the trace respects. *)
Class Stable `{Collaborators} (R : relation state) := {
  stable_preorder :: PreOrder R;
  stable_world_trace : ∀ s w t, trace s `prefix_of` t → R s (with_world_trace s w t)
}.

(** The run of [m] relates the state it starts from to the state it
    leaves, whether it returns or raises. *)
Definition preserves `{Collaborators} (R : relation state) {A} (m : M A) : Prop :=
  ∀ s, R s (m s).2.

(** Every mode that is on finds its condition met. *)
Definition mode_conditions (m : modes_t) (r : classification) : Prop :=
  (mode_only_preferred m = true → preferred r = true) ∧
  (near_good_deals m = true → is_good_deal r = true ∨ near_good_deal r = true) ∧
  (good_deals m = true → is_good_deal r = true).

(** The modes in the order of the claim, each with its condition and the
    reason logged when the condition is not met; [first_unmet] is the
    first mode of the list that is on and whose condition fails. *)
Definition modes_in_order (m : modes_t) (r : classification)
  : list (bool * bool * skip_reason) :=
  [ (mode_only_preferred m, preferred r, NotPreferred);
    (near_good_deals m, is_good_deal r || near_good_deal r, NotNearGoodDeal);
    (good_deals m, is_good_deal r, NotGoodDeal) ].

Definition first_unmet (m : modes_t) (r : classification) : option skip_reason :=
  match List.find (λ t, t.1.1 && negb t.1.2) (modes_in_order m r) with
  | Some t => Some t.2
  | None => None
  end.

(** The link of a well-formed record: the anchor is there with an [href]
    that is not empty, and so are the price and the title. *)
Definition listing_link (l : listing) : option string :=
  match link_element l, price_element l, title_element l with
  | Some (Some link), Some _, Some _ => if decide (link = "") then None else Some link
  | _, _, _ => None
  end.

(** The listing loop on the pages that successive polls of one work item
    fetch; an exception ends the poll that raised it, as the [try] of
    [check_marketplace_pair] has it. *)
Definition polls `{StrOps} `{Collaborators} (pair : pair_t)
    (user_data : gmap pair_t (list subscriber)) (pages : list (list listing)) : M unit :=
  for_each pages (λ listings,
    try_except (poll_listings pair user_data listings) (λ _, mret ())).

(** The pages without the records of link [link]. *)
Definition without_link (link : string) (pages : list (list listing)) : list (list listing) :=
  map (filter (λ l, listing_link l ≠ Some link)) pages.

(** The set of seen links grows, and the first-run flag of [pair], once
    there, stays there. *)
Definition grows `{Collaborators} (pair : pair_t) : relation state := λ s s',
  seen_listings s ⊆ seen_listings s' ∧
  (is_Some (first_run s !! pair) → is_Some (first_run s' !! pair)).

(** The rule of the claim for one user: the activation flag is set and
    the expiry date is not strictly before today. *)
Definition eligible `{Collaborators} (today : date) (u : user) : bool :=
  match strptime_date (expiry_date u) with
  | Ok expiry => activation_status u && negb (date_lt expiry today)
  | Raise _ => false
  end.

Definition entry_of `{Collaborators} (u : user) : subscriber :=
  Subscriber (user_id u) (excluded_words u) (fixed_lat u) (fixed_lon u) (modes u).

(** What a user brings: one work item and one entry for each keyword. *)
Definition contribution `{Collaborators} (u : user) : list (pair_t * subscriber) :=
  map (λ keyword, ((keyword, location u), entry_of u)) (keywords u).

(** What the eligible users of a list bring, in the order of the list. *)
Definition contributions `{Collaborators} (today : date) (users : list user)
  : list (pair_t * subscriber) :=
  concat (map contribution (filter (λ u, eligible today u = true) users)).

(** The entries brought for the work item [p], and the value a
    dictionary built from them has at [p]. *)
Definition subscribers_of `{Collaborators} (p : pair_t) (cs : list (pair_t * subscriber))
  : list subscriber :=
  (filter (λ c, c.1 = p) cs).*2.

Definition expected_entry `{Collaborators} (p : pair_t) (cs : list (pair_t * subscriber))
  : option (list subscriber) :=
  match subscribers_of p cs with
  | [] => None
  | l => Some l
  end.

(** The index of subscribers only grows. *)
Definition index_grows `{Collaborators} : relation state := λ s s',
  ∀ key chat_id, chat_id ∈ default ∅ (LOCATION_USERS s !! key) →
                 chat_id ∈ default ∅ (LOCATION_USERS s' !! key).

(** The trace only grows. *)
Definition trace_grows `{Collaborators} : relation state := λ s s',
  trace s `prefix_of` trace s'.

(** Whether monitoring is active, at the sample [clk], in the zone of
    the key [key] of [LOCATION_STATUS]. *)
Definition active_at_key (clk : clock) (key : string) : bool :=
  negb (in_inactive_period
          (time_of (clk (default DEFAULT_TIMEZONE (LOCATION_TIMEZONES !! key))))).

(** The status recorded under [key] is the status at the sample [clk]. *)
Definition key_current (clk : clock) (ls : gmap string schedule) (key : string) : Prop :=
  ∃ st, ls !! key = Some st ∧ is_active st = active_at_key clk key.

(** The local variables of the compiler after the contributions [cs],
    with [ls] the value of [LOCATION_STATUS]: the schedule engine answers
    at the location of every work item, the map holds the contributions,
    its keys are work items, and the status recorded for the location of
    every work item is the status at the sample [clk]. *)
Definition compiled `{StrOps} `{Collaborators} (clk : clock)
    (cs : list (pair_t * subscriber)) (acc : gen_acc) (ls : gmap string schedule) : Prop :=
  (∀ p, p ∈ pairs acc → is_ok (is_monitoring_active clk p.2) = true) ∧
  (∀ p, user_pair_map acc !! p = expected_entry p cs) ∧
  (∀ p, is_Some (user_pair_map acc !! p) → p ∈ pairs acc) ∧
  (∀ p, p ∈ pairs acc → key_current clk ls (lower p.2)).

(** ** Further notions *)

(** Microseconds since midnight. *)
Definition micros (t : time) : Z :=
  ((t_hour t * 60 + t_minute t) * 60 + t_second t) * 1000000 + t_microsecond t.

(** The events of the attempts for a list of messages, [ns] giving the
    number of attempts for each. *)
Fixpoint sequential_events (messages : list (string * Z)) (ns : list nat) : list event :=
  match messages, ns with
  | (message, chat_id) :: messages', n :: ns' =>
    retry_events (EvBotSend chat_id message) n ++ sequential_events messages' ns'
  | _, _ => []
  end.

(** The events a computation appends to the trace all satisfy [P]. *)
Definition emits `{Collaborators} (P : event → Prop) {A} (m : M A) : Prop :=
  ∀ s, ∃ d, trace (m s).2 = trace s ++ d ∧ Forall P d.

(** The parts of the state the compiler leaves alone. *)
Definition only_globals `{Collaborators} : relation state := λ s s',
  seen_listings s' = seen_listings s ∧ first_run s' = first_run s ∧
  the_world s' = the_world s ∧ trace s' = trace s.

Definition same_index `{Collaborators} : relation state := λ s s',
  LOCATION_USERS s' = LOCATION_USERS s.

(** A user whose expiry date is not a date, and who is not activated. *)
Definition malformed_user : user (H := quiet) :=
  @User quiet false "soon" 45 ["bike"] "Melbourne" [] 0 0 (Modes false false false).

(** The local variables of the compiler: the keys of the map are the
    work items, the schedule engine has answered at the location of each,
    and the active ones are those where it answered active. *)
Definition acc_wf `{StrOps} `{Collaborators} (clk : clock) (acc : gen_acc) : Prop :=
  (∀ p, p ∈ pairs acc ↔ is_Some (user_pair_map acc !! p)) ∧
  (∀ p, p ∈ pairs acc → is_ok (is_monitoring_active clk p.2) = true) ∧
  (∀ p, p ∈ active_pairs acc ↔
        p ∈ pairs acc ∧ ∃ reason next, is_monitoring_active clk p.2 = Ok (true, reason, next)).

(** The chat ids of the subscribers of a work item. *)
Definition chats_of `{Collaborators} (user_data : gmap pair_t (list subscriber))
    (pair : pair_t) : list Z :=
  sub_chat_id <$> default [] (user_data !! pair).

(** The run of [m] from [s] appends events that all satisfy [P]. *)
Definition emits_at `{Collaborators} (P : event → Prop) {A} (m : M A) (s : state) : Prop :=
  ∃ d, trace (m s).2 = trace s ++ d ∧ Forall P d.

(** Every value [m] returns satisfies [Q]. *)
Definition returns `{Collaborators} {A} (Q : A → Prop) (m : M A) : Prop :=
  ∀ s a s', m s = (Ok a, s') → Q a.

(** The events of the poll of the work item [pair]: what is sent is
    the provisional message of a listing, to one of its subscribers
    [chats], or the message of a status change of its location, to one
    of the [members] of that location; classifications, skips and edits
    are for its subscribers; it fetches its own page and logs the status
    of its own location. *)
Definition addressed `{StrOps} (pair : pair_t) (chats : list Z) (members : gset Z)
    (location_key : string) (e : event) : Prop :=
  match e with
  | EvBotSend c text =>
    (c ∈ chats ∧ ∃ result price link, text = partial_text result price link) ∨
    (c ∈ members ∧
     ∃ active reason next, text = status_message location_key active reason next)
  | EvBotEdit c _ _ | EvClassify c _ _ | EvSkip c _ => c ∈ chats
  | EvFetch k l => (k, l) = pair
  | EvStatusLog l _ _ => l = location_key
  | EvSleep _ | EvDetail _ | EvSaveStatus _ => True
  | EvWritePairsLog _ => False
  end.

(** The events of a status change. *)
Definition status_event (e : event) : Prop :=
  match e with
  | EvBotSend _ _ | EvSleep _ | EvStatusLog _ _ _ | EvSaveStatus _ => True
  | _ => False
  end.

(** What the poll of the work item [pair] may change: the set of seen
    links grows, the first-run flag of [pair] stays or becomes false, the
    status of the location of [pair] may be replaced; the index of
    subscribers, the flags of the other work items and the status of the
    other locations stay. *)
Definition isolated `{StrOps} `{Collaborators} (pair : pair_t) : relation state := λ s s',
  LOCATION_USERS s' = LOCATION_USERS s ∧
  seen_listings s ⊆ seen_listings s' ∧
  (∀ q, q ≠ pair → first_run s' !! q = first_run s !! q) ∧
  (first_run s' !! pair = first_run s !! pair ∨ first_run s' !! pair = Some false) ∧
  (∀ key, key ≠ lower pair.2 → LOCATION_STATUS s' !! key = LOCATION_STATUS s !! key).

(** The set of seen links and the first-run flags are as they were. *)
Definition untouched `{Collaborators} : relation state := λ s s',
  seen_listings s' = seen_listings s ∧ first_run s' = first_run s.

(** The recorded statuses are as they were. *)
Definition same_status `{Collaborators} : relation state := λ s s',
  LOCATION_STATUS s' = LOCATION_STATUS s.



(** The attempts of the broadcast of [message] to [members], and the
    pauses between them. *)
Definition broadcast_send (members : gset Z) (message : string) (e : event) : Prop :=
  match e with
  | EvBotSend c text => c ∈ members ∧ text = message
  | EvSleep _ => True
  | _ => False
  end.

(** Every character of the text is an ASCII character. *)
Definition ascii_text (s : string) : bool :=
  forallb (λ c, Strptime.code c <? 128) (String.list_ascii_of_string s).

(** * Properties *)

(** Decides a comparison of times by cases on the comparisons of their
    fields. *)
Ltac time_cases :=
  unfold in_inactive_period, time_le, time_gt, time_compare, time_of,
    start_inactive, end_inactive;
  cbn [t_hour t_minute t_second t_microsecond hour minute second microsecond];
  repeat match goal with
         | |- context [?a ?= ?b] => destruct (Z.compare_spec a b); try lia
         end;
  try done.

(** ** The schedule engine *)

Lemma valid_datetime_inv dt :
  valid_datetime dt = true →
  valid_date (year dt) (month dt) (day dt) = true ∧
  0 <= microsecond dt <= 999999.
Proof.
  unfold valid_datetime, valid_time. intros Hv.
  repeat (apply andb_prop in Hv as [Hv ?]). split; [by repeat (apply andb_true_intro; split)|lia].
Qed.

Lemma replace_hms_valid dt h mi s :
  valid_datetime dt = true →
  0 <= h <= 23 → 0 <= mi <= 59 → 0 <= s <= 59 →
  replace_hms dt h mi s =
    Ok (DateTime (year dt) (month dt) (day dt) h mi s (microsecond dt)).
Proof.
  intros [Hd Hus]%valid_datetime_inv Hh Hmi Hs.
  unfold replace_hms, datetime_new. rewrite Hd. simpl.
  assert (valid_time h mi s (microsecond dt) = true) as ->; [|done].
  unfold valid_time. repeat (apply andb_true_intro; split); lia.
Qed.

Lemma replace_day_next dt :
  valid_datetime dt = true →
  replace_day (DateTime (year dt) (month dt) (day dt) 6 30 0 (microsecond dt)) (day dt + 1) =
    if day dt + 1 <=? days_in_month (year dt) (month dt)
    then Ok (DateTime (year dt) (month dt) (day dt + 1) 6 30 0 (microsecond dt))
    else Raise (ValueError "day is out of range for month").
Proof.
  intros [Hd Hus]%valid_datetime_inv.
  unfold replace_day, datetime_new; simpl.
  unfold valid_date in *.
  repeat (apply andb_prop in Hd as [Hd ?]).
  destruct (day dt + 1 <=? days_in_month (year dt) (month dt)) eqn:Hnext.
  - assert ((1 <=? year dt) && (year dt <=? 9999) && (1 <=? month dt) && (month dt <=? 12) &&
            (1 <=? day dt + 1) && true = true) as ->
      by (repeat (apply andb_true_intro; split); lia).
    simpl. assert (valid_time 6 30 0 (microsecond dt) = true) as ->; [|done].
    unfold valid_time. repeat (apply andb_true_intro; split); lia.
  - by rewrite andb_false_r.
Qed.

(** What [is_monitoring_active] returns at every valid sample of the
    clock: it fails exactly at night before midnight on the last day of a
    month. *)
Lemma is_monitoring_active_spec `{StrOps} (clk : clock) (location : string) :
  let now := clk (get_location_timezone location) in
  let t := time_of now in
  valid_datetime now = true →
  is_monitoring_active clk location =
    if in_inactive_period t then
      if time_gt t end_inactive && negb (day now + 1 <=? days_in_month (year now) (month now))
      then Raise (ValueError "day is out of range for month")
      else Ok (false,
               "Nighttime hours in " +:+ location +:+ " (local time: " +:+
               strftime_HM t +:+ "). Resuming at " +:+ strftime_HM end_inactive,
               DateTime (year now) (month now)
                        (if time_gt t end_inactive then day now + 1 else day now)
                        6 30 0 (microsecond now))
    else Ok (true,
             "Daytime hours in " +:+ location +:+ " (local time: " +:+ strftime_HM t +:+ ")",
             DateTime (year now) (month now) (day now) 22 0 0 (microsecond now)).
Proof.
  intros now t Hv. unfold is_monitoring_active. fold now. fold t.
  destruct (in_inactive_period t).
  - rewrite replace_hms_valid by (done || simpl; lia). simpl.
    destruct (time_gt t end_inactive); [|done].
    unfold mbind at 1, result_bind.
    pose proof (replace_day_next now Hv) as Hn. simpl in Hn.
    replace (day (DateTime (year now) (month now) (day now) 6 30 0 (microsecond now)))
      with (day now) in * by done.
    destruct (day now + 1 <=? days_in_month (year now) (month now)); simpl;
      unfold replace_day in *; simpl in *; by rewrite Hn.
  - rewrite replace_hms_valid by (done || simpl; lia). done.
Qed.

Lemma get_monitoring_schedule_active `{StrOps} (clk : clock) (location : string) sched :
  get_monitoring_schedule clk location = Ok sched →
  is_active sched =
    negb (in_inactive_period (time_of (clk (get_location_timezone location)))).
Proof.
  unfold get_monitoring_schedule.
  set (now := clk (get_location_timezone location)).
  destruct (negb (in_inactive_period (time_of now))) eqn:Hact.
  - destruct (replace_hms now _ _ _); simpl; [|done].
    by intros [= <-].
  - destruct (replace_hms now _ _ _) as [d|]; simpl; [|done].
    destruct (if time_gt _ _ then _ else _); simpl; [|done].
    by intros [= <-].
Qed.

Lemma is_monitoring_active_active `{StrOps} (clk : clock) (location : string) r :
  is_monitoring_active clk location = Ok r →
  r.1.1 = negb (in_inactive_period (time_of (clk (get_location_timezone location)))).
Proof.
  unfold is_monitoring_active.
  set (now := clk (get_location_timezone location)).
  destruct (in_inactive_period (time_of now)).
  - destruct (replace_hms now _ _ _) as [d|]; simpl; [|done].
    destruct (if time_gt _ _ then _ else _); simpl; [|done].
    by intros [= <-].
  - destruct (replace_hms now _ _ _); simpl; [|done].
    by intros [= <-].
Qed.

(** The two functions of [time_management.py] fail on the same samples. *)
Lemma get_monitoring_schedule_ok `{StrOps} (clk : clock) (location : string) :
  is_ok (get_monitoring_schedule clk location) = is_ok (is_monitoring_active clk location).
Proof.
  unfold get_monitoring_schedule, is_monitoring_active.
  set (now := clk (get_location_timezone location)).
  destruct (in_inactive_period (time_of now)); simpl.
  - destruct (replace_hms now _ _ _) as [d|]; simpl; [|done].
    destruct (time_gt _ _); [|done].
    by destruct (replace_day d _).
  - by destruct (replace_hms now _ _ _).
Qed.

(** C2: on the last day of a month, from 22:00 on, the computation of
    the next change raises [ValueError]: [replace(day=now.day + 1)] asks
    for a day the month does not have.  Here at 23:00 on 31 January 2024,
    for both functions of the schedule engine. *)
Theorem C2_month_end_raises :
  is_monitoring_active (H := ascii_strops)
    (clock_at (DateTime 2024 1 31 23 0 0 0)) "melbourne"
  = Raise (ValueError "day is out of range for month") ∧
  is_ok (get_monitoring_schedule (H := ascii_strops)
           (clock_at (DateTime 2024 1 31 23 0 0 0)) "melbourne") = false.
Proof. split; vm_compute; reflexivity. Qed.

(** The same failure at every location, in every month and year. *)
Lemma is_monitoring_active_raises_at_month_end `{StrOps} (clk : clock) (location : string) :
  let now := clk (get_location_timezone location) in
  valid_datetime now = true →
  22 <= hour now →
  day now = days_in_month (year now) (month now) →
  is_monitoring_active clk location = Raise (ValueError "day is out of range for month").
Proof.
  intros now Hv Hh Hd.
  rewrite is_monitoring_active_spec by done. fold now.
  assert (0 <= minute now ∧ 0 <= second now ∧ 0 <= microsecond now) as (? & ? & ?).
  { unfold valid_datetime, valid_time in Hv.
    repeat (apply andb_prop in Hv as [Hv ?]). lia. }
  assert (in_inactive_period (time_of now) = true) as -> by time_cases.
  assert (time_gt (time_of now) end_inactive = true) as -> by time_cases.
  rewrite Hd. replace (_ <=? _) with false by lia. done.
Qed.

Lemma is_monitoring_active_raises_witness :
  is_monitoring_active (H := ascii_strops)
    (clock_at (DateTime 2023 2 28 22 15 0 0)) "Brisbane"
  = Raise (ValueError "day is out of range for month").
Proof.
  apply (is_monitoring_active_raises_at_month_end (H := ascii_strops)
           (clock_at (DateTime 2023 2 28 22 15 0 0)) "Brisbane");
    [reflexivity | simpl; lia | reflexivity].
Defined.

(** C3 as the claim states it fails at 06:30:00 sharp: the test
    [current_time <= end_inactive] puts that instant in the inactive
    period. *)
Lemma C3_end_boundary_inactive :
  is_monitoring_active (H := ascii_strops)
    (clock_at (DateTime 2024 1 15 6 30 0 0)) "melbourne"
  = Ok (false,
        "Nighttime hours in melbourne (local time: 06:30). Resuming at 06:30",
        DateTime 2024 1 15 6 30 0 0) ∧
  ∀ reason next,
    is_monitoring_active (H := ascii_strops)
      (clock_at (DateTime 2024 1 15 6 30 0 0)) "melbourne"
    ≠ Ok (true, reason, next).
Proof.
  assert (is_monitoring_active (H := ascii_strops)
            (clock_at (DateTime 2024 1 15 6 30 0 0)) "melbourne"
          = Ok (false,
                "Nighttime hours in melbourne (local time: 06:30). Resuming at 06:30",
                DateTime 2024 1 15 6 30 0 0)) as Hrun by (vm_compute; reflexivity).
  split; [exact Hrun|]. intros reason next. rewrite Hrun. discriminate.
Qed.

(** C3, amended: at every location, whatever the date, the engine
    answers active at 12:00, inactive at 06:00, inactive at 06:30:00
    sharp (the end boundary belongs to the inactive period) and active at
    every later instant of the minute 06:30; at 23:00 it answers inactive
    on every day but the last of a month. *)
Theorem C3_sample_times `{StrOps} (clk : clock) (location : string) :
  let now := clk (get_location_timezone location) in
  valid_datetime now = true →
  (time_of now = Time 12 0 0 0 →
   ∃ reason next, is_monitoring_active clk location = Ok (true, reason, next)) ∧
  (time_of now = Time 6 0 0 0 →
   ∃ reason next, is_monitoring_active clk location = Ok (false, reason, next)) ∧
  (time_of now = Time 6 30 0 0 →
   ∃ reason next, is_monitoring_active clk location = Ok (false, reason, next)) ∧
  (hour now = 6 → minute now = 30 → 0 < second now ∨ 0 < microsecond now →
   ∃ reason next, is_monitoring_active clk location = Ok (true, reason, next)) ∧
  (time_of now = Time 23 0 0 0 → day now < days_in_month (year now) (month now) →
   ∃ reason next, is_monitoring_active clk location = Ok (false, reason, next)).
Proof.
  intros now Hv. pose proof (is_monitoring_active_spec clk location Hv) as Hs.
  fold now in Hs. simpl in Hs.
  assert (0 <= second now ∧ 0 <= microsecond now) as [Hsec Hus].
  { unfold valid_datetime, valid_time in Hv.
    repeat (apply andb_prop in Hv as [Hv ?]). lia. }
  repeat split.
  - intros Ht. rewrite Ht in Hs. rewrite Hs. eauto.
  - intros Ht. rewrite Ht in Hs. rewrite Hs. simpl. eauto.
  - intros Ht. rewrite Ht in Hs. rewrite Hs. simpl. eauto.
  - intros Hh Hm Hpos. rewrite Hs.
    assert (in_inactive_period (time_of now) = false) as -> by time_cases.
    eauto.
  - intros Ht Hd. rewrite Ht in Hs. rewrite Hs. simpl.
    replace (_ <=? _) with true by lia. simpl. eauto.
Qed.

Lemma C3_sample_times_witness :
  (∃ reason next, is_monitoring_active (H := ascii_strops)
     (clock_at (DateTime 2024 1 15 12 0 0 0)) "Melbourne" = Ok (true, reason, next)) ∧
  (∃ reason next, is_monitoring_active (H := ascii_strops)
     (clock_at (DateTime 2024 1 15 6 30 0 1)) "Melbourne" = Ok (true, reason, next)) ∧
  (∃ reason next, is_monitoring_active (H := ascii_strops)
     (clock_at (DateTime 2024 1 15 23 0 0 0)) "Melbourne" = Ok (false, reason, next)).
Proof.
  split; [|split].
  - destruct (C3_sample_times (H := ascii_strops)
                (clock_at (DateTime 2024 1 15 12 0 0 0)) "Melbourne" eq_refl)
      as (Hnoon & _).
    exact (Hnoon eq_refl).
  - destruct (C3_sample_times (H := ascii_strops)
                (clock_at (DateTime 2024 1 15 6 30 0 1)) "Melbourne" eq_refl)
      as (_ & _ & _ & Hlater & _).
    apply Hlater; [reflexivity | reflexivity | simpl; lia].
  - destruct (C3_sample_times (H := ascii_strops)
                (clock_at (DateTime 2024 1 15 23 0 0 0)) "Melbourne" eq_refl)
      as (_ & _ & _ & _ & Hnight).
    apply Hnight; [reflexivity | vm_compute; reflexivity].
Defined.

(** ** Message retries (telegram.py) *)

(** C9 as the claim states it fails: when every attempt fails the two
    pauses are of 2 and 4 seconds, and no pause of 8 seconds is made. *)
Lemma C9_no_pause_of_8 :
  let fails : result Z := Raise (TelegramError "timed out") in
  let r := send_message (H := quiet) "hi" 7
             (initial_state (H := quiet) [fails; fails; fails]) in
  r.1 = Ok None ∧
  trace r.2 = [EvBotSend 7 "hi"; EvSleep 2; EvBotSend 7 "hi"; EvSleep 4; EvBotSend 7 "hi"] ∧
  EvSleep 8 ∉ trace r.2.
Proof.
  vm_compute. split; [done|]. split; [done|].
  intros Hin. repeat (apply elem_of_cons in Hin as [Hin|Hin]; [discriminate Hin|]).
  by apply elem_of_nil in Hin.
Qed.

Section Retries.
Context `{Collaborators}.

Lemma is_telegram_error_inv {A} (r : result A) :
  is_telegram_error r = true → ∃ msg, r = Raise (TelegramError msg).
Proof. destruct r as [|[]]; try done. eauto. Qed.

(** A run of [send_message]: [n] attempts, of which all but the last
    failed with a transport error. *)
Lemma send_message_run (message : string) (chat_id : Z) (s : state) :
  let f := bot_send_message chat_id message in
  ∃ n, (1 ≤ n ≤ 3)%nat ∧
    (∀ k, (k < n - 1)%nat → is_telegram_error (outcome f k (the_world s)) = true) ∧
    (is_telegram_error (outcome f (n - 1) (the_world s)) = true → n = 3%nat) ∧
    send_message message chat_id s =
      (match outcome f (n - 1) (the_world s) with
       | Ok sent_msg => Ok (Some sent_msg)
       | Raise (TelegramError _) => Ok None
       | Raise e => Raise e
       end,
       with_world_trace s (world_after f n (the_world s))
         (trace s ++ retry_events (EvBotSend chat_id message) n)).
Proof.
  intros f.
  destruct (f (the_world s)) as [r1 w1] eqn:E1.
  destruct (is_telegram_error r1) eqn:T1.
  - destruct (f w1) as [r2 w2] eqn:E2.
    destruct (is_telegram_error r2) eqn:T2.
    + destruct (f w2) as [r3 w3] eqn:E3.
      exists 3%nat. split; [lia|]. split; [|split; [done|]].
      { intros k Hk. assert (k = 0 ∨ k = 1)%nat as [-> | ->] by lia;
          unfold outcome; simpl; fold f; rewrite ?E1; simpl; rewrite ?E2; done. }
      apply is_telegram_error_inv in T1 as [m1 ->], T2 as [m2 ->].
      unfold outcome, send_message, with_world_trace; simpl.
      unfold try_except, mbind, M_bind, emit, call, sleep, emit; simpl.
      fold f. rewrite E1; simpl. rewrite E2; simpl. rewrite E3; simpl.
      rewrite <- !app_assoc; simpl.
      by destruct r3 as [|[]].
    + exists 2%nat. split; [lia|]. split; [|split].
      { intros k Hk. assert (k = 0)%nat as -> by lia.
        unfold outcome; simpl; fold f; by rewrite E1. }
      { unfold outcome; simpl; fold f. rewrite E1; simpl. rewrite E2; simpl. congruence. }
      apply is_telegram_error_inv in T1 as [m1 ->].
      unfold outcome, send_message, with_world_trace; simpl.
      unfold try_except, mbind, M_bind, emit, call, sleep, emit; simpl.
      fold f. rewrite E1; simpl. rewrite E2; simpl.
      rewrite <- !app_assoc; simpl.
      by destruct r2 as [|[]].
  - exists 1%nat. split; [lia|]. split; [intros; lia|]. split.
    { unfold outcome; simpl; fold f. rewrite E1; simpl. congruence. }
    unfold outcome, send_message, with_world_trace; simpl.
    unfold try_except, mbind, M_bind, emit, call, sleep, emit; simpl.
    fold f. rewrite E1; simpl.
    by destruct r1 as [|[]].
Qed.

Lemma edit_message_run (chat_id message_id : Z) (new_text : string) (s : state) :
  let f := bot_edit_message_text chat_id message_id new_text in
  ∃ n, (1 ≤ n ≤ 3)%nat ∧
    (∀ k, (k < n - 1)%nat → is_telegram_error (outcome f k (the_world s)) = true) ∧
    (is_telegram_error (outcome f (n - 1) (the_world s)) = true → n = 3%nat) ∧
    edit_message chat_id message_id new_text s =
      (match outcome f (n - 1) (the_world s) with
       | Ok _ => Ok true
       | Raise (TelegramError _) => Ok false
       | Raise e => Raise e
       end,
       with_world_trace s (world_after f n (the_world s))
         (trace s ++ retry_events (EvBotEdit chat_id message_id new_text) n)).
Proof.
  intros f.
  destruct (f (the_world s)) as [r1 w1] eqn:E1.
  destruct (is_telegram_error r1) eqn:T1.
  - destruct (f w1) as [r2 w2] eqn:E2.
    destruct (is_telegram_error r2) eqn:T2.
    + destruct (f w2) as [r3 w3] eqn:E3.
      exists 3%nat. split; [lia|]. split; [|split; [done|]].
      { intros k Hk. assert (k = 0 ∨ k = 1)%nat as [-> | ->] by lia;
          unfold outcome; simpl; fold f; rewrite ?E1; simpl; rewrite ?E2; done. }
      apply is_telegram_error_inv in T1 as [m1 ->], T2 as [m2 ->].
      unfold outcome, edit_message, with_world_trace; simpl.
      unfold try_except, mbind, M_bind, emit, call, sleep, emit; simpl.
      fold f. rewrite E1; simpl. rewrite E2; simpl. rewrite E3; simpl.
      rewrite <- !app_assoc; simpl.
      by destruct r3 as [|[]].
    + exists 2%nat. split; [lia|]. split; [|split].
      { intros k Hk. assert (k = 0)%nat as -> by lia.
        unfold outcome; simpl; fold f; by rewrite E1. }
      { unfold outcome; simpl; fold f. rewrite E1; simpl. rewrite E2; simpl. congruence. }
      apply is_telegram_error_inv in T1 as [m1 ->].
      unfold outcome, edit_message, with_world_trace; simpl.
      unfold try_except, mbind, M_bind, emit, call, sleep, emit; simpl.
      fold f. rewrite E1; simpl. rewrite E2; simpl.
      rewrite <- !app_assoc; simpl.
      by destruct r2 as [|[]].
  - exists 1%nat. split; [lia|]. split; [intros; lia|]. split.
    { unfold outcome; simpl; fold f. rewrite E1; simpl. congruence. }
    unfold outcome, edit_message, with_world_trace; simpl.
    unfold try_except, mbind, M_bind, emit, call, sleep, emit; simpl.
    fold f. rewrite E1; simpl.
    by destruct r1 as [|[]].
Qed.

(** C9, amended: [send_message] and [edit_message] make between one and
    three attempts, pausing 2 seconds after the first failed attempt and
    4 seconds after the second and not at all after the third.  Every
    attempt but the last failed with a transport error.  A last attempt
    that succeeds gives the message handle (or [True]); a third attempt
    that fails with a transport error gives [None] (or [False]); the
    transport error is never raised to the caller. *)
Theorem C9_retries (message : string) (chat_id message_id : Z) (s : state) :
  (let f := bot_send_message chat_id message in
   ∃ n, (1 ≤ n ≤ 3)%nat ∧
     (∀ k, (k < n - 1)%nat → is_telegram_error (outcome f k (the_world s)) = true) ∧
     (is_telegram_error (outcome f (n - 1) (the_world s)) = true → n = 3%nat) ∧
     send_message message chat_id s =
       (match outcome f (n - 1) (the_world s) with
        | Ok sent_msg => Ok (Some sent_msg)
        | Raise (TelegramError _) => Ok None
        | Raise e => Raise e
        end,
        with_world_trace s (world_after f n (the_world s))
          (trace s ++ retry_events (EvBotSend chat_id message) n))) ∧
  (let f := bot_edit_message_text chat_id message_id message in
   ∃ n, (1 ≤ n ≤ 3)%nat ∧
     (∀ k, (k < n - 1)%nat → is_telegram_error (outcome f k (the_world s)) = true) ∧
     (is_telegram_error (outcome f (n - 1) (the_world s)) = true → n = 3%nat) ∧
     edit_message chat_id message_id message s =
       (match outcome f (n - 1) (the_world s) with
        | Ok _ => Ok true
        | Raise (TelegramError _) => Ok false
        | Raise e => Raise e
        end,
        with_world_trace s (world_after f n (the_world s))
          (trace s ++ retry_events (EvBotEdit chat_id message_id message) n))).
Proof.
  split; [apply send_message_run | apply edit_message_run].
Qed.

End Retries.

(** ** Runs of the monad *)

Section Runs.
Context `{Collaborators}.

Lemma run_bind {A B} (m : M A) (k : A → M B) (s : state) :
  (m ≫= k) s =
    match m s with
    | (Ok a, s') => k a s'
    | (Raise e, s') => (Raise e, s')
    end.
Proof. reflexivity. Qed.

Lemma run_bind_ok {A B} (m : M A) (k : A → M B) (s s' : state) (a : A) :
  m s = (Ok a, s') → (m ≫= k) s = k a s'.
Proof. intros Hm. by rewrite run_bind, Hm. Qed.

Lemma run_bind_raise {A B} (m : M A) (k : A → M B) (s s' : state) (e : exn) :
  m s = (Raise e, s') → (m ≫= k) s = (Raise e, s').
Proof. intros Hm. by rewrite run_bind, Hm. Qed.

Lemma with_world_trace_id (s : state) : with_world_trace s (the_world s) (trace s) = s.
Proof. by destruct s. Qed.

Variable R : relation state.
Context `{!Stable R}.

Lemma preserves_apply {A} (m : M A) (s : state) : preserves R m → R s (m s).2.
Proof. intros Hm. apply Hm. Qed.

Lemma preserves_ret {A} (a : A) : preserves R (mret a).
Proof. intros s. simpl. reflexivity. Qed.

Lemma preserves_raise {A} (e : exn) : preserves R (raise (A := A) e).
Proof. intros s. simpl. reflexivity. Qed.

Lemma preserves_lift {A} (r : result A) : preserves R (lift r).
Proof. intros s. simpl. reflexivity. Qed.

Lemma preserves_get_state : preserves R get_state.
Proof. intros s. simpl. reflexivity. Qed.

Lemma preserves_emit (e : event) : preserves R (emit e).
Proof.
  intros s. apply (stable_world_trace s (the_world s)). by apply prefix_app_r.
Qed.

Lemma preserves_call {A} (f : world → result A * world) : preserves R (call f).
Proof.
  intros s. unfold call. destruct (f (the_world s)) as [r w]. simpl.
  by apply (stable_world_trace s w).
Qed.

Lemma preserves_bind {A B} (m : M A) (k : A → M B) :
  preserves R m → (∀ a, preserves R (k a)) → preserves R (m ≫= k).
Proof.
  intros Hm Hk s. rewrite run_bind. specialize (Hm s).
  destruct (m s) as [[a|e] s']; simpl in *; [|done].
  etrans; [exact Hm|apply Hk].
Qed.

Lemma preserves_try_except {A} (m : M A) (h : exn → M A) :
  preserves R m → (∀ e, preserves R (h e)) → preserves R (try_except m h).
Proof.
  intros Hm Hh s. unfold try_except. specialize (Hm s).
  destruct (m s) as [[a|e] s']; simpl in *; [done|].
  etrans; [exact Hm|apply Hh].
Qed.

Lemma preserves_try_finally {A} (m : M A) (f : M unit) :
  preserves R m → preserves R f → preserves R (try_finally m f).
Proof.
  intros Hm Hf s. unfold try_finally. specialize (Hm s).
  destruct (m s) as [r s']. specialize (Hf s').
  destruct (f s') as [[[]|e] s'']; simpl in *; by etrans.
Qed.

Lemma preserves_for_each {A} (l : list A) (body : A → M unit) :
  (∀ x, preserves R (body x)) → preserves R (for_each l body).
Proof.
  intros Hb. induction l as [|x l IH]; simpl.
  - apply preserves_ret.
  - apply preserves_bind; [apply Hb|done].
Qed.

Lemma preserves_for_fold {A B} (l : list A) (acc : B) (body : B → A → M B) :
  (∀ acc x, preserves R (body acc x)) → preserves R (for_fold l acc body).
Proof.
  intros Hb. revert acc. induction l as [|x l IH]; intros acc; simpl.
  - apply preserves_ret.
  - apply preserves_bind; [apply Hb|done].
Qed.

Lemma preserves_gather {A} (tasks : list (M A)) :
  Forall (preserves R) tasks → preserves R (gather tasks).
Proof.
  induction 1 as [|task tasks Ht _ IH]; intros s; simpl; [reflexivity|].
  specialize (Ht s). destruct (task s) as [[a|e] s1]; simpl in *.
  - specialize (IH s1). destruct (gather tasks s1) as [[l|e] s2]; simpl in *; by etrans.
  - etrans; [exact Ht|apply IH].
Qed.

End Runs.

(** Splits a goal [preserves R m] along the structure of [m]. *)
Ltac stable_instance :=
  try match goal with |- Stable _ => typeclasses eauto end.

Ltac preserves_step :=
  first
    [ apply preserves_ret; stable_instance
    | apply preserves_raise; stable_instance
    | apply preserves_lift; stable_instance
    | apply preserves_get_state; stable_instance
    | apply preserves_emit; stable_instance
    | apply preserves_call; stable_instance
    | apply preserves_bind; stable_instance; [|intros ?]
    | apply preserves_try_except; stable_instance; [|intros ?]
    | apply preserves_try_finally; stable_instance
    | apply preserves_for_each; stable_instance; intros ?
    | apply preserves_for_fold; stable_instance; intros ? ?
    | match goal with
      | |- preserves _ (match ?x with _ => _ end) => destruct x
      | |- preserves _ (let '(_, _) := ?x in _) => destruct x
      end ].

Ltac preserves_tac := repeat preserves_step.

(** Runs the plain steps of a computation. *)
Ltac run_monad :=
  cbv [mbind M_bind mret M_ret lift get_state raise set_LOCATION_STATUS
       set_LOCATION_USERS set_seen_listings set_first_run];
  cbn [fst snd LOCATION_STATUS LOCATION_USERS seen_listings first_run the_world trace].

Section RunsOfTelegram.
Context `{Collaborators}.
Variable R : relation state.
Context `{!Stable R}.

Lemma preserves_send_message (message : string) (chat_id : Z) :
  preserves R (send_message message chat_id).
Proof. unfold send_message, send_message_from, sleep. preserves_tac. Qed.

Lemma preserves_edit_message (chat_id message_id : Z) (new_text : string) :
  preserves R (edit_message chat_id message_id new_text).
Proof. unfold edit_message, edit_message_from, sleep. preserves_tac. Qed.

End RunsOfTelegram.

(** ** The subscriber loop: exclusion and mode filters *)




Section SubscriberLoop.
Context `{StrOps} `{Collaborators}.


Lemma first_unmet_mode_filter (m : modes_t) (r : classification) :
  first_unmet m r = mode_filter m r.
Proof.
  unfold first_unmet, mode_filter, modes_in_order; simpl.
  by destruct (mode_only_preferred m), (near_good_deals m), (good_deals m),
    (preferred r), (is_good_deal r), (near_good_deal r).
Qed.

Lemma mode_filter_None (m : modes_t) (r : classification) :
  mode_filter m r = None ↔ mode_conditions m r.
Proof.
  unfold mode_filter, mode_conditions.
  destruct (mode_only_preferred m), (near_good_deals m), (good_deals m),
    (preferred r), (is_good_deal r), (near_good_deal r); simpl;
    intuition congruence.
Qed.

Lemma mode_filter_order (m : modes_t) (r : classification) :
  (mode_filter m r = Some NotPreferred ↔
     mode_only_preferred m = true ∧ preferred r = false) ∧
  (mode_filter m r = Some NotNearGoodDeal ↔
     (mode_only_preferred m = true → preferred r = true) ∧
     near_good_deals m = true ∧ is_good_deal r = false ∧ near_good_deal r = false) ∧
  (mode_filter m r = Some NotGoodDeal ↔
     (mode_only_preferred m = true → preferred r = true) ∧
     (near_good_deals m = true → is_good_deal r = true ∨ near_good_deal r = true) ∧
     good_deals m = true ∧ is_good_deal r = false) ∧
  mode_filter m r ≠ Some ExcludedWord.
Proof.
  unfold mode_filter.
  destruct (mode_only_preferred m), (near_good_deals m), (good_deals m),
    (preferred r), (is_good_deal r), (near_good_deal r); simpl;
    intuition congruence.
Qed.

(** What the subscriber loop does with a subscriber whose excluded words
    are not in the title, once the classifier has answered [r]. *)
Lemma notify_subscriber_classified (title price link : string)
    (partial_sent_map : sent_map) (user : subscriber) (s : state)
    (r : classification) (w : world) :
  existsb (λ word, is_substring (lower word) (lower title)) (sub_excluded_words user) = false →
  product_checker (sub_chat_id user) title price (the_world s) = (Ok r, w) →
  let chat_id := sub_chat_id user in
  let s1 := with_world_trace s w (trace s ++ [EvClassify chat_id title price]) in
  match mode_filter (sub_modes user) r with
  | Some why =>
    notify_subscriber title price link partial_sent_map user s =
      (Ok partial_sent_map,
       with_world_trace s w (trace s ++ [EvClassify chat_id title price; EvSkip chat_id why]))
  | None =>
    ∃ sent_map' n,
      (1 ≤ n ≤ 3)%nat ∧
      notify_subscriber title price link partial_sent_map user s =
        (Ok sent_map',
         with_world_trace s
           (world_after (bot_send_message chat_id (partial_text r price link)) n w)
           (trace s1 ++ retry_events (EvBotSend chat_id (partial_text r price link)) n))
  end.
Proof.
  intros Hex Hpc chat_id s1. unfold notify_subscriber. rewrite Hex.
  fold chat_id.
  assert ((emit (EvClassify chat_id title price) ;;
           call (product_checker chat_id title price)) s = (Ok r, s1)) as Hcls.
  { unfold mbind, M_bind, emit, call; simpl. unfold chat_id. by rewrite Hpc. }
  rewrite (run_bind_ok _ _ _ _ _ Hcls).
  destruct (mode_filter (sub_modes user) r) as [why|].
  - unfold mbind, M_bind, emit, mret, M_ret, s1, with_world_trace; simpl.
    by rewrite <- app_assoc.
  - unfold try_except. rewrite run_bind.
    destruct (send_message_run (partial_text r price link) chat_id s1)
      as (n & Hn & _ & _ & ->).
    change (the_world s1) with w.
    destruct (outcome _ _ w) as [sent_msg|[]]; simpl; eauto.
Qed.

(** C6: the three mode tests are made in the order mode_only_preferred,
    near_good_deals, good_deals; they all pass exactly when each mode
    that is on finds its condition met (preferred; a good or a near good
    deal; a good deal).  A subscriber for whom a test fails is skipped
    with the log line of the first test that failed and nothing is sent;
    a subscriber for whom all pass is sent the provisional message. *)
Theorem C6_mode_filters (title price link : string)
    (partial_sent_map : sent_map) (user : subscriber) (s : state)
    (r : classification) (w : world) :
  existsb (λ word, is_substring (lower word) (lower title)) (sub_excluded_words user) = false →
  product_checker (sub_chat_id user) title price (the_world s) = (Ok r, w) →
  let chat_id := sub_chat_id user in
  let run := notify_subscriber title price link partial_sent_map user s in
  let classified := trace s ++ [EvClassify chat_id title price] in
  (mode_conditions (sub_modes user) r →
   ∃ rest, trace run.2 =
           classified ++ EvBotSend chat_id (partial_text r price link) :: rest) ∧
  (¬ mode_conditions (sub_modes user) r →
   ∃ why, first_unmet (sub_modes user) r = Some why ∧
          run = (Ok partial_sent_map,
                 with_world_trace s w (classified ++ [EvSkip chat_id why]))).
Proof.
  intros Hex Hpc chat_id run classified.
  pose proof (notify_subscriber_classified title price link partial_sent_map
                user s r w Hex Hpc) as Hrun.
  simpl in Hrun. fold chat_id in Hrun. fold run in Hrun.
  split.
  - intros Hc. apply mode_filter_None in Hc. rewrite Hc in Hrun.
    destruct Hrun as (m' & n & Hn & ->). simpl.
    destruct n as [|[|[|n]]]; try lia; simpl; eauto.
  - intros Hc. destruct (mode_filter (sub_modes user) r) as [why|] eqn:Hf.
    + exists why. split.
      * rewrite <- Hf. apply first_unmet_mode_filter.
      * rewrite Hrun. unfold classified. by rewrite <- app_assoc.
    + by apply mode_filter_None in Hf.
Qed.

End SubscriberLoop.

(** ** The listing loop: first run and seen links *)

Section ListingLoop.
Context `{StrOps} `{Collaborators}.

#[local] Instance grows_stable (pair : pair_t) : Stable (grows pair).
Proof.
  split.
  - split.
    + intros s. by split.
    + intros s1 s2 s3 [Ha Hb] [Hc Hd]. split; [set_solver|auto].
  - intros s w t _. by split.
Qed.

Lemma preserves_set_seen_listings (pair : pair_t) (x : gset string) (s : state) :
  seen_listings s ⊆ x → grows pair s (set_seen_listings x s).2.
Proof. intros Hx. by split. Qed.

Lemma preserves_notify_subscriber (R : relation state) `{!Stable R}
    (title price link : string) (m : sent_map) (user : subscriber) :
  preserves R (notify_subscriber title price link m user).
Proof.
  unfold notify_subscriber. preserves_tac;
    try (apply preserves_send_message; typeclasses eauto).
Qed.

Lemma preserves_enrich (R : relation state) `{!Stable R}
    (price link : string) (m : sent_map) :
  preserves R (enrich price link m).
Proof.
  unfold enrich. preserves_tac;
    try (apply preserves_edit_message; typeclasses eauto).
Qed.

Lemma process_listing_malformed (pair : pair_t) (user_data : gmap pair_t (list subscriber))
    (l : listing) (s : state) :
  listing_link l = None → process_listing pair user_data l s = (Ok (), s).
Proof.
  unfold listing_link, process_listing.
  destruct (link_element l) as [[link|]|], (price_element l), (title_element l); try done.
  by destruct link.
Qed.

(** The listing loop on a well-formed record, by cases on the flag. *)
Lemma process_listing_well_formed (pair : pair_t)
    (user_data : gmap pair_t (list subscriber)) (l : listing) (link : string) (s : state) :
  listing_link l = Some link →
  process_listing pair user_data l s =
    match first_run s !! pair with
    | None => (Raise (KeyError "first_run"), s)
    | Some true => set_seen_listings (seen_listings s ∪ {[link]}) s
    | Some false =>
      if bool_decide (link ∈ seen_listings s) then (Ok (), s)
      else
        (set_seen_listings (seen_listings s ∪ {[link]}) ;;
         partial_sent_map ←
           for_fold (default [] (user_data !! pair)) []
             (notify_subscriber (default "" (title_element l))
                (default "" (price_element l)) link);
         match partial_sent_map with
         | [] => mret ()
         | _ :: _ => enrich (default "" (price_element l)) link partial_sent_map
         end) s
    end.
Proof.
  unfold listing_link, process_listing.
  destruct (link_element l) as [[link'|]|], (price_element l) as [price|],
    (title_element l) as [title|]; try done.
  destruct link' as [|c link']; [done|]. simpl. intros [= <-].
  rewrite run_bind. simpl.
  destruct (first_run s !! pair) as [[]|]; try done.
  by destruct (bool_decide _).
Qed.

Lemma preserves_process_listing (pair : pair_t)
    (user_data : gmap pair_t (list subscriber)) (l : listing) :
  preserves (grows pair) (process_listing pair user_data l).
Proof.
  intros s. destruct (listing_link l) as [link|] eqn:Hl.
  - rewrite (process_listing_well_formed _ _ _ _ _ Hl).
    destruct (first_run s !! pair) as [[]|]; [| |reflexivity].
    + apply preserves_set_seen_listings. set_solver.
    + destruct (bool_decide _); [reflexivity|].
      rewrite run_bind. simpl.
      etrans; [apply (preserves_set_seen_listings pair (seen_listings s ∪ {[link]}) s);
               set_solver|].
      apply (preserves_apply (grows pair)). preserves_tac;
        (apply preserves_notify_subscriber || apply preserves_enrich); typeclasses eauto.
  - rewrite process_listing_malformed by done. reflexivity.
Qed.

(** A record whose link is in the set leaves the state as it is. *)
Lemma process_listing_seen (pair : pair_t) (user_data : gmap pair_t (list subscriber))
    (l : listing) (link : string) (s : state) :
  listing_link l = Some link →
  link ∈ seen_listings s →
  is_Some (first_run s !! pair) →
  process_listing pair user_data l s = (Ok (), s).
Proof.
  intros Hl Hin [b Hb]. rewrite (process_listing_well_formed _ _ _ _ _ Hl), Hb.
  destruct b.
  - unfold set_seen_listings. f_equal.
    assert (seen_listings s ∪ {[link]} = seen_listings s) as ->.
    { rewrite (comm_L (∪)). by apply subseteq_union_1_L, singleton_subseteq_l. }
    by destruct s.
  - by rewrite bool_decide_eq_true_2.
Qed.

Lemma for_each_without_link (pair : pair_t) (user_data : gmap pair_t (list subscriber))
    (link : string) (listings : list listing) (s : state) :
  link ∈ seen_listings s →
  is_Some (first_run s !! pair) →
  for_each listings (process_listing pair user_data) s =
  for_each (filter (λ l, listing_link l ≠ Some link) listings)
    (process_listing pair user_data) s.
Proof.
  revert s. induction listings as [|l listings IH]; intros s Hin Hfr; [done|].
  destruct (decide (listing_link l = Some link)) as [Hl|Hl].
  - rewrite filter_cons_False by naive_solver.
    simpl. rewrite run_bind, (process_listing_seen _ _ _ _ _ Hl Hin Hfr).
    by apply IH.
  - rewrite filter_cons_True by done.
    simpl. rewrite !run_bind.
    pose proof (preserves_process_listing pair user_data l s) as [Hs Hf].
    destruct (process_listing pair user_data l s) as [[[]|e] s1]; [|done].
    simpl in *. apply IH; [set_solver|auto].
Qed.

Lemma preserves_poll_listings (pair : pair_t)
    (user_data : gmap pair_t (list subscriber)) (listings : list listing) :
  preserves (grows pair) (poll_listings pair user_data listings).
Proof.
  unfold poll_listings. preserves_tac.
  - apply preserves_process_listing.
  - intros s. split; [done|].
    intros _. simpl. rewrite lookup_insert_eq. eauto.
Qed.

(** C4: a record whose link is in the set of seen links when the loop
    comes to it changes nothing: no classification, no message, no
    event, the same state.  So whatever pages the later polls of the
    work item fetch, and however often the link is on them, the run is
    the run on the pages without the records of that link. *)
Theorem C4_seen_link_is_never_notified (pair : pair_t)
    (user_data : gmap pair_t (list subscriber)) (link : string) (s : state) :
  link ∈ seen_listings s →
  is_Some (first_run s !! pair) →
  (∀ l, listing_link l = Some link → process_listing pair user_data l s = (Ok (), s)) ∧
  (∀ pages, polls pair user_data pages s =
            polls pair user_data (without_link link pages) s).
Proof.
  intros Hin Hfr. split.
  - intros l Hl. by apply process_listing_seen with link.
  - intros pages. revert s Hin Hfr.
    induction pages as [|listings pages IH]; intros s Hin Hfr; [done|].
    unfold polls, without_link in *. simpl. rewrite !run_bind.
    assert (poll_listings pair user_data listings s =
            poll_listings pair user_data
              (filter (λ l, listing_link l ≠ Some link) listings) s) as Heq.
    { unfold poll_listings. rewrite !run_bind.
      by rewrite (for_each_without_link _ _ link) by done. }
    pose proof (preserves_poll_listings pair user_data listings s) as [Hs Hf].
    unfold try_except at 1 3. rewrite <- Heq.
    destruct (poll_listings pair user_data listings s) as [[[]|e] s1]; simpl in *.
    + apply IH; [set_solver|auto].
    + apply IH; [set_solver|auto].
Qed.

(** A first-run poll, as one equation. *)
Lemma first_run_for_each (pair : pair_t) (user_data : gmap pair_t (list subscriber))
    (listings : list listing) (s : state) :
  first_run s !! pair = Some true →
  for_each listings (process_listing pair user_data) s =
    (Ok (),
     State (LOCATION_STATUS s) (LOCATION_USERS s)
           (seen_listings s ∪ list_to_set (omap listing_link listings))
           (first_run s) (the_world s) (trace s)).
Proof.
  revert s. induction listings as [|l listings IH]; intros s Hfr.
  - simpl. destruct s; simpl. by rewrite (right_id_L ∅ (∪)).
  - simpl. rewrite run_bind.
    destruct (listing_link l) as [link|] eqn:Hl.
    + rewrite (process_listing_well_formed _ _ _ _ _ Hl), Hfr. simpl.
      rewrite IH by done. simpl. by rewrite (assoc_L (∪)).
    + rewrite process_listing_malformed by done. by apply IH.
Qed.

(** C5: while the first-run flag of the work item is set, the poll adds
    the link of every well-formed record to the set of seen links and
    does nothing else: it returns, the trace is as it was (no
    classification, no message) and so is the world. *)
Theorem C5_first_run_seeds_without_notifying (pair : pair_t)
    (user_data : gmap pair_t (list subscriber)) (listings : list listing) (s : state) :
  first_run s !! pair = Some true →
  let run := for_each listings (process_listing pair user_data) s in
  run.1 = Ok () ∧
  trace run.2 = trace s ∧
  the_world run.2 = the_world s ∧
  (∀ l link, l ∈ listings → listing_link l = Some link → link ∈ seen_listings run.2) ∧
  (∀ link, link ∈ seen_listings run.2 ↔
           link ∈ seen_listings s ∨ ∃ l, l ∈ listings ∧ listing_link l = Some link).
Proof.
  intros Hfr run. unfold run. rewrite first_run_for_each by done. simpl.
  assert (∀ link, link ∈ seen_listings s ∪ list_to_set (omap listing_link listings) ↔
                  link ∈ seen_listings s ∨ ∃ l, l ∈ listings ∧ listing_link l = Some link)
    as Hseen.
  { intros link. rewrite elem_of_union, elem_of_list_to_set, list_elem_of_omap. done. }
  repeat split; try done.
  - intros l link Hl Hlink. apply Hseen. eauto.
  - apply Hseen.
  - apply Hseen.
Qed.

End ListingLoop.

(** ** The subscription compiler *)

Section Compiler.
Context `{StrOps} `{Collaborators}.

#[local] Instance index_grows_stable : Stable index_grows.
Proof.
  split.
  - split; [by intros s ?? | intros s1 s2 s3 Ha Hb ???; by apply Hb, Ha].
  - by intros s w t _ ??.
Qed.

#[local] Instance trace_grows_stable : Stable trace_grows.
Proof.
  split.
  - split; [intros s; by unfold trace_grows|].
    intros s1 s2 s3 Ha Hb. unfold trace_grows in *. by etrans.
  - intros s w t Ht. exact Ht.
Qed.

Lemma subscribers_of_app (p : pair_t) (cs cs' : list (pair_t * subscriber)) :
  subscribers_of p (cs ++ cs') = subscribers_of p cs ++ subscribers_of p cs'.
Proof. unfold subscribers_of. by rewrite filter_app, fmap_app. Qed.

Lemma subscribers_of_singleton (p pair : pair_t) (entry : subscriber) :
  subscribers_of p [(pair, entry)] = if decide (pair = p) then [entry] else [].
Proof.
  unfold subscribers_of. destruct (decide (pair = p)) as [->|Hne].
  - by rewrite filter_cons_True.
  - by rewrite filter_cons_False.
Qed.

(** Appending an entry to [user_pair_map[pair]] keeps the dictionary in
    step with the list of contributions. *)
Lemma expected_entry_snoc (m : gmap pair_t (list subscriber))
    (cs : list (pair_t * subscriber)) (pair : pair_t) (entry : subscriber) :
  (∀ p, m !! p = expected_entry p cs) →
  ∀ p, <[pair := default [] (m !! pair) ++ [entry]]> m !! p =
       expected_entry p (cs ++ [(pair, entry)]).
Proof.
  intros Hm p. unfold expected_entry at 1.
  rewrite subscribers_of_app, subscribers_of_singleton.
  destruct (decide (pair = p)) as [->|Hne].
  - rewrite lookup_insert_eq, Hm. unfold expected_entry.
    by destruct (subscribers_of p cs).
  - rewrite lookup_insert_ne, Hm by done. by rewrite app_nil_r.
Qed.

Lemma is_monitoring_active_at_key (clk : clock) (location : string) r :
  is_monitoring_active clk location = Ok r → r.1.1 = active_at_key clk (lower location).
Proof. apply is_monitoring_active_active. Qed.

Lemma get_monitoring_schedule_at_key (clk : clock) (location : string) sched :
  get_monitoring_schedule clk location = Ok sched →
  is_active sched = active_at_key clk (lower location).
Proof. apply get_monitoring_schedule_active. Qed.

Lemma key_current_insert (clk : clock) (ls : gmap string schedule) (key key' : string)
    (sched : schedule) :
  is_active sched = active_at_key clk key →
  key' = key ∨ key_current clk ls key' →
  key_current clk (<[key := sched]> ls) key'.
Proof.
  intros Hs Hk. unfold key_current. destruct (decide (key = key')) as [<-|Hne].
  - exists sched. by rewrite lookup_insert_eq.
  - rewrite lookup_insert_ne by done. by destruct Hk as [->|Hk].
Qed.

Lemma status_differs_current (clk : clock) (s : state) (key : string) :
  key_current clk (LOCATION_STATUS s) key →
  status_differs s key (active_at_key clk key) = Some false.
Proof.
  intros (st & Hst & Hact). unfold status_differs. rewrite Hst. simpl.
  by rewrite Hact, Bool.eqb_reflx.
Qed.

(** One keyword of a user, when the schedule engine answers. *)
Lemma gen_keyword_ok (clk : clock) (u : user) (acc : gen_acc) (keyword : string)
    (cs : list (pair_t * subscriber)) (s : state) :
  is_ok (is_monitoring_active clk (location u)) = true →
  compiled clk cs acc (LOCATION_STATUS s) →
  ∃ acc' s',
    gen_keyword clk u acc keyword s = (Ok acc', s') ∧
    compiled clk (cs ++ [((keyword, location u), entry_of u)]) acc' (LOCATION_STATUS s').
Proof.
  intros Hok (Hpairs & Hmap & Hdom & Hcur). unfold gen_keyword.
  destruct (is_monitoring_active clk (location u)) as [[[active reason] next]|] eqn:Hm;
    [|done].
  pose proof (is_monitoring_active_at_key _ _ _ Hm) as Hactive. simpl in Hactive.
  pose proof (get_monitoring_schedule_ok clk (location u)) as Hs.
  rewrite Hm in Hs. simpl in Hs.
  destruct (get_monitoring_schedule clk (location u)) as [sched|] eqn:Hsched; [|done].
  pose proof (get_monitoring_schedule_at_key _ _ _ Hsched) as Hsa.
  run_monad.
  set (pair := (keyword, location u)).
  assert (∀ ls, (∀ p, p ∈ pairs acc ∪ {[pair]} → key_current clk ls (lower p.2)) →
            compiled clk (cs ++ [(pair, entry_of u)])
              (GenAcc (pairs acc ∪ {[pair]})
                 (<[pair := default [] (user_pair_map acc !! pair) ++ [entry_of u]]>
                    (user_pair_map acc))
                 (if active then active_pairs acc ∪ {[pair]} else active_pairs acc)) ls)
    as Hnew.
  { intros ls Hls. repeat split; simpl.
    - intros p [Hp| ->%elem_of_singleton]%elem_of_union; [by apply Hpairs|].
      simpl. by rewrite Hm.
    - by apply expected_entry_snoc.
    - intros p Hp. apply elem_of_union. destruct (decide (pair = p)) as [<-|Hne].
      + right. by apply elem_of_singleton.
      + left. apply Hdom. by rewrite lookup_insert_ne in Hp.
    - done. }
  destruct (status_differs s (lower (location u)) active) as [[]|] eqn:Hd; simpl.
  - eexists _, _. split; [done|]. apply Hnew. simpl.
    intros p [Hp| ->%elem_of_singleton]%elem_of_union.
    + apply key_current_insert; [done|]. right. by apply Hcur.
    + apply key_current_insert; [done|]. by left.
  - eexists _, _. split; [done|]. apply Hnew.
    intros p [Hp| ->%elem_of_singleton]%elem_of_union; [by apply Hcur|].
    unfold status_differs in Hd.
    destruct (LOCATION_STATUS s !! lower (location u)) as [st|] eqn:Hst; [|done].
    simpl in Hd. injection Hd as Hd. apply negb_false_iff, Bool.eqb_prop in Hd.
    exists st. split; [done|]. unfold pair. simpl. congruence.
  - eexists _, _. split; [done|]. apply Hnew. simpl.
    intros p [Hp| ->%elem_of_singleton]%elem_of_union.
    + apply key_current_insert; [done|]. right. by apply Hcur.
    + apply key_current_insert; [done|]. by left.
Qed.

Lemma gen_keywords_ok (clk : clock) (u : user) (ks : list string) (acc : gen_acc)
    (cs : list (pair_t * subscriber)) (s : state) :
  is_ok (is_monitoring_active clk (location u)) = true →
  compiled clk cs acc (LOCATION_STATUS s) →
  ∃ acc' s',
    for_fold ks acc (gen_keyword clk u) s = (Ok acc', s') ∧
    compiled clk (cs ++ map (λ keyword, ((keyword, location u), entry_of u)) ks) acc'
      (LOCATION_STATUS s').
Proof.
  intros Hok. revert acc cs s. induction ks as [|k ks IH]; intros acc cs s Hacc.
  - exists acc, s. simpl. by rewrite app_nil_r.
  - destruct (gen_keyword_ok clk u acc k cs s Hok Hacc) as (acc1 & s1 & Hrun & Hacc1).
    destruct (IH acc1 (cs ++ [((k, location u), entry_of u)]) s1 Hacc1)
      as (acc' & s' & Hrun' & Hacc').
    exists acc', s'. simpl. rewrite (run_bind_ok _ _ _ _ _ Hrun).
    split; [done|]. by rewrite <- app_assoc in Hacc'.
Qed.

(** One user with a well-formed expiry date. *)
Lemma gen_user_skip (today : date) (clk : clock) (acc : gen_acc) (u : user) (s : state) :
  is_ok (strptime_date (expiry_date u)) = true →
  eligible today u = false →
  gen_user today clk acc u s = (Ok acc, s).
Proof.
  unfold eligible, gen_user. destruct (strptime_date (expiry_date u)) as [d|]; [|done].
  intros _ He. rewrite run_bind. simpl.
  by destruct (activation_status u), (date_lt d today).
Qed.

Lemma gen_user_eligible (today : date) (clk : clock) (acc : gen_acc) (u : user) (s : state) :
  eligible today u = true →
  gen_user today clk acc u s =
    for_fold (keywords u) acc (gen_keyword clk u)
      (State (LOCATION_STATUS s)
             (<[lower (location u) :=
                  default ∅ (LOCATION_USERS s !! lower (location u)) ∪ {[user_id u]}]>
                (LOCATION_USERS s))
             (seen_listings s) (first_run s) (the_world s) (trace s)).
Proof.
  unfold eligible, gen_user. destruct (strptime_date (expiry_date u)) as [d|]; [|done].
  intros He. rewrite run_bind. simpl.
  by destruct (activation_status u), (date_lt d today).
Qed.

Lemma gen_users_ok (today : date) (clk : clock) (users : list user) (acc : gen_acc)
    (cs : list (pair_t * subscriber)) (s : state) :
  Forall (λ u, is_ok (strptime_date (expiry_date u)) = true) users →
  (∀ u, u ∈ users → eligible today u = true →
        is_ok (is_monitoring_active clk (location u)) = true) →
  compiled clk cs acc (LOCATION_STATUS s) →
  ∃ acc' s',
    for_fold users acc (gen_user today clk) s = (Ok acc', s') ∧
    compiled clk (cs ++ contributions today users) acc' (LOCATION_STATUS s').
Proof.
  intros Hwf. revert acc cs s.
  induction Hwf as [|u users Hu _ IH]; intros acc cs s Hclk Hacc.
  - exists acc, s. unfold contributions. simpl. by rewrite app_nil_r.
  - simpl. destruct (eligible today u) eqn:He.
    + destruct (gen_keywords_ok clk u (keywords u) acc cs
                  (State (LOCATION_STATUS s)
                     (<[lower (location u) :=
                          default ∅ (LOCATION_USERS s !! lower (location u)) ∪ {[user_id u]}]>
                        (LOCATION_USERS s))
                     (seen_listings s) (first_run s) (the_world s) (trace s)))
        as (acc1 & s1 & Hrun & Hacc1); [apply Hclk; [left|done]|done|].
      destruct (IH acc1 (cs ++ contribution u) s1) as (acc' & s' & Hrun' & Hacc').
      { intros u' Hin. apply Hclk. by right. }
      { done. }
      exists acc', s'. rewrite run_bind, gen_user_eligible, Hrun by done.
      split; [done|]. unfold contributions.
      rewrite filter_cons_True by done. simpl. by rewrite <- app_assoc in Hacc'.
    + destruct (IH acc cs s) as (acc' & s' & Hrun' & Hacc').
      { intros u' Hin. apply Hclk. by right. }
      { done. }
      exists acc', s'. rewrite run_bind, gen_user_skip by done.
      split; [done|]. unfold contributions.
      rewrite filter_cons_False; [done|]. by rewrite He.
Qed.

(** The lines of the pairs log, when the schedule engine answers at the
    location of every work item. *)
Lemma pairs_log_ok (clk : clock) (ps : list pair_t) (lines : list string) (s : state) :
  (∀ p, p ∈ ps → is_ok (is_monitoring_active clk p.2) = true) →
  ∃ lines',
    for_fold ps lines (λ lines '(keyword, location),
      r ← lift (is_monitoring_active clk location);
      let '(active, reason, _) := (r : bool * string * datetime) in
      let status := if active then "ACTIVE" else "PAUSED" in
      mret (lines ++ [keyword +:+ " - " +:+ location +:+ " [" +:+ status +:+ "] - " +:+
                      reason +:+ nl])) s = (Ok lines', s).
Proof.
  revert lines. induction ps as [|[keyword location] ps IH]; intros lines Hok; simpl.
  - by exists lines.
  - pose proof (Hok (keyword, location) ltac:(left)) as Hp. simpl in Hp.
    destruct (is_monitoring_active clk location) as [[[active reason] next]|]; [|done].
    run_monad.
    edestruct IH as [lines' Hl]; [intros p Hin; apply Hok; by right|].
    exists lines'. exact Hl.
Qed.

Lemma date_lt_spec (a b : date) :
  date_lt a b = true ↔
  d_year a < d_year b ∨
  (d_year a = d_year b ∧
   (d_month a < d_month b ∨ (d_month a = d_month b ∧ d_day a < d_day b))).
Proof.
  unfold date_lt, date_compare.
  destruct (Z.compare_spec (d_year a) (d_year b));
    destruct (Z.compare_spec (d_month a) (d_month b));
    destruct (Z.compare_spec (d_day a) (d_day b)); split; (done || lia).
Qed.

Lemma elem_of_contributions (today : date) (users : list user) (p : pair_t) (e : subscriber) :
  (p, e) ∈ contributions today users ↔
  ∃ u, u ∈ users ∧ eligible today u = true ∧
       p.1 ∈ keywords u ∧ p.2 = location u ∧ e = entry_of u.
Proof.
  unfold contributions. rewrite list_elem_of_In, in_concat. split.
  - intros (l & Hl & Hin). apply in_map_iff in Hl as (u & <- & Hu).
    apply list_elem_of_In, list_elem_of_filter in Hu as [He Hu].
    apply in_map_iff in Hin as (k & [= <- <-] & Hk).
    exists u. repeat split; try done. by apply list_elem_of_In.
  - intros (u & Hu & He & Hk & Hl & ->). exists (contribution u). split.
    + apply in_map_iff. exists u. split; [done|].
      apply list_elem_of_In, list_elem_of_filter. done.
    + apply in_map_iff. exists p.1. split; [|by apply list_elem_of_In].
      rewrite <- Hl. by destruct p.
Qed.

Lemma elem_of_subscribers_of (p : pair_t) (cs : list (pair_t * subscriber)) (e : subscriber) :
  e ∈ subscribers_of p cs ↔ (p, e) ∈ cs.
Proof.
  unfold subscribers_of. rewrite list_elem_of_fmap. split.
  - intros ([p' e'] & -> & [Hp Hin]%list_elem_of_filter). simpl in *. by subst.
  - intros Hin. exists (p, e). split; [done|]. by apply list_elem_of_filter.
Qed.

Lemma elem_of_expected_entry (p : pair_t) (cs : list (pair_t * subscriber)) (e : subscriber) :
  e ∈ default [] (expected_entry p cs) ↔ (p, e) ∈ cs.
Proof.
  rewrite <- elem_of_subscribers_of. unfold expected_entry.
  by destruct (subscribers_of p cs).
Qed.

(** The compiler returns when the expiry dates are well formed and the
    schedule engine answers at the locations of the eligible users. *)
Lemma generate_pairs_and_log_ok (today : date) (clk : clock)
    (users : list user) (s : state) :
  Forall (λ u, is_ok (strptime_date (expiry_date u)) = true) users →
  (∀ u, u ∈ users → eligible today u = true →
        is_ok (is_monitoring_active clk (location u)) = true) →
  ∃ acc s',
    generate_pairs_and_log today clk users s =
      (Ok (active_pairs acc, user_pair_map acc), s') ∧
    compiled clk (contributions today users) acc (LOCATION_STATUS s').
Proof.
  intros Hwf Hclk. unfold generate_pairs_and_log.
  rewrite run_bind. simpl.
  edestruct (gen_users_ok today clk users (GenAcc ∅ ∅ ∅) [])
    as (acc & s1 & Hrun & Hacc); [done|done| |].
  { split; [|split; [|split]]; simpl.
    - intros p Hp. by apply not_elem_of_empty in Hp.
    - done.
    - intros p [? Hp]. by rewrite lookup_empty in Hp.
    - intros p Hp. by apply not_elem_of_empty in Hp. }
  rewrite (run_bind_ok _ _ _ _ _ Hrun).
  edestruct (pairs_log_ok clk (elements (pairs acc)) [] s1) as [lines Hlines].
  { intros p Hp. apply Hacc. by apply elem_of_elements. }
  rewrite (run_bind_ok _ _ _ _ _ Hlines).
  unfold save_monitoring_status. run_monad. unfold emit. simpl.
  eexists _, _. split; [done|]. done.
Qed.

(** C8: with well-formed expiry dates, the compiler returns a map of
    work items made of the entries of the eligible users and of nothing
    else (a user is eligible when the activation flag is set and the
    expiry date, a calendar date, is not before today, also a calendar
    date): each keyword of an eligible user has its work item with the
    entry of the user, and each entry of the map is the entry of an
    eligible user for one of the keywords of that user. *)
Theorem C8_eligible_users_contribute (today : date) (clk : clock)
    (users : list user) (s : state) :
  Forall (λ u, is_ok (strptime_date (expiry_date u)) = true) users →
  (∀ u, u ∈ users → eligible today u = true →
        is_ok (is_monitoring_active clk (location u)) = true) →
  ∃ active_pairs user_pair_map s',
    generate_pairs_and_log today clk users s = (Ok (active_pairs, user_pair_map), s') ∧
    (∀ p, user_pair_map !! p = expected_entry p (contributions today users)) ∧
    (∀ u keyword, u ∈ users → keyword ∈ keywords u →
       (eligible today u = true →
        entry_of u ∈ default [] (user_pair_map !! (keyword, location u)))) ∧
    (∀ p e, e ∈ default [] (user_pair_map !! p) →
       ∃ u, u ∈ users ∧ eligible today u = true ∧
            p.1 ∈ keywords u ∧ p.2 = location u ∧ e = entry_of u).
Proof.
  intros Hwf Hclk.
  destruct (generate_pairs_and_log_ok today clk users s Hwf Hclk)
    as (acc & s' & Hrun & _ & Hm & _).
  eexists _, _, _. split; [exact Hrun|].
  split; [done|]. split.
  - intros u keyword Hu Hk He. rewrite Hm, elem_of_expected_entry.
    apply elem_of_contributions. exists u. done.
  - intros p e. rewrite Hm, elem_of_expected_entry. apply elem_of_contributions.
Qed.

(** The compiler only adds to the index of subscribers. *)
Lemma preserves_gen_keyword (clk : clock) (u : user) (acc : gen_acc) (keyword : string) :
  preserves index_grows (gen_keyword clk u acc keyword).
Proof.
  unfold gen_keyword. preserves_tac. by intros ???.
Qed.

Lemma preserves_gen_user (today : date) (clk : clock) (acc : gen_acc) (u : user) :
  preserves index_grows (gen_user today clk acc u).
Proof.
  intros s. unfold gen_user. rewrite run_bind.
  destruct (strptime_date (expiry_date u)) as [d|]; simpl; [|done].
  destruct (negb (activation_status u) || date_lt d today); simpl; [done|].
  run_monad.
  etrans; [|apply (preserves_apply index_grows); apply preserves_for_fold;
            [typeclasses eauto | intros ??; apply preserves_gen_keyword]].
  intros key chat_id Hin. simpl.
  destruct (decide (lower (location u) = key)) as [<-|Hne].
  - rewrite lookup_insert_eq. simpl. apply elem_of_union. by left.
  - by rewrite lookup_insert_ne.
Qed.

(** An eligible user of the list is in the index of their location once
    the loop over the users is done. *)
Lemma gen_users_index (today : date) (clk : clock) (users : list user) (u : user)
    (acc acc' : gen_acc) (s s' : state) :
  for_fold users acc (gen_user today clk) s = (Ok acc', s') →
  u ∈ users → eligible today u = true →
  user_id u ∈ default ∅ (LOCATION_USERS s' !! lower (location u)).
Proof.
  revert acc s. induction users as [|u0 users IH]; intros acc s Hrun Hin He.
  - by apply elem_of_nil in Hin.
  - simpl in Hrun. rewrite run_bind in Hrun.
    destruct (gen_user today clk acc u0 s) as [[acc1|e] s1] eqn:Hu; [|done].
    apply elem_of_cons in Hin as [->|Hin]; [|by eapply IH].
    assert (user_id u0 ∈ default ∅ (LOCATION_USERS s1 !! lower (location u0))) as Hs1.
    { rewrite gen_user_eligible in Hu by done.
      match type of Hu with
      | for_fold _ _ _ ?s0 = _ =>
        pose proof (preserves_for_fold index_grows (keywords u0) acc (gen_keyword clk u0)
                      (preserves_gen_keyword clk u0) s0) as Hg
      end.
      rewrite Hu in Hg. apply Hg. simpl. rewrite lookup_insert_eq. simpl.
      apply elem_of_union. right. by apply elem_of_singleton. }
    pose proof (preserves_for_fold index_grows users acc1 (gen_user today clk)
                  (preserves_gen_user today clk) s1) as Hg.
    rewrite Hrun in Hg. by apply Hg.
Qed.

Lemma generate_pairs_and_log_index (today : date) (clk : clock) (users : list user)
    (u : user) (s s' : state) (out : gset pair_t * gmap pair_t (list subscriber)) :
  generate_pairs_and_log today clk users s = (Ok out, s') →
  u ∈ users → eligible today u = true →
  user_id u ∈ default ∅ (LOCATION_USERS s' !! lower (location u)).
Proof.
  unfold generate_pairs_and_log. rewrite run_bind. simpl. rewrite run_bind.
  destruct (for_fold users _ _ _) as [[acc|e] s1] eqn:Hfold; [|done].
  intros Hrun Hin He.
  pose proof (gen_users_index _ _ _ _ _ _ _ _ Hfold Hin He) as Hs1.
  match type of Hrun with
  | ?rest s1 = _ =>
    assert (preserves index_grows rest) as Hp
  end.
  { unfold save_monitoring_status. preserves_tac. }
  specialize (Hp s1). rewrite Hrun in Hp. by apply Hp.
Qed.

(** The tasks of a broadcast. *)
Lemma gather_cons_state {A} (task : M A) (tasks : list (M A)) (s : state) :
  (gather (task :: tasks) s).2 = (gather tasks (task s).2).2.
Proof.
  simpl. destruct (task s) as [[a|e] s1]; simpl; [|done].
  by destruct (gather tasks s1) as [[l|e] s2].
Qed.

Lemma send_message_first_event (message : string) (chat_id : Z) (s : state) :
  ∃ rest, trace (send_message message chat_id s).2 =
          trace s ++ EvBotSend chat_id message :: rest.
Proof.
  destruct (send_message_run message chat_id s) as (n & Hn & _ & _ & ->). simpl.
  destruct n as [|[|[|n]]]; try lia; simpl; eauto.
Qed.

Lemma gather_sends_to (message : string) (ids : list Z) (chat_id : Z) (s : state) :
  chat_id ∈ ids →
  ∃ t1 t2,
    trace (gather (map (λ user_id, send_message message user_id) ids) s).2 =
    trace s ++ t1 ++ EvBotSend chat_id message :: t2.
Proof.
  revert s. induction ids as [|id ids IH]; intros s Hin.
  - by apply elem_of_nil in Hin.
  - rewrite map_cons, gather_cons_state.
    apply elem_of_cons in Hin as [<-|Hin].
    + destruct (send_message_first_event message chat_id s) as [rest Hs].
      pose proof (preserves_gather trace_grows
                    (map (λ user_id, send_message message user_id) ids)) as Hg.
      destruct (Hg ltac:(apply Forall_forall; intros t [id' [-> _]]%list_elem_of_fmap;
                         apply preserves_send_message; typeclasses eauto)
                  (send_message message chat_id s).2) as [ext Hext].
      exists [], (rest ++ ext). rewrite Hext, Hs. by rewrite <- app_assoc.
    + destruct (IH (send_message message id s).2 Hin) as (t1 & t2 & Ht).
      destruct (preserves_send_message trace_grows message id s) as [ext Hext].
      exists (ext ++ t1), t2. rewrite Ht, Hext. by rewrite <- !app_assoc.
Qed.

Lemma notify_status_change_sends_to (location : string) (active : bool) (reason : string)
    (next_change_time : option datetime) (chat_id : Z) (s : state) :
  chat_id ∈ default ∅ (LOCATION_USERS s !! location) →
  ∃ t1 t2,
    trace (notify_status_change location active reason next_change_time s).2 =
    trace s ++ t1 ++
    EvBotSend chat_id (status_message location active reason next_change_time) :: t2.
Proof.
  intros Hin. unfold notify_status_change. rewrite run_bind. simpl.
  destruct (LOCATION_USERS s !! location) as [user_ids|]; simpl in Hin;
    [|by apply not_elem_of_empty in Hin].
  destruct (gather_sends_to (status_message location active reason next_change_time)
              (elements user_ids) chat_id s) as (t1 & t2 & Ht);
    [by apply elem_of_elements|].
  rewrite run_bind.
  destruct (gather _ s) as [[l|e] s1]; simpl in *.
  - exists t1, (t2 ++ [EvStatusLog location active reason]).
    rewrite Ht. by rewrite <- !app_assoc.
  - eauto.
Qed.

(** C10: an eligible user without keywords makes no work item (the
    local variables of the compiler are as they were), and yet is put in
    the index of subscribers under the location in lower case; after a
    run of the compiler that returns, the user is still in that index,
    and a status-change broadcast for that location sends its message to
    the user. *)
Theorem C10_no_keywords_still_in_broadcast (today : date) (clk : clock) (u : user) :
  eligible today u = true →
  keywords u = [] →
  let key := lower (location u) in
  (∀ acc s,
     gen_user today clk acc u s =
       (Ok acc,
        State (LOCATION_STATUS s)
              (<[key := default ∅ (LOCATION_USERS s !! key) ∪ {[user_id u]}]>
                 (LOCATION_USERS s))
              (seen_listings s) (first_run s) (the_world s) (trace s))) ∧
  (∀ users s out s',
     u ∈ users →
     generate_pairs_and_log today clk users s = (Ok out, s') →
     user_id u ∈ default ∅ (LOCATION_USERS s' !! key)) ∧
  (∀ s active reason next_change_time,
     user_id u ∈ default ∅ (LOCATION_USERS s !! key) →
     ∃ t1 t2,
       trace (notify_status_change key active reason next_change_time s).2 =
       trace s ++ t1 ++
       EvBotSend (user_id u) (status_message key active reason next_change_time) :: t2).
Proof.
  intros He Hk key. split; [|split].
  - intros acc s. rewrite gen_user_eligible by done. by rewrite Hk.
  - intros users s out s' Hin Hrun.
    by apply (generate_pairs_and_log_index today clk users u s s' out).
  - intros s active reason next_change_time Hin.
    by apply notify_status_change_sends_to.
Qed.

(** ** The status tracker after the compiler *)

(** When the status recorded for the location of every pair is the
    status at the sample, the tracker finds no change: it sends nothing
    and leaves the state as it is. *)
Lemma check_and_update_schedules_silent (clk : clock) (full_pairs : list pair_t) (s : state) :
  (∀ p, p ∈ full_pairs →
        is_ok (is_monitoring_active clk p.2) = true ∧
        key_current clk (LOCATION_STATUS s) (lower p.2)) →
  check_and_update_schedules clk full_pairs s = (Ok (), s).
Proof.
  intros Hp. unfold check_and_update_schedules.
  match goal with
  | |- (for_fold _ _ ?body ≫= _) _ = _ =>
    assert (for_fold full_pairs [] body s = (Ok [], s)) as Hloop
  end.
  { generalize (@nil (string * (bool * string * datetime))) as updates.
    induction full_pairs as [|[keyword location] ps IH]; intros updates; [done|].
    destruct (Hp (keyword, location) ltac:(left)) as [Hok Hcur]. simpl in Hok, Hcur.
    simpl. rewrite run_bind.
    destruct (is_monitoring_active clk location) as [[[active reason] next]|] eqn:Hm;
      [|done].
    pose proof (is_monitoring_active_at_key _ _ _ Hm) as Hactive. simpl in Hactive.
    run_monad. rewrite Hactive, (status_differs_current clk s _ Hcur). simpl.
    apply IH. intros p Hin. apply Hp. by right. }
  by rewrite (run_bind_ok _ _ _ _ _ Hloop).
Qed.

(** X10: Whatever status was recorded before, once the compiler has run the
    tracker finds no change at the location of any work item of the
    cycle: the compiler has stored the new status without notifying. *)
Lemma status_changes_are_absorbed (today : date) (clk : clock)
    (users : list user) (s : state) :
  Forall (λ u, is_ok (strptime_date (expiry_date u)) = true) users →
  (∀ u, u ∈ users → eligible today u = true →
        is_ok (is_monitoring_active clk (location u)) = true) →
  ∃ out s1,
    generate_pairs_and_log today clk users s = (Ok out, s1) ∧
    ∀ full_pairs,
      (∀ p, p ∈ full_pairs → is_Some (out.2 !! p)) →
      check_and_update_schedules clk full_pairs s1 = (Ok (), s1).
Proof.
  intros Hwf Hclk.
  destruct (generate_pairs_and_log_ok today clk users s Hwf Hclk)
    as (acc & s1 & Hrun & Hok & _ & Hdom & Hcur).
  eexists _, s1. split; [exact Hrun|]. simpl.
  intros full_pairs Hfull. apply check_and_update_schedules_silent.
  intros p Hin. split; [apply Hok|apply Hcur]; by apply Hdom, Hfull.
Qed.

End Compiler.

(** ** Runs on the sample data *)

(** A first poll finds the red bike and only stores its link; the second
    poll finds the red bike again and a blue one: the subscriber is told
    of the blue bike alone, and the message is then edited. *)
Example second_poll_notifies_the_new_listing :
  let user_data := {[bike_pair := [keen_subscriber]]} in
  let s0 := @State keen ∅ ∅ ∅ {[bike_pair := true]} [] [] in
  let first := poll_listings (H := ascii_strops) bike_pair user_data [red_bike] s0 in
  let second :=
    poll_listings (H := ascii_strops) bike_pair user_data [red_bike; blue_bike] first.2 in
  trace first.2 = [] ∧
  trace second.2 =
    [ EvClassify 42 "Blue bike" "$300";
      EvBotSend 42 ("✅ Good Deal @ For $300" +:+ nl +:+
                    "Link: https://www.facebook.com/item/2");
      EvDetail "/item/2";
      EvBotEdit 42 1000 ("✅ Good Deal @ Unknown Address (Distance unknown) For $300" +:+
                         nl +:+ "Link: https://www.facebook.com/item/2") ].
Proof. vm_compute. split; reflexivity. Qed.

(** The tracker on its own, run at 23:00 on the state the cycle of noon
    left, does tell the subscriber that monitoring has paused. *)
Example tracker_alone_broadcasts_the_flip :
  let day :=
    monitor_cycle (H := ascii_strops) (H0 := quiet) (Date 2024 1 15)
      (clock_at (DateTime 2024 1 15 12 0 0 0)) [bike_user] [bike_pair] first_run_state in
  let alone :=
    check_and_update_schedules (H := ascii_strops) (H0 := quiet)
      (clock_at (DateTime 2024 1 15 23 0 0 0)) [bike_pair] day.2 in
  let reason := "Nighttime hours in Melbourne (local time: 23:00). Resuming at 06:30" in
  filter (λ e, is_broadcast e = true) (trace alone.2) =
    [ EvBotSend 42 ("🛑 Monitoring has been paused for Melbourne." +:+ nl +:+
                    "Reason: " +:+ reason +:+ nl +:+ "Will resume at: 06:30");
      EvStatusLog "melbourne" false reason ].
Proof. vm_compute. reflexivity. Qed.

(** C1: a cycle at noon records Melbourne as active; the cycle at 23:00
    of the same day finds it inactive, and the subscriber of id 42 is in
    the index of that location, yet no message is sent and no status
    change is logged in either cycle: [generate_pairs_and_log] has
    already stored the new status when [check_and_update_schedules]
    compares the stored status with the computed one. *)
Theorem C1_flip_is_not_broadcast :
  let today := Date 2024 1 15 in
  let day :=
    monitor_cycle (H := ascii_strops) (H0 := quiet) today
      (clock_at (DateTime 2024 1 15 12 0 0 0)) [bike_user] [bike_pair] first_run_state in
  let night :=
    monitor_cycle (H := ascii_strops) (H0 := quiet) today
      (clock_at (DateTime 2024 1 15 23 0 0 0)) [bike_user] [bike_pair] day.2 in
  day.1 = Ok () ∧ night.1 = Ok () ∧
  is_active <$> LOCATION_STATUS day.2 !! "melbourne" = Some true ∧
  is_active <$> LOCATION_STATUS night.2 !! "melbourne" = Some false ∧
  LOCATION_USERS night.2 !! "melbourne" = Some {[42]} ∧
  filter (λ e, is_broadcast e = true) (trace night.2) = [].
Proof. vm_compute. repeat split. Qed.

Lemma C4_witness :
  process_listing (H := ascii_strops) (H0 := quiet) bike_pair
    {[bike_pair := [bike_subscriber]]} red_bike seen_state = (Ok (), seen_state).
Proof.
  assert ("/item/1" ∈ seen_listings seen_state) as Hin by (by apply elem_of_singleton).
  assert (is_Some (first_run seen_state !! bike_pair)) as Hfr
    by (exists false; vm_compute; reflexivity).
  destruct (C4_seen_link_is_never_notified (H := ascii_strops) (H0 := quiet) bike_pair
              {[bike_pair := [bike_subscriber]]} "/item/1" seen_state Hin Hfr) as [Hstep _].
  apply Hstep. reflexivity.
Defined.

Lemma C5_witness :
  let run :=
    for_each [red_bike; red_bike]
      (process_listing (H := ascii_strops) (H0 := quiet) bike_pair
         {[bike_pair := [bike_subscriber]]}) first_run_state in
  run.1 = Ok () ∧ trace run.2 = [] ∧ "/item/1" ∈ seen_listings run.2.
Proof.
  destruct (C5_first_run_seeds_without_notifying (H := ascii_strops) (H0 := quiet) bike_pair
              {[bike_pair := [bike_subscriber]]} [red_bike; red_bike] first_run_state)
    as (Hok & Htrace & _ & Hseen & _); [vm_compute; reflexivity|].
  split; [exact Hok|]. split; [exact Htrace|].
  apply (Hseen red_bike); [left|reflexivity].
Defined.

Lemma C6_witness :
  ∃ why,
    first_unmet (Modes false false true) (Classification "" false false false) = Some why ∧
    notify_subscriber (H := ascii_strops) (H0 := quiet) "Red bike" "$500" "/item/1" []
      bike_subscriber seen_state =
    (Ok [], with_world_trace (H := quiet) seen_state []
              ([EvClassify 42 "Red bike" "$500"] ++ [EvSkip 42 why])).
Proof.
  destruct (C6_mode_filters (H := ascii_strops) (H0 := quiet) "Red bike" "$500" "/item/1" []
              bike_subscriber seen_state (Classification "" false false false) [])
    as [_ Hskip]; [vm_compute; reflexivity | reflexivity |].
  apply Hskip. intros (_ & _ & Hgood). discriminate (Hgood eq_refl).
Defined.


(** C8 as the claim states it fails: a user whose expiry date is
    well-formed, whose activation flag is set and whose subscription
    has not run out contributes nothing when the compiler raises: at
    23:00 on the last day of a month the schedule engine raises at the
    location of the user (C2), and at noon on another day the compiler
    raises on the expiry date of another user of the list. *)
Lemma C8_no_contribution_when_the_compiler_raises :
  let month_end :=
    generate_pairs_and_log (H := ascii_strops) (H0 := quiet) (Date 2024 1 31)
      (clock_at (DateTime 2024 1 31 23 0 0 0)) [bike_user] first_run_state in
  let bad_companion :=
    generate_pairs_and_log (H := ascii_strops) (H0 := quiet) (Date 2024 1 15)
      (clock_at (DateTime 2024 1 15 12 0 0 0)) [bike_user; malformed_user]
      first_run_state in
  strptime_date (expiry_date bike_user) = Ok (Date 2030 1 1) ∧
  activation_status bike_user = true ∧
  eligible (Date 2024 1 31) bike_user = true ∧
  eligible (Date 2024 1 15) bike_user = true ∧
  keywords bike_user = ["bike"] ∧
  month_end.1 = Raise (ValueError "day is out of range for month") ∧
  bad_companion.1 = Raise (ValueError "time data does not match format").
Proof. vm_compute. repeat split; reflexivity. Qed.


Lemma C8_witness :
  ∃ active_pairs user_pair_map s',
    generate_pairs_and_log (H := ascii_strops) (H0 := quiet) (Date 2024 1 15)
      (clock_at (DateTime 2024 1 15 12 0 0 0)) [bike_user; expired_user] first_run_state
    = (Ok (active_pairs, user_pair_map), s') ∧
    user_pair_map !! bike_pair = Some [bike_subscriber].
Proof.
  destruct (C8_eligible_users_contribute (H := ascii_strops) (H0 := quiet) (Date 2024 1 15)
              (clock_at (DateTime 2024 1 15 12 0 0 0)) [bike_user; expired_user]
              first_run_state)
    as (ap & upm & s' & Hrun & Hmap & _).
  - repeat constructor.
  - intros u _ _. reflexivity.
  - exists ap, upm, s'. split; [exact Hrun|]. rewrite Hmap. reflexivity.
Defined.

Lemma C10_witness :
  gen_user (H := ascii_strops) (H0 := quiet) (Date 2024 1 15)
    (clock_at (DateTime 2024 1 15 12 0 0 0)) (GenAcc ∅ ∅ ∅) idle_user first_run_state =
  (Ok (GenAcc ∅ ∅ ∅),
   @State quiet ∅ (<["melbourne" := ∅ ∪ {[43]}]> ∅) ∅ {[bike_pair := true]} [] []).
Proof.
  destruct (C10_no_keywords_still_in_broadcast (H := ascii_strops) (H0 := quiet)
              (Date 2024 1 15) (clock_at (DateTime 2024 1 15 12 0 0 0)) idle_user
              eq_refl eq_refl) as [Hgen _].
  apply Hgen.
Defined.

(** * Further properties *)

(** ** The schedule engine: window, next change, agreement *)

Lemma valid_datetime_time dt :
  valid_datetime dt = true →
  0 <= hour dt <= 23 ∧ 0 <= minute dt <= 59 ∧ 0 <= second dt <= 59 ∧
  0 <= microsecond dt <= 999999.
Proof.
  unfold valid_datetime, valid_time. intros Hv.
  repeat (apply andb_prop in Hv as [Hv ?]). lia.
Qed.

Lemma in_inactive_period_micros (t : time) :
  0 <= t_minute t <= 59 → 0 <= t_second t <= 59 → 0 <= t_microsecond t <= 999999 →
  in_inactive_period t = false ↔ 23400000000 < micros t < 79200000000.
Proof.
  intros Hm Hs Hus. unfold micros, in_inactive_period. rewrite orb_false_iff. split.
  - intros [Hstart Hend]. split.
    + clear Hstart. revert Hend. time_cases.
    + clear Hend. revert Hstart. time_cases.
  - intros [Hlo Hhi]. split; time_cases.
Qed.

(** X1: The schedule engine answers active exactly when the local time is
    strictly after 06:30:00 and strictly before 22:00:00, and whenever
    it is, the call returns. *)
Theorem active_window `{StrOps} (clk : clock) (location : string) :
  let now := clk (get_location_timezone location) in
  valid_datetime now = true →
  (23400000000 < micros (time_of now) < 79200000000 →
   ∃ reason next, is_monitoring_active clk location = Ok (true, reason, next)) ∧
  (¬ (23400000000 < micros (time_of now) < 79200000000) →
   ∀ r, is_monitoring_active clk location = Ok r → r.1.1 = false).
Proof.
  intros now Hv. destruct (valid_datetime_time now Hv) as (Hh & Hm & Hs & Hus).
  pose proof (in_inactive_period_micros (time_of now) Hm Hs Hus) as Hw.
  split.
  - intros Hin. apply Hw in Hin.
    rewrite is_monitoring_active_spec by done. fold now. rewrite Hin. eauto.
  - intros Hout r Hr. rewrite (is_monitoring_active_active clk location r Hr).
    fold now. destruct (in_inactive_period (time_of now)); [done|].
    destruct Hout. by apply Hw.
Qed.

Lemma active_window_witness :
  ∃ reason next,
    is_monitoring_active (H := ascii_strops)
      (clock_at (DateTime 2024 1 15 6 30 0 1)) "Perth" = Ok (true, reason, next).
Proof.
  destruct (active_window (H := ascii_strops)
              (clock_at (DateTime 2024 1 15 6 30 0 1)) "Perth" eq_refl) as [Hin _].
  apply Hin. vm_compute. split; reflexivity.
Defined.

(** X2: The time of the next change the engine returns: on the boundary
    (22:00 when active, 06:30 when not, seconds at zero, the microseconds
    of the sample kept), in the month of the sample, today or tomorrow,
    and never before the sample; it is the sample itself only at
    06:30:00 sharp. *)
Theorem next_change_is_the_next_boundary `{StrOps} (clk : clock) (location : string)
    (active : bool) (reason : string) (next : datetime) :
  let now := clk (get_location_timezone location) in
  valid_datetime now = true →
  is_monitoring_active clk location = Ok (active, reason, next) →
  year next = year now ∧ month next = month now ∧
  time_of next =
    (if active then Time 22 0 0 (microsecond now) else Time 6 30 0 (microsecond now)) ∧
  ((day next = day now ∧ micros (time_of now) <= micros (time_of next) ∧
    (micros (time_of now) = micros (time_of next) → time_of now = Time 6 30 0 0)) ∨
   (day next = day now + 1 ∧ active = false ∧ 22 <= hour now)).
Proof.
  intros now Hv. destruct (valid_datetime_time now Hv) as (Hh & Hm & Hs & Hus).
  rewrite is_monitoring_active_spec by done. fold now.
  pose proof (in_inactive_period_micros (time_of now) Hm Hs Hus) as Hw.
  destruct (in_inactive_period (time_of now)) eqn:Hin.
  - destruct (time_gt (time_of now) end_inactive) eqn:Hgt.
    + destruct (negb _); [done|]. simpl. intros [= <- <- <-]. simpl.
      repeat split; try done. right. repeat split; try done.
      assert (time_le (time_of now) end_inactive = false) as Hle.
      { revert Hgt. unfold time_gt, time_le. by destruct (time_compare _ _). }
      unfold in_inactive_period in Hin. rewrite Hle, orb_false_r in Hin.
      clear Hw Hle Hgt. revert Hin. time_cases.
    + simpl. intros [= <- <- <-]. simpl. repeat split; try done. left.
      assert (micros (time_of now) <= 23400000000) as Hle.
      { clear Hw Hin. revert Hgt. unfold micros. time_cases. }
      unfold micros in *. simpl in *. repeat split; try lia.
      intros Heq. unfold time_of. f_equal; lia.
  - simpl. intros [= <- <- <-]. simpl. repeat split; try done. left.
    destruct Hw as [Hw _]. specialize (Hw eq_refl).
    unfold micros in *. simpl in *. repeat split; try lia.
Qed.

Lemma next_change_is_the_next_boundary_witness :
  time_of (DateTime 2024 1 16 6 30 0 7) = Time 6 30 0 7.
Proof.
  destruct (next_change_is_the_next_boundary (H := ascii_strops)
              (clock_at (DateTime 2024 1 15 23 10 4 7)) "Melbourne" false
              "Nighttime hours in Melbourne (local time: 23:10). Resuming at 06:30"
              (DateTime 2024 1 16 6 30 0 7) eq_refl ltac:(vm_compute; reflexivity))
    as (_ & _ & Htime & _).
  exact Htime.
Defined.

(** X3: The two functions of the engine agree: [get_monitoring_schedule]
    fails when [is_monitoring_active] fails, with the same exception, and
    otherwise records the same status and the same time of the next
    change, with the opposite status as the next status. *)
Theorem schedule_agrees_with_status `{StrOps} (clk : clock) (location : string) :
  get_monitoring_schedule clk location =
    match is_monitoring_active clk location with
    | Raise e => Raise e
    | Ok (active, _, next) =>
      Ok {| sch_location := location;
            sch_timezone := tz_name (get_location_timezone location);
            sch_local_time := strftime_full (clk (get_location_timezone location));
            is_active := active;
            next_change := strftime_full next;
            next_status := if active then "inactive" else "active";
            active_hours := "06:30 - 22:00" |}
    end.
Proof.
  unfold get_monitoring_schedule, is_monitoring_active.
  set (now := clk (get_location_timezone location)).
  destruct (in_inactive_period (time_of now)); simpl.
  - destruct (replace_hms now _ _ _) as [d|]; simpl; [|done].
    destruct (time_gt _ _); [|done].
    by destruct (replace_day d _).
  - by destruct (replace_hms now _ _ _).
Qed.

(** ** telegram.py: messages sent one after the other *)

Section Sequential.
Context `{Collaborators}.

Lemma for_each_cons {A} (x : A) (l : list A) (body : A → M unit) :
  for_each (x :: l) body = (body x ;; for_each l body).
Proof. reflexivity. Qed.

Lemma send_sequentially_run (message : string) (chat_id : Z) (s : state) :
  let f := bot_send_message chat_id message in
  ∃ n, (1 ≤ n ≤ 3)%nat ∧
    send_sequentially_from [0; 1; 2] message chat_id s =
      (match outcome f (n - 1) (the_world s) with
       | Ok _ => Ok ()
       | Raise (TelegramError _) => Ok ()
       | Raise e => Raise e
       end,
       with_world_trace s (world_after f n (the_world s))
         (trace s ++ retry_events (EvBotSend chat_id message) n)).
Proof.
  intros f.
  destruct (f (the_world s)) as [r1 w1] eqn:E1.
  destruct (is_telegram_error r1) eqn:T1.
  - destruct (f w1) as [r2 w2] eqn:E2.
    destruct (is_telegram_error r2) eqn:T2.
    + destruct (f w2) as [r3 w3] eqn:E3.
      exists 3%nat. split; [lia|].
      apply is_telegram_error_inv in T1 as [m1 ->], T2 as [m2 ->].
      unfold outcome, with_world_trace; simpl.
      unfold try_except, mbind, M_bind, emit, call, sleep, emit; simpl.
      fold f. rewrite E1; simpl. rewrite E2; simpl. rewrite E3; simpl.
      rewrite <- !app_assoc; simpl.
      by destruct r3 as [|[]].
    + exists 2%nat. split; [lia|].
      apply is_telegram_error_inv in T1 as [m1 ->].
      unfold outcome, with_world_trace; simpl.
      unfold try_except, mbind, M_bind, emit, call, sleep, emit; simpl.
      fold f. rewrite E1; simpl. rewrite E2; simpl.
      rewrite <- !app_assoc; simpl.
      by destruct r2 as [|[]].
  - exists 1%nat. split; [lia|].
    unfold outcome, with_world_trace; simpl.
    unfold try_except, mbind, M_bind, emit, call, sleep, emit; simpl.
    fold f. rewrite E1; simpl.
    by destruct r1 as [|[]].
Qed.

Lemma send_sequentially_cases (message : string) (chat_id : Z) (s : state) :
  ∃ n r s', (1 ≤ n ≤ 3)%nat ∧
    send_sequentially_from [0; 1; 2] message chat_id s = (r, s') ∧
    trace s' = trace s ++ retry_events (EvBotSend chat_id message) n ∧
    (∀ msg, r ≠ Raise (TelegramError msg)).
Proof.
  destruct (send_sequentially_run message chat_id s) as (n & Hn & Hrun).
  eexists n, _, _. split; [done|]. split; [exact Hrun|]. split; [done|].
  intros msg. by destruct (outcome _ _ _) as [|[]].
Qed.

(** X4: [send_messages_sequentially] never raises a transport error, and a
    call that returns has tried every message of the list, in the order
    of the list, between one and three times each, with the pauses of 2
    and 4 seconds between the attempts for one message: a message that
    could not be sent does not keep the later ones from being sent. *)
Theorem send_messages_sequentially_tries_every_message
    (messages : list (string * Z)) (s : state) :
  let run := send_messages_sequentially messages s in
  (∀ msg, run.1 ≠ Raise (TelegramError msg)) ∧
  (run.1 = Ok () →
   ∃ ns, length ns = length messages ∧
         Forall (λ n, (1 ≤ n ≤ 3)%nat) ns ∧
         trace run.2 = trace s ++ sequential_events messages ns).
Proof.
  unfold send_messages_sequentially.
  set (body := (λ '(message, chat_id), send_sequentially_from [0; 1; 2] message chat_id)
               : string * Z → M unit).
  revert s. induction messages as [|[message chat_id] messages IH]; intros s.
  - simpl. split; [done|]. intros _. exists []. by rewrite app_nil_r.
  - destruct (send_sequentially_cases message chat_id s) as (n & r & s1 & Hn & Hrun & Ht & Hr).
    rewrite for_each_cons, run_bind.
    change (body (message, chat_id)) with (send_sequentially_from [0; 1; 2] message chat_id).
    rewrite Hrun. destruct r as [[]|e]; cbn [fst snd].
    + destruct (IH s1) as [Hne Hok]. split; [done|].
      intros Hrun'. destruct (Hok Hrun') as (ns & Hlen & Hns & Htr).
      exists (n :: ns). split; [simpl; by rewrite Hlen|]. split; [by constructor|].
      rewrite Htr, Ht. simpl. by rewrite <- app_assoc.
    + split; [done|]. done.
Qed.

End Sequential.

Lemma send_messages_sequentially_witness :
  ∃ ns, length ns = 2%nat ∧ Forall (λ n, (1 ≤ n ≤ 3)%nat) ns ∧
    trace (send_messages_sequentially (H := quiet) [("one", 7); ("two", 8)]
             (initial_state (H := quiet)
                [Raise (TelegramError "a"); Raise (TelegramError "b");
                 Raise (TelegramError "c")])).2
    = [] ++ sequential_events [("one", 7); ("two", 8)] ns.
Proof.
  destruct (send_messages_sequentially_tries_every_message (H := quiet)
              [("one", 7); ("two", 8)]
              (initial_state (H := quiet)
                 [Raise (TelegramError "a"); Raise (TelegramError "b");
                  Raise (TelegramError "c")])) as [_ Hok].
  apply Hok. vm_compute. reflexivity.
Defined.

(** ** Runs of the monad: relations that are only preorders, and the
       events a run appends *)

Section Frames.
Context `{Collaborators}.
Variable R : relation state.
Context `{!PreOrder R}.

Lemma frame_ret {A} (a : A) : preserves R (mret a).
Proof. intros s. simpl. reflexivity. Qed.

Lemma frame_raise {A} (e : exn) : preserves R (raise (A := A) e).
Proof. intros s. simpl. reflexivity. Qed.

Lemma frame_lift {A} (r : result A) : preserves R (lift r).
Proof. intros s. simpl. reflexivity. Qed.

Lemma frame_get_state : preserves R get_state.
Proof. intros s. simpl. reflexivity. Qed.

Lemma frame_bind {A B} (m : M A) (k : A → M B) :
  preserves R m → (∀ a, preserves R (k a)) → preserves R (m ≫= k).
Proof.
  intros Hm Hk s. rewrite run_bind. specialize (Hm s).
  destruct (m s) as [[a|e] s']; simpl in *; [|done].
  etrans; [exact Hm|apply Hk].
Qed.

Lemma frame_try_except {A} (m : M A) (h : exn → M A) :
  preserves R m → (∀ e, preserves R (h e)) → preserves R (try_except m h).
Proof.
  intros Hm Hh s. unfold try_except. specialize (Hm s).
  destruct (m s) as [[a|e] s']; simpl in *; [done|].
  etrans; [exact Hm|apply Hh].
Qed.

Lemma frame_try_finally {A} (m : M A) (f : M unit) :
  preserves R m → preserves R f → preserves R (try_finally m f).
Proof.
  intros Hm Hf s. unfold try_finally. specialize (Hm s).
  destruct (m s) as [r s']. specialize (Hf s').
  destruct (f s') as [[[]|e] s'']; simpl in *; by etrans.
Qed.

Lemma frame_for_each {A} (l : list A) (body : A → M unit) :
  (∀ x, preserves R (body x)) → preserves R (for_each l body).
Proof.
  intros Hb. induction l as [|x l IH]; simpl.
  - apply frame_ret.
  - apply frame_bind; [apply Hb|done].
Qed.

Lemma frame_for_fold {A B} (l : list A) (acc : B) (body : B → A → M B) :
  (∀ acc x, preserves R (body acc x)) → preserves R (for_fold l acc body).
Proof.
  intros Hb. revert acc. induction l as [|x l IH]; intros acc; simpl.
  - apply frame_ret.
  - apply frame_bind; [apply Hb|done].
Qed.

Lemma frame_gather {A} (tasks : list (M A)) :
  Forall (preserves R) tasks → preserves R (gather tasks).
Proof.
  induction 1 as [|task tasks Ht _ IH]; intros s; simpl; [reflexivity|].
  specialize (Ht s). destruct (task s) as [[a|e] s1]; simpl in *.
  - specialize (IH s1). destruct (gather tasks s1) as [[l|e] s2]; simpl in *; by etrans.
  - etrans; [exact Ht|apply IH].
Qed.

End Frames.

Ltac preorder_instance :=
  try match goal with |- PreOrder _ => typeclasses eauto end.

Ltac frame_step :=
  first
    [ apply frame_ret; preorder_instance
    | apply frame_raise; preorder_instance
    | apply frame_lift; preorder_instance
    | apply frame_get_state; preorder_instance
    | apply frame_bind; preorder_instance; [|intros ?]
    | apply frame_try_except; preorder_instance; [|intros ?]
    | apply frame_try_finally; preorder_instance
    | apply frame_for_each; preorder_instance; intros ?
    | apply frame_for_fold; preorder_instance; intros ? ?
    | match goal with
      | |- preserves _ (match ?x with _ => _ end) => destruct x
      | |- preserves _ (let '(_, _) := ?x in _) => destruct x
      end ].

Ltac frame_tac := repeat frame_step.

Section Emits.
Context `{Collaborators}.
Variable P : event → Prop.

Lemma emits_nothing {A} (m : M A) :
  (∀ s, trace (m s).2 = trace s) → emits P m.
Proof. intros Hm s. exists []. by rewrite Hm, app_nil_r. Qed.

Lemma emits_ret {A} (a : A) : emits P (mret a).
Proof. by apply emits_nothing. Qed.

Lemma emits_raise {A} (e : exn) : emits P (raise (A := A) e).
Proof. by apply emits_nothing. Qed.

Lemma emits_lift {A} (r : result A) : emits P (lift r).
Proof. by apply emits_nothing. Qed.

Lemma emits_get_state : emits P get_state.
Proof. by apply emits_nothing. Qed.

Lemma emits_call {A} (f : world → result A * world) : emits P (call f).
Proof. apply emits_nothing. intros s. unfold call. by destruct (f (the_world s)). Qed.

Lemma emits_set_LOCATION_STATUS m : emits P (set_LOCATION_STATUS m).
Proof. by apply emits_nothing. Qed.

Lemma emits_set_LOCATION_USERS m : emits P (set_LOCATION_USERS m).
Proof. by apply emits_nothing. Qed.

Lemma emits_set_seen_listings x : emits P (set_seen_listings x).
Proof. by apply emits_nothing. Qed.

Lemma emits_set_first_run m : emits P (set_first_run m).
Proof. by apply emits_nothing. Qed.

Lemma emits_emit (e : event) : P e → emits P (emit e).
Proof. intros He s. exists [e]. split; [done|]. by constructor. Qed.

Lemma emits_bind {A B} (m : M A) (k : A → M B) :
  emits P m → (∀ a, emits P (k a)) → emits P (m ≫= k).
Proof.
  intros Hm Hk s. rewrite run_bind. destruct (Hm s) as (d & Hd & HP).
  destruct (m s) as [[a|e] s']; simpl in *; [|eauto].
  destruct (Hk a s') as (d' & Hd' & HP'). exists (d ++ d').
  split; [by rewrite Hd', Hd, app_assoc|]. by apply Forall_app.
Qed.

Lemma emits_try_except {A} (m : M A) (h : exn → M A) :
  emits P m → (∀ e, emits P (h e)) → emits P (try_except m h).
Proof.
  intros Hm Hh s. unfold try_except. destruct (Hm s) as (d & Hd & HP).
  destruct (m s) as [[a|e] s']; simpl in *; [eauto|].
  destruct (Hh e s') as (d' & Hd' & HP'). exists (d ++ d').
  split; [by rewrite Hd', Hd, app_assoc|]. by apply Forall_app.
Qed.

Lemma emits_try_finally {A} (m : M A) (f : M unit) :
  emits P m → emits P f → emits P (try_finally m f).
Proof.
  intros Hm Hf s. unfold try_finally. destruct (Hm s) as (d & Hd & HP).
  destruct (m s) as [r s']. destruct (Hf s') as (d' & Hd' & HP').
  exists (d ++ d'). split; [|by apply Forall_app].
  destruct (f s') as [[[]|e] s'']; simpl in *; by rewrite Hd', Hd, app_assoc.
Qed.

Lemma emits_for_each {A} (l : list A) (body : A → M unit) :
  (∀ x, emits P (body x)) → emits P (for_each l body).
Proof.
  intros Hb. induction l as [|x l IH]; simpl.
  - apply emits_ret.
  - apply emits_bind; [apply Hb|done].
Qed.

Lemma emits_for_fold {A B} (l : list A) (acc : B) (body : B → A → M B) :
  (∀ acc x, emits P (body acc x)) → emits P (for_fold l acc body).
Proof.
  intros Hb. revert acc. induction l as [|x l IH]; intros acc; simpl.
  - apply emits_ret.
  - apply emits_bind; [apply Hb|done].
Qed.

Lemma emits_gather {A} (tasks : list (M A)) :
  Forall (emits P) tasks → emits P (gather tasks).
Proof.
  induction 1 as [|task tasks Ht _ IH]; intros s.
  - exists []. simpl. by rewrite app_nil_r.
  - rewrite gather_cons_state. destruct (Ht s) as (d & Hd & HP).
    destruct (IH (task s).2) as (d' & Hd' & HP'). exists (d ++ d').
    split; [by rewrite Hd', Hd, app_assoc|]. by apply Forall_app.
Qed.

End Emits.

Lemma emits_mono `{Collaborators} (P Q : event → Prop) {A} (m : M A) :
  (∀ e, P e → Q e) → emits P m → emits Q m.
Proof.
  intros HPQ Hm s. destruct (Hm s) as (d & Hd & HP). exists d. split; [done|].
  by eapply Forall_impl.
Qed.

Ltac emits_step :=
  first
    [ apply emits_ret | apply emits_raise | apply emits_lift | apply emits_get_state
    | apply emits_call | apply emits_set_LOCATION_STATUS | apply emits_set_LOCATION_USERS
    | apply emits_set_seen_listings | apply emits_set_first_run
    | apply emits_bind; [|intros ?]
    | apply emits_try_except; [|intros ?]
    | apply emits_try_finally
    | apply emits_for_each; intros ?
    | apply emits_for_fold; intros ? ?
    | match goal with
      | |- emits _ (match ?x with _ => _ end) => destruct x
      | |- emits _ (let '(_, _) := ?x in _) => destruct x
      end ].

Ltac emits_tac := repeat emits_step.

Section EmitsOfTelegram.
Context `{Collaborators}.

Lemma emits_send_message (P : event → Prop) (message : string) (chat_id : Z) :
  P (EvBotSend chat_id message) → (∀ n, P (EvSleep n)) →
  emits P (send_message message chat_id).
Proof.
  intros Hs Hp. unfold send_message, send_message_from, sleep.
  emits_tac; by apply emits_emit.
Qed.

Lemma emits_edit_message (P : event → Prop) (chat_id message_id : Z) (new_text : string) :
  P (EvBotEdit chat_id message_id new_text) → (∀ n, P (EvSleep n)) →
  emits P (edit_message chat_id message_id new_text).
Proof.
  intros Hs Hp. unfold edit_message, edit_message_from, sleep.
  emits_tac; by apply emits_emit.
Qed.

End EmitsOfTelegram.

(** ** The subscription compiler: what it returns and what it touches *)

Section CompilerMore.
Context `{StrOps} `{Collaborators}.

#[local] Instance only_globals_preorder : PreOrder only_globals.
Proof.
  split.
  - by intros s.
  - intros s1 s2 s3 (? & ? & ? & ?) (? & ? & ? & ?). repeat split; congruence.
Qed.

#[local] Instance same_index_preorder : PreOrder same_index.
Proof.
  split; [by intros s|]. intros s1 s2 s3 ??. unfold same_index in *. congruence.
Qed.

Lemma for_fold_app {A B} (l1 l2 : list A) (acc : B) (body : B → A → M B) (s : state) :
  for_fold (l1 ++ l2) acc body s =
    (acc1 ← for_fold l1 acc body; for_fold l2 acc1 body) s.
Proof.
  revert acc s. induction l1 as [|x l1 IH]; intros acc s; simpl.
  - done.
  - rewrite !run_bind. destruct (body acc x s) as [[acc1|e] s1]; [|done].
    rewrite IH. by rewrite run_bind.
Qed.

Lemma frame_gen_keyword (clk : clock) (u : user) (acc : gen_acc) (keyword : string) :
  preserves only_globals (gen_keyword clk u acc keyword).
Proof. unfold gen_keyword. frame_tac. by intros ?. Qed.

Lemma frame_gen_user (today : date) (clk : clock) (acc : gen_acc) (u : user) :
  preserves only_globals (gen_user today clk acc u).
Proof.
  unfold gen_user. frame_tac; by intros ?.
Qed.

Lemma same_index_gen_keyword (clk : clock) (u : user) (acc : gen_acc) (keyword : string) :
  preserves same_index (gen_keyword clk u acc keyword).
Proof. unfold gen_keyword. frame_tac. by intros ?. Qed.

(** What one keyword adds, when the step returns. *)
Lemma gen_keyword_inv (clk : clock) (u : user) (acc acc' : gen_acc) (keyword : string)
    (s s' : state) :
  gen_keyword clk u acc keyword s = (Ok acc', s') →
  ∃ active reason next,
    is_monitoring_active clk (location u) = Ok (active, reason, next) ∧
    acc' =
      GenAcc (pairs acc ∪ {[(keyword, location u)]})
        (<[(keyword, location u) :=
             default [] (user_pair_map acc !! (keyword, location u)) ++ [entry_of u]]>
           (user_pair_map acc))
        (if active then active_pairs acc ∪ {[(keyword, location u)]} else active_pairs acc).
Proof.
  unfold gen_keyword.
  destruct (is_monitoring_active clk (location u)) as [[[active reason] next]|] eqn:Hm;
    [|done].
  run_monad.
  destruct (default true (status_differs s (lower (location u)) active)); simpl.
  - destruct (get_monitoring_schedule clk (location u)); simpl; [|done].
    intros [= <- <-]. eauto.
  - intros [= <- <-]. eauto.
Qed.

Lemma gen_keyword_wf (clk : clock) (u : user) (acc acc' : gen_acc) (keyword : string)
    (s s' : state) :
  gen_keyword clk u acc keyword s = (Ok acc', s') → acc_wf clk acc → acc_wf clk acc'.
Proof.
  intros (active & reason & next & Hm & ->)%gen_keyword_inv (Hdom & Hok & Hact).
  set (pair := (keyword, location u)).
  split; [|split]; simpl.
  - intros p. rewrite elem_of_union, elem_of_singleton, Hdom.
    destruct (decide (pair = p)) as [<-|Hne].
    + rewrite lookup_insert_eq. split; eauto.
    + rewrite lookup_insert_ne by done. split; [intros [?|?]; [done|by subst]|by left].
  - intros p [Hp| ->%elem_of_singleton]%elem_of_union; [by apply Hok|].
    simpl. by rewrite Hm.
  - intros p. destruct active.
    + rewrite !elem_of_union, !elem_of_singleton, Hact. split.
      * intros [[? ?]| ->]; [by split; [left|]|]. split; [by right|]. simpl. eauto.
      * intros [[?| ->] Hr]; [by left|by right].
    + rewrite elem_of_union, elem_of_singleton, Hact. split.
      * intros [? ?]. split; [by left|done].
      * intros [[?| ->] (r & n & Hr)]; [by eauto|].
        simpl in Hr. rewrite Hm in Hr. discriminate.
Qed.

Lemma gen_keywords_inv (clk : clock) (u : user) (ks : list string) (acc acc' : gen_acc)
    (cs : list (pair_t * subscriber)) (s s' : state) :
  for_fold ks acc (gen_keyword clk u) s = (Ok acc', s') →
  acc_wf clk acc →
  (∀ p, user_pair_map acc !! p = expected_entry p cs) →
  acc_wf clk acc' ∧
  (∀ p, user_pair_map acc' !! p =
        expected_entry p (cs ++ map (λ keyword, ((keyword, location u), entry_of u)) ks)).
Proof.
  revert acc cs s. induction ks as [|k ks IH]; intros acc cs s; simpl.
  - intros [= <- <-] Hwf Hm. by rewrite app_nil_r.
  - rewrite run_bind.
    destruct (gen_keyword clk u acc k s) as [[acc1|e] s1] eqn:Hk; [|done].
    intros Hrun Hwf Hm.
    pose proof (gen_keyword_wf _ _ _ _ _ _ _ Hk Hwf) as Hwf1.
    apply gen_keyword_inv in Hk as (active & reason & next & _ & Hacc1).
    destruct (IH acc1 (cs ++ [((k, location u), entry_of u)]) s1 Hrun Hwf1) as [Hwf' Hm'].
    { rewrite Hacc1. simpl. by apply expected_entry_snoc. }
    split; [done|]. intros p. rewrite Hm'. by rewrite <- app_assoc.
Qed.

(** One user, when the step returns: the expiry date was well formed,
    and the user was passed over or had every keyword compiled. *)
Lemma gen_user_inv (today : date) (clk : clock) (acc acc' : gen_acc) (u : user)
    (s s' : state) :
  gen_user today clk acc u s = (Ok acc', s') →
  is_ok (strptime_date (expiry_date u)) = true ∧
  if eligible today u then
    for_fold (keywords u) acc (gen_keyword clk u)
      (State (LOCATION_STATUS s)
             (<[lower (location u) :=
                  default ∅ (LOCATION_USERS s !! lower (location u)) ∪ {[user_id u]}]>
                (LOCATION_USERS s))
             (seen_listings s) (first_run s) (the_world s) (trace s)) = (Ok acc', s')
  else acc' = acc ∧ s' = s.
Proof.
  intros Hrun.
  destruct (strptime_date (expiry_date u)) as [d|] eqn:Hd.
  - split; [done|]. destruct (eligible today u) eqn:He.
    + by rewrite <- (gen_user_eligible today).
    + rewrite gen_user_skip in Hrun by (by rewrite ?Hd). by injection Hrun as <- <-.
  - unfold gen_user in Hrun. rewrite Hd in Hrun. done.
Qed.

Lemma gen_users_inv (today : date) (clk : clock) (users : list user) (acc acc' : gen_acc)
    (cs : list (pair_t * subscriber)) (s s' : state) :
  for_fold users acc (gen_user today clk) s = (Ok acc', s') →
  acc_wf clk acc →
  (∀ p, user_pair_map acc !! p = expected_entry p cs) →
  acc_wf clk acc' ∧
  (∀ p, user_pair_map acc' !! p = expected_entry p (cs ++ contributions today users)) ∧
  (∀ key chat_id,
     chat_id ∈ default ∅ (LOCATION_USERS s' !! key) ↔
     chat_id ∈ default ∅ (LOCATION_USERS s !! key) ∨
     ∃ u, u ∈ users ∧ eligible today u = true ∧
          lower (location u) = key ∧ user_id u = chat_id).
Proof.
  revert acc cs s. induction users as [|u users IH]; intros acc cs s; simpl.
  - intros [= <- <-] Hwf Hm. split; [done|]. split.
    + unfold contributions. simpl. by rewrite app_nil_r.
    + intros key c. split; [by left|]. intros [?|(u & Hu & _)]; [done|].
      by apply elem_of_nil in Hu.
  - rewrite run_bind.
    destruct (gen_user today clk acc u s) as [[acc1|e] s1] eqn:Hu; [|done].
    intros Hrun Hwf Hm. apply gen_user_inv in Hu as [Hd Hu].
    unfold contributions. destruct (eligible today u) eqn:He.
    + rewrite filter_cons_True by done. simpl.
      pose proof (frame_for_fold same_index (keywords u) acc (gen_keyword clk u)
                    (same_index_gen_keyword clk u)) as Hidx.
      match type of Hu with for_fold _ _ _ ?s0 = _ => specialize (Hidx s0) end.
      rewrite Hu in Hidx. unfold same_index in Hidx. simpl in Hidx.
      destruct (gen_keywords_inv _ _ _ _ _ cs _ _ Hu Hwf Hm) as [Hwf1 Hm1].
      destruct (IH acc1 (cs ++ contribution u) s1 Hrun Hwf1 Hm1) as (Hwf' & Hm' & Hlu').
      split; [done|]. split; [intros p; rewrite Hm'; by rewrite <- app_assoc|].
      intros key c. rewrite Hlu', Hidx. split.
      * intros [Hin|(u' & Hu' & ?)]; [|right; exists u'; split; [by right|done]].
        destruct (decide (lower (location u) = key)) as [<-|Hne].
        -- rewrite lookup_insert_eq in Hin. simpl in Hin.
           apply elem_of_union in Hin as [?| ->%elem_of_singleton]; [by left|].
           right. exists u. split; [by left|done].
        -- rewrite lookup_insert_ne in Hin by done. by left.
      * intros [Hin|(u' & [->|Hu']%elem_of_cons & He' & Hk & Hc)].
        -- left. destruct (decide (lower (location u) = key)) as [<-|Hne].
           ++ rewrite lookup_insert_eq. simpl. apply elem_of_union. by left.
           ++ by rewrite lookup_insert_ne.
        -- left. subst. rewrite lookup_insert_eq. simpl.
           apply elem_of_union. right. by apply elem_of_singleton.
        -- right. by exists u'.
    + rewrite filter_cons_False by (by rewrite He). destruct Hu as [-> ->].
      destruct (IH acc cs s Hrun Hwf Hm) as (Hwf' & Hm' & Hlu').
      split; [done|]. split; [done|].
      intros key c. rewrite Hlu'. split.
      * intros [?|(u' & Hu' & ?)]; [by left|]. right. exists u'. split; [by right|done].
      * intros [?|(u' & [->|Hu']%elem_of_cons & He' & ?)]; [by left|congruence|].
        right. by exists u'.
Qed.

(** The lines of the pairs log leave the state as it is. *)
Lemma pairs_log_state (clk : clock) (ps : list pair_t) (lines : list string) (s : state) :
  (for_fold ps lines (λ lines '(keyword, location),
     r ← lift (is_monitoring_active clk location);
     let '(active, reason, _) := (r : bool * string * datetime) in
     let status := if active then "ACTIVE" else "PAUSED" in
     mret (lines ++ [keyword +:+ " - " +:+ location +:+ " [" +:+ status +:+ "] - " +:+
                     reason +:+ nl])) s).2 = s.
Proof.
  revert lines. induction ps as [|[keyword location] ps IH]; intros lines; simpl; [done|].
  rewrite run_bind.
  destruct (is_monitoring_active clk location) as [[[active reason] next]|]; [|done].
  run_monad. apply IH.
Qed.

(** A run of the compiler that returns, taken apart. *)
Lemma generate_pairs_and_log_inv (today : date) (clk : clock) (users : list user)
    (s s' : state) (out : gset pair_t * gmap pair_t (list subscriber)) :
  generate_pairs_and_log today clk users s = (Ok out, s') →
  ∃ acc s1 lines,
    for_fold users (GenAcc ∅ ∅ ∅) (gen_user today clk)
      (State (LOCATION_STATUS s) ∅ (seen_listings s) (first_run s) (the_world s) (trace s))
    = (Ok acc, s1) ∧
    out = (active_pairs acc, user_pair_map acc) ∧
    s' = State (LOCATION_STATUS s1) (LOCATION_USERS s1) (seen_listings s1) (first_run s1)
           (the_world s1)
           (trace s1 ++ [EvWritePairsLog lines; EvSaveStatus (LOCATION_STATUS s1)]).
Proof.
  unfold generate_pairs_and_log. rewrite run_bind. simpl. rewrite run_bind.
  destruct (for_fold users _ _ _) as [[acc|e] s1] eqn:Hfold; [|done].
  rewrite run_bind.
  pose proof (pairs_log_state clk (elements (pairs acc)) [] s1) as Hst.
  destruct (for_fold (elements (pairs acc)) _ _ s1) as [[lines|e] s2]; [|done].
  simpl in Hst. subst s2.
  unfold save_monitoring_status. run_monad. unfold emit. simpl.
  rewrite <- app_assoc. simpl. intros [= <- <-]. eauto 10.
Qed.

Lemma generate_pairs_and_log_frame (today : date) (clk : clock)
    (users : list user) (s : state) :
  let run := generate_pairs_and_log today clk users s in
  seen_listings run.2 = seen_listings s ∧
  first_run run.2 = first_run s ∧
  the_world run.2 = the_world s ∧
  match run.1 with
  | Ok _ =>
    ∃ lines, trace run.2 =
             trace s ++ [EvWritePairsLog lines; EvSaveStatus (LOCATION_STATUS run.2)]
  | Raise _ => trace run.2 = trace s
  end.
Proof.
  simpl.
  destruct (generate_pairs_and_log today clk users s) as [[out|e] s'] eqn:Hrun.
  - apply generate_pairs_and_log_inv in Hrun as (acc & s1 & lines & Hfold & _ & ->).
    pose proof (frame_for_fold only_globals users (GenAcc ∅ ∅ ∅) (gen_user today clk)
                  (frame_gen_user today clk)) as Hf.
    match type of Hfold with for_fold _ _ _ ?s0 = _ => specialize (Hf s0) end.
    rewrite Hfold in Hf. destruct Hf as (Hseen & Hfr & Hw & Ht). simpl in *.
    repeat split; try done. exists lines. by rewrite Ht.
  - revert Hrun. unfold generate_pairs_and_log. rewrite run_bind. simpl. rewrite run_bind.
    pose proof (frame_for_fold only_globals users (GenAcc ∅ ∅ ∅) (gen_user today clk)
                  (frame_gen_user today clk)) as Hf.
    match goal with |- context [for_fold users _ _ ?s0] => specialize (Hf s0) end.
    destruct (for_fold users _ _ _) as [[acc|e'] s1]; simpl in Hf.
    + rewrite run_bind.
      pose proof (pairs_log_state clk (elements (pairs acc)) [] s1) as Hst.
      destruct (for_fold (elements (pairs acc)) _ _ s1) as [[lines|e'] s2];
        simpl in Hst; subst s2.
      * unfold save_monitoring_status. run_monad. unfold emit. simpl. done.
      * intros [= <- <-]. by destruct Hf as (? & ? & ? & ?).
    + intros [= <- <-]. by destruct Hf as (? & ? & ? & ?).
Qed.


(** X5: The compiler calls no collaborator and leaves [seen_listings] and
    [first_run] alone, whether it returns or raises; a run that returns
    has written the pairs log and then the snapshot of the status it
    leaves, and nothing else. *)
Theorem generate_pairs_and_log_effects (today : date) (clk : clock)
    (users : list user) (s : state) :
  let run := generate_pairs_and_log today clk users s in
  seen_listings run.2 = seen_listings s ∧
  first_run run.2 = first_run s ∧
  the_world run.2 = the_world s ∧
  match run.1 with
  | Ok _ =>
    ∃ lines, trace run.2 =
             trace s ++ [EvWritePairsLog lines; EvSaveStatus (LOCATION_STATUS run.2)]
  | Raise _ => True
  end.
Proof.
  intros run.
  destruct (generate_pairs_and_log_frame today clk users s) as (Hseen & Hfirst & Hworld & Ht).
  fold run in Hseen, Hfirst, Hworld, Ht.
  split; [done|]. split; [done|]. split; [done|]. by destruct (run.1).
Qed.

(** X6: After a run of the compiler that returns, the index of subscribers
    holds the eligible users of the list, each under the location in
    lower case, and nobody else: what the index held before is gone. *)
Theorem location_users_is_rebuilt (today : date) (clk : clock) (users : list user)
    (s s' : state) (out : gset pair_t * gmap pair_t (list subscriber)) :
  generate_pairs_and_log today clk users s = (Ok out, s') →
  ∀ key chat_id,
    chat_id ∈ default ∅ (LOCATION_USERS s' !! key) ↔
    ∃ u, u ∈ users ∧ eligible today u = true ∧
         lower (location u) = key ∧ user_id u = chat_id.
Proof.
  intros (acc & s1 & lines & Hfold & _ & ->)%generate_pairs_and_log_inv key c.
  eapply (gen_users_inv _ _ _ _ _ []) in Hfold as (_ & _ & Hlu).
  - simpl. rewrite Hlu. simpl. rewrite lookup_empty. simpl. split.
    + intros [Hin|?]; [by apply not_elem_of_empty in Hin|done].
    + by right.
  - split; [|split]; simpl.
    + intros p. rewrite lookup_empty. split; [by intros ?%not_elem_of_empty|by intros [? ?]].
    + by intros p ?%not_elem_of_empty.
    + intros p. split; [by intros ?%not_elem_of_empty|by intros [?%not_elem_of_empty _]].
  - done.
Qed.

(** X7: The active set the compiler returns holds the work items (the keys
    of the map it returns) at whose location the schedule engine answers
    active, and no others. *)
Theorem active_pairs_are_the_active_work_items (today : date) (clk : clock)
    (users : list user) (s s' : state)
    (active_pairs : gset pair_t) (user_pair_map : gmap pair_t (list subscriber)) :
  generate_pairs_and_log today clk users s = (Ok (active_pairs, user_pair_map), s') →
  ∀ p, p ∈ active_pairs ↔
       is_Some (user_pair_map !! p) ∧
       ∃ reason next, is_monitoring_active clk p.2 = Ok (true, reason, next).
Proof.
  intros (acc & s1 & lines & Hfold & [= -> ->] & _)%generate_pairs_and_log_inv p.
  eapply (gen_users_inv _ _ _ _ _ []) in Hfold as ((Hdom & _ & Hact) & _ & _).
  - by rewrite Hact, Hdom.
  - split; [|split]; simpl.
    + intros q. rewrite lookup_empty. split; [by intros ?%not_elem_of_empty|by intros [? ?]].
    + by intros q ?%not_elem_of_empty.
    + intros q. split; [by intros ?%not_elem_of_empty|by intros [?%not_elem_of_empty _]].
  - done.
Qed.

(** The map the compiler returns, whenever it returns. *)
Lemma generate_pairs_and_log_map (today : date) (clk : clock) (users : list user)
    (s s' : state) (out : gset pair_t * gmap pair_t (list subscriber)) :
  generate_pairs_and_log today clk users s = (Ok out, s') →
  ∀ p, out.2 !! p = expected_entry p (contributions today users).
Proof.
  intros (acc & s1 & lines & Hfold & -> & _)%generate_pairs_and_log_inv p.
  eapply (gen_users_inv _ _ _ _ _ []) in Hfold as (_ & Hm & _).
  - by rewrite Hm.
  - split; [|split]; simpl.
    + intros q. rewrite lookup_empty. split; [by intros ?%not_elem_of_empty|by intros [? ?]].
    + by intros q ?%not_elem_of_empty.
    + intros q. split; [by intros ?%not_elem_of_empty|by intros [?%not_elem_of_empty _]].
  - done.
Qed.


Lemma initial_acc_wf (clk : clock) (ls : gmap string schedule) :
  compiled clk [] (GenAcc ∅ ∅ ∅) ls.
Proof.
  split; [|split; [|split]]; simpl.
  - intros p Hp. by apply not_elem_of_empty in Hp.
  - done.
  - intros p [? Hp]. by rewrite lookup_empty in Hp.
  - intros p Hp. by apply not_elem_of_empty in Hp.
Qed.

(** X8: The expiry date is parsed before the activation flag is looked at:
    a user whose expiry date is ASCII text that is not a date (on ASCII
    text the digits of the format are the ten ASCII digits) makes the
    compiler raise the parser's [ValueError], activated or not, in the
    loop over the users: neither the pairs log nor the snapshot of the
    statuses is written. *)
Theorem malformed_expiry_date_raises (today : date) (clk : clock)
    (pre post : list user) (u : user) (e : exn) (s : state) :
  Forall (λ u, is_ok (strptime_date (expiry_date u)) = true) pre →
  (∀ u', u' ∈ pre → eligible today u' = true →
         is_ok (is_monitoring_active clk (location u')) = true) →
  ascii_text (expiry_date u) = true →
  strptime_date (expiry_date u) = Raise e →
  let run := generate_pairs_and_log today clk (pre ++ u :: post) s in
  run.1 = Raise e ∧ trace run.2 = trace s.
Proof.
  intros Hwf Hclk _ Hd run.
  assert (run.1 = Raise e) as Hrun.
  { unfold run, generate_pairs_and_log. rewrite run_bind. simpl.
    rewrite run_bind, for_fold_app, run_bind.
    edestruct (gen_users_ok today clk pre (GenAcc ∅ ∅ ∅) []) as (acc & s1 & -> & _);
      [done|done|apply initial_acc_wf|].
    simpl. rewrite run_bind. unfold gen_user at 1. by rewrite Hd. }
  split; [done|].
  destruct (generate_pairs_and_log_frame today clk (pre ++ u :: post) s) as (_ & _ & _ & Ht).
  fold run in Ht. by rewrite Hrun in Ht.
Qed.

Lemma eligible_antitone (today today' : date) (u : user) :
  date_lt today' today = false →
  eligible today' u = true → eligible today u = true.
Proof.
  unfold eligible. destruct (strptime_date (expiry_date u)) as [d|]; [|done].
  intros Hle [Ha Hd]%andb_prop. rewrite Ha. simpl.
  apply negb_true_iff in Hd. apply negb_true_iff.
  destruct (date_lt d today) eqn:Hlt; [|done].
  apply date_lt_spec in Hlt.
  assert (date_lt d today' = true ∨ date_lt today' today = true) as [?|?]; [|congruence..].
  rewrite !date_lt_spec. lia.
Qed.

Lemma is_Some_expected_entry (p : pair_t) (cs : list (pair_t * subscriber)) :
  is_Some (expected_entry p cs) ↔ ∃ e, (p, e) ∈ cs.
Proof.
  unfold expected_entry. destruct (subscribers_of p cs) as [|e l] eqn:Hs.
  - split; [by intros [? ?]|]. intros [e He%elem_of_subscribers_of].
    rewrite Hs in He. by apply elem_of_nil in He.
  - split; [|eauto]. intros _. exists e. apply elem_of_subscribers_of. rewrite Hs. by left.
Qed.

(** X9: As the days go by a user can only stop being eligible: with the same
    list of users, the work items and entries the compiler returns on a
    later day were already returned on every earlier day (so the
    first-run flags made from the first run cover those of all later
    runs). *)
Theorem later_work_items_are_earlier_ones (today today' : date) (clk clk' : clock)
    (users : list user) (s s' s1 s1' : state)
    (out out' : gset pair_t * gmap pair_t (list subscriber)) :
  date_lt today' today = false →
  generate_pairs_and_log today clk users s = (Ok out, s1) →
  generate_pairs_and_log today' clk' users s' = (Ok out', s1') →
  ∀ p, (is_Some (out'.2 !! p) → is_Some (out.2 !! p)) ∧
       (∀ e, e ∈ default [] (out'.2 !! p) → e ∈ default [] (out.2 !! p)).
Proof.
  intros Hle Hrun Hrun' p.
  rewrite (generate_pairs_and_log_map _ _ _ _ _ _ Hrun),
          (generate_pairs_and_log_map _ _ _ _ _ _ Hrun').
  assert (∀ e, (p, e) ∈ contributions today' users → (p, e) ∈ contributions today users)
    as Hsub.
  { intros e (u & Hu & He & ?)%elem_of_contributions. apply elem_of_contributions.
    exists u. split; [done|]. split; [by eapply eligible_antitone|done]. }
  split.
  - rewrite !is_Some_expected_entry. intros [e He]. eauto.
  - intros e. rewrite !elem_of_expected_entry. apply Hsub.
Qed.

End CompilerMore.

Lemma location_users_is_rebuilt_witness :
  42 ∈ default ∅
    (LOCATION_USERS
       (generate_pairs_and_log (H := ascii_strops) (H0 := quiet) (Date 2024 1 15)
          (clock_at (DateTime 2024 1 15 12 0 0 0)) [bike_user; expired_user; idle_user]
          first_run_state).2 !! "melbourne") ↔
  ∃ u, u ∈ [bike_user; expired_user; idle_user] ∧
       eligible (Date 2024 1 15) u = true ∧
       lower (StrOps := ascii_strops) (location u) = "melbourne" ∧ user_id u = 42.
Proof.
  destruct (generate_pairs_and_log (H := ascii_strops) (H0 := quiet) (Date 2024 1 15)
              (clock_at (DateTime 2024 1 15 12 0 0 0)) [bike_user; expired_user; idle_user]
              first_run_state) as [r s'] eqn:Hrun.
  assert (is_ok r = true) as Hok.
  { replace r with (r, s').1 by done. rewrite <- Hrun. vm_compute. reflexivity. }
  destruct r as [out|]; [|done].
  apply (location_users_is_rebuilt (H := ascii_strops) (H0 := quiet) _ _ _ _ _ _ Hrun).
Defined.

Lemma active_pairs_witness :
  let run := generate_pairs_and_log (H := ascii_strops) (H0 := quiet) (Date 2024 1 15)
               (clock_at (DateTime 2024 1 15 23 0 0 0)) [bike_user] first_run_state in
  is_ok run.1 = true ∧
  ∀ out, run.1 = Ok out →
    ∀ p, p ∈ out.1 ↔
         is_Some (out.2 !! p) ∧
         ∃ reason next,
           is_monitoring_active (H := ascii_strops)
             (clock_at (DateTime 2024 1 15 23 0 0 0)) p.2 = Ok (true, reason, next).
Proof.
  intros run. split; [vm_compute; reflexivity|].
  intros [active_pairs user_pair_map] Hout.
  destruct run as [r s'] eqn:Hrun. simpl in Hout. subst r.
  apply (active_pairs_are_the_active_work_items (H := ascii_strops) (H0 := quiet)
           _ _ _ _ _ _ _ Hrun).
Defined.

Lemma malformed_expiry_date_witness :
  (generate_pairs_and_log (H := ascii_strops) (H0 := quiet) (Date 2024 1 15)
     (clock_at (DateTime 2024 1 15 12 0 0 0)) ([bike_user] ++ malformed_user :: [idle_user])
     first_run_state).1
  = Raise (ValueError "time data does not match format").
Proof.
  apply (malformed_expiry_date_raises (H := ascii_strops) (H0 := quiet) (Date 2024 1 15)
           (clock_at (DateTime 2024 1 15 12 0 0 0)) [bike_user] [idle_user] malformed_user).
  - repeat constructor.
  - intros u _ _. reflexivity.
  - reflexivity.
  - reflexivity.
Defined.

Lemma later_work_items_witness :
  let run := generate_pairs_and_log (H := ascii_strops) (H0 := quiet) (Date 2023 12 1)
               (clock_at (DateTime 2023 12 1 12 0 0 0)) [bike_user; expired_user]
               first_run_state in
  let run' := generate_pairs_and_log (H := ascii_strops) (H0 := quiet) (Date 2024 1 15)
                (clock_at (DateTime 2024 1 15 12 0 0 0)) [bike_user; expired_user]
                first_run_state in
  is_ok run.1 = true ∧ is_ok run'.1 = true ∧
  ∀ out out', run.1 = Ok out → run'.1 = Ok out' →
    ∀ p, (is_Some (out'.2 !! p) → is_Some (out.2 !! p)) ∧
         (∀ e, e ∈ default [] (out'.2 !! p) → e ∈ default [] (out.2 !! p)).
Proof.
  intros run run'. split; [vm_compute; reflexivity|]. split; [vm_compute; reflexivity|].
  intros out out' Hout Hout'.
  destruct run as [r s1] eqn:Hrun. destruct run' as [r' s1'] eqn:Hrun'.
  simpl in Hout, Hout'. subst r r'.
  eapply (later_work_items_are_earlier_ones (H := ascii_strops) (H0 := quiet));
    [|exact Hrun|exact Hrun']; reflexivity.
Defined.

Lemma status_changes_are_absorbed_witness :
  ∃ out s1,
    generate_pairs_and_log (H := ascii_strops) (H0 := quiet) (Date 2024 1 15)
      (clock_at (DateTime 2024 1 15 23 0 0 0)) [bike_user; expired_user] first_run_state
    = (Ok out, s1) ∧
    ∀ full_pairs,
      (∀ p, p ∈ full_pairs → is_Some (out.2 !! p)) →
      check_and_update_schedules (H := ascii_strops) (H0 := quiet)
        (clock_at (DateTime 2024 1 15 23 0 0 0)) full_pairs s1 = (Ok (), s1).
Proof.
  apply (status_changes_are_absorbed (H := ascii_strops) (H0 := quiet)).
  - repeat constructor.
  - intros u _ _. reflexivity.
Defined.

(** ** Runs of the monad: what a run returns, and what it appends from a
       given state *)

Section Returns.
Context `{Collaborators}.

Lemma returns_ret {A} (Q : A → Prop) (a : A) : Q a → returns Q (mret a).
Proof. intros HQ s a' s'. run_monad. by intros [= <- _]. Qed.

Lemma returns_bind {A B} (Q : B → Prop) (m : M A) (k : A → M B) :
  (∀ a, returns Q (k a)) → returns Q (m ≫= k).
Proof.
  intros Hk s b s'. rewrite run_bind. destruct (m s) as [[a|e] s1]; [apply Hk|done].
Qed.

Lemma returns_try_except {A} (Q : A → Prop) (m : M A) (h : exn → M A) :
  returns Q m → (∀ e, returns Q (h e)) → returns Q (try_except m h).
Proof.
  intros Hm Hh s a s'. unfold try_except. specialize (Hm s).
  destruct (m s) as [[a'|e] s1]; [|apply Hh].
  intros [= <- <-]. by eapply Hm.
Qed.

Lemma returns_for_fold {A B} (I : B → Prop) (l : list A) (acc : B) (body : B → A → M B) :
  I acc →
  (∀ acc x, x ∈ l → I acc → returns I (body acc x)) →
  returns I (for_fold l acc body).
Proof.
  revert acc. induction l as [|x l IH]; intros acc Hacc Hb s b s'; simpl.
  - run_monad. by intros [= <- _].
  - rewrite run_bind. destruct (body acc x s) as [[acc'|e] s1] eqn:Hbody; [|done].
    apply IH.
    + eapply Hb; [by left|done|exact Hbody].
    + intros acc0 y Hy. apply Hb. by right.
Qed.

Lemma emits_at_bind {A B} (P : event → Prop) (m : M A) (k : A → M B) (s : state) :
  emits_at P m s →
  (∀ a s', m s = (Ok a, s') → emits_at P (k a) s') →
  emits_at P (m ≫= k) s.
Proof.
  intros (d & Hd & HP) Hk. unfold emits_at. rewrite run_bind.
  destruct (m s) as [[a|e] s1]; simpl in *; [|eauto].
  destruct (Hk a s1 eq_refl) as (d' & Hd' & HP'). exists (d ++ d').
  split; [by rewrite Hd', Hd, app_assoc|]. by apply Forall_app.
Qed.

Lemma emits_bind_returns {A B} (P : event → Prop) (Q : A → Prop) (m : M A) (k : A → M B) :
  emits P m → returns Q m → (∀ a, Q a → emits P (k a)) → emits P (m ≫= k).
Proof.
  intros Hm HQ Hk s. apply emits_at_bind; [apply Hm|].
  intros a s' Hrun. apply Hk. by eapply HQ.
Qed.

Lemma emits_for_each_in {A} (P : event → Prop) (l : list A) (body : A → M unit) :
  (∀ x, x ∈ l → emits P (body x)) → emits P (for_each l body).
Proof.
  induction l as [|x l IH]; intros Hb; simpl.
  - apply emits_ret.
  - apply emits_bind; [apply Hb; by left|]. intros _. apply IH.
    intros y Hy. apply Hb. by right.
Qed.

Lemma emits_for_fold_inv {A B} (P : event → Prop) (I : B → Prop)
    (l : list A) (acc : B) (body : B → A → M B) :
  I acc →
  (∀ acc x, x ∈ l → I acc → emits P (body acc x)) →
  (∀ acc x, x ∈ l → I acc → returns I (body acc x)) →
  emits P (for_fold l acc body).
Proof.
  revert acc. induction l as [|x l IH]; intros acc Hacc He Hr; simpl.
  - apply emits_ret.
  - apply (emits_bind_returns P I); [apply He; [by left|done]|apply Hr; [by left|done]|].
    intros acc' Hacc'. apply IH; [done| |].
    + intros acc0 y Hy. apply He. by right.
    + intros acc0 y Hy. apply Hr. by right.
Qed.

Lemma preserves_get_state_bind (R : relation state) {A} (k : state → M A) :
  (∀ s, R s (k s s).2) → preserves R (get_state ≫= k).
Proof. intros Hk s. apply Hk. Qed.

End Returns.

Lemma dict_set_keys {K V} `{EqDecision K} (d : list (K * V)) (k : K) (v : V) (c : K) :
  c ∈ (dict_set d k v).*1 → c ∈ d.*1 ∨ c = k.
Proof.
  induction d as [|[k' v'] d IH]; simpl.
  - intros ->%list_elem_of_singleton. by right.
  - destruct (decide (k' = k)) as [->|]; simpl; rewrite !elem_of_cons.
    + intros [->|?]; auto.
    + intros [->|Hc]; [by left; left|]. destruct (IH Hc); auto.
Qed.

(** ** The poll of a work item: what it touches and whom it writes to *)

Section PollerMore.
Context `{StrOps} `{Collaborators}.

#[local] Instance isolated_stable (pair : pair_t) : Stable (isolated pair).
Proof.
  split.
  - split.
    + intros s. repeat split; auto.
    + intros s1 s2 s3 (Hu & Hs & Hq & Hp & Hl) (Hu' & Hs' & Hq' & Hp' & Hl').
      split; [congruence|]. split; [by etrans|]. split.
      { intros q Hne. by rewrite Hq', Hq. }
      split.
      { destruct Hp' as [->| ->]; auto. }
      intros key Hne. by rewrite Hl', Hl.
  - intros s w t _. repeat split; auto.
Qed.

#[local] Existing Instance grows_stable.

#[local] Instance untouched_stable : Stable untouched.
Proof.
  split.
  - split.
    + by intros s.
    + intros s1 s2 s3 [? ?] [? ?]. split; congruence.
  - by intros s w t _.
Qed.

Lemma preserves_notify_status_change (R : relation state) `{!Stable R}
    (location : string) (active : bool) (reason : string) (next : option datetime) :
  preserves R (notify_status_change location active reason next).
Proof.
  unfold notify_status_change. preserves_tac.
  apply preserves_gather; [done|]. apply Forall_forall. intros task Htask.
  apply list_elem_of_In, in_map_iff in Htask as (user_id & <- & _).
  by apply preserves_send_message.
Qed.

Lemma preserves_notify_if_changed (R : relation state) `{!Stable R}
    (clk : clock) (location : string) (active : bool) (reason : string) (next : datetime) :
  (∀ s sched,
     R s (set_LOCATION_STATUS (<[lower location := sched]> (LOCATION_STATUS s)) s).2) →
  preserves R (notify_if_changed clk location active reason next).
Proof.
  intros Hset. unfold notify_if_changed.
  apply preserves_get_state_bind. intros s.
  destruct (default false _); [|reflexivity].
  apply (preserves_apply R). apply preserves_bind; [done| |].
  { by apply preserves_notify_status_change. }
  intros _. apply preserves_bind; [done|by apply preserves_lift|]. intros sched.
  apply preserves_get_state_bind. intros s'.
  rewrite run_bind. etrans; [apply (Hset s' sched)|].
  apply (preserves_apply R). unfold save_monitoring_status. preserves_tac.
Qed.

Lemma preserves_process_listing_seen (R : relation state) `{!Stable R}
    (pair : pair_t) (user_data : gmap pair_t (list subscriber)) (l : listing) :
  (∀ s x, seen_listings s ⊆ x → R s (set_seen_listings x s).2) →
  preserves R (process_listing pair user_data l).
Proof.
  intros Hset s. destruct (listing_link l) as [link|] eqn:Hl.
  - rewrite (process_listing_well_formed _ _ _ _ _ Hl).
    destruct (first_run s !! pair) as [[]|]; [| |reflexivity].
    + apply Hset. set_solver.
    + destruct (bool_decide _); [reflexivity|].
      rewrite run_bind. simpl.
      etrans; [apply (Hset s (seen_listings s ∪ {[link]})); set_solver|].
      apply (preserves_apply R). preserves_tac;
        (apply preserves_notify_subscriber || apply preserves_enrich); typeclasses eauto.
  - rewrite process_listing_malformed by done. reflexivity.
Qed.

Lemma isolated_poll_listings (pair : pair_t) (user_data : gmap pair_t (list subscriber))
    (listings : list listing) :
  preserves (isolated pair) (poll_listings pair user_data listings).
Proof.
  unfold poll_listings. apply preserves_bind; [typeclasses eauto| |].
  - apply preserves_for_each; [typeclasses eauto|]. intros l.
    apply preserves_process_listing_seen; [typeclasses eauto|].
    intros s x Hx. repeat split; auto.
  - intros _. apply preserves_get_state_bind. intros s. unfold isolated. simpl.
    split; [done|]. split; [done|]. split.
    { intros q Hne. by rewrite lookup_insert_ne. }
    split; [|done]. right. by rewrite lookup_insert_eq.
Qed.

(** X13: The poll of a work item changes nothing of the other work items:
    it only adds to the set of seen links, may clear its own first-run
    flag and may replace the recorded status of its own location; the
    index of subscribers, the flags of the other work items and the
    status of the other locations are as they were, whether the poll
    returns or raises. *)
Theorem poll_is_isolated (clk : clock) (pair : pair_t)
    (user_data : gmap pair_t (list subscriber)) (s : state) :
  isolated pair s (check_marketplace_pair clk pair user_data s).2.
Proof.
  apply (preserves_apply (isolated pair)).
  assert (∀ active reason next,
            preserves (isolated pair) (notify_if_changed clk pair.2 active reason next))
    as Hnotify.
  { intros. apply preserves_notify_if_changed; [typeclasses eauto|].
    intros s0 sched. unfold isolated. simpl. repeat split; auto.
    intros key Hne. by rewrite lookup_insert_ne. }
  destruct pair as [keyword location]. unfold check_marketplace_pair.
  apply preserves_bind; [typeclasses eauto|apply preserves_lift; typeclasses eauto|].
  intros [[active reason] next]. destruct (negb active); [apply Hnotify|].
  apply preserves_bind; [typeclasses eauto|apply Hnotify|]. intros _.
  apply preserves_bind; [typeclasses eauto|apply preserves_call; typeclasses eauto|].
  intros _.
  apply preserves_try_finally;
    [typeclasses eauto| |apply preserves_call; typeclasses eauto].
  apply preserves_try_except;
    [typeclasses eauto| |intros _; apply preserves_ret; typeclasses eauto].
  apply preserves_bind; [typeclasses eauto|apply preserves_emit; typeclasses eauto|].
  intros _.
  apply preserves_bind; [typeclasses eauto|apply preserves_call; typeclasses eauto|].
  intros listings. apply isolated_poll_listings.
Qed.

Lemma untouched_notify_if_changed (clk : clock) (location : string) (active : bool)
    (reason : string) (next : datetime) :
  preserves untouched (notify_if_changed clk location active reason next).
Proof. apply preserves_notify_if_changed; [typeclasses eauto|]. by intros s sched. Qed.

Lemma emits_notify_status_change_at (P : event → Prop) (location : string) (active : bool)
    (reason : string) (next : option datetime) (s : state) :
  (∀ c, c ∈ default ∅ (LOCATION_USERS s !! location) →
        P (EvBotSend c (status_message location active reason next))) →
  (∀ n, P (EvSleep n)) →
  P (EvStatusLog location active reason) →
  emits_at P (notify_status_change location active reason next) s.
Proof.
  intros Hsend Hsleep Hlog. unfold notify_status_change.
  apply emits_at_bind; [apply emits_get_state|]. intros s0 s' [= <- <-].
  destruct (LOCATION_USERS s !! location) as [user_ids|]; [|apply emits_ret].
  apply emits_bind; [|intros _; by apply emits_emit].
  apply emits_gather. apply Forall_forall. intros task Htask.
  apply list_elem_of_In, in_map_iff in Htask as (user_id & <- & Hin).
  apply emits_send_message; [|done]. apply Hsend. simpl.
  by apply elem_of_elements, list_elem_of_In.
Qed.

Lemma emits_notify_if_changed_at (P : event → Prop) (clk : clock) (location : string)
    (active : bool) (reason : string) (next : datetime) (s : state) :
  (∀ c, c ∈ default ∅ (LOCATION_USERS s !! lower location) →
        P (EvBotSend c (status_message (lower location) active reason (Some next)))) →
  (∀ n, P (EvSleep n)) →
  P (EvStatusLog (lower location) active reason) →
  (∀ snapshot, P (EvSaveStatus snapshot)) →
  emits_at P (notify_if_changed clk location active reason next) s.
Proof.
  intros Hsend Hsleep Hlog Hsave. unfold notify_if_changed.
  apply emits_at_bind; [apply emits_get_state|]. intros s0 s' [= <- <-].
  destruct (default false _); [|apply emits_ret].
  apply emits_at_bind; [apply emits_notify_status_change_at; auto|].
  intros _ s' _. apply emits_bind; [apply emits_lift|]. intros sched.
  unfold save_monitoring_status. emits_tac. by apply emits_emit.
Qed.

Lemma emits_notify_subscriber (P : event → Prop) (title price link : string)
    (m : sent_map) (user : subscriber) :
  (∀ result, P (EvBotSend (sub_chat_id user) (partial_text result price link))) →
  P (EvClassify (sub_chat_id user) title price) →
  (∀ why, P (EvSkip (sub_chat_id user) why)) →
  (∀ n, P (EvSleep n)) →
  emits P (notify_subscriber title price link m user).
Proof.
  intros Hsend Hcls Hskip Hsleep. unfold notify_subscriber.
  destruct (existsb _ _).
  { apply emits_bind; [by apply emits_emit|]. intros _. apply emits_ret. }
  apply emits_bind.
  { apply emits_bind; [by apply emits_emit|]. intros _. apply emits_call. }
  intros r. destruct (mode_filter _ _).
  { apply emits_bind; [by apply emits_emit|]. intros _. apply emits_ret. }
  apply emits_try_except; [|intros _; apply emits_ret].
  apply emits_bind; [apply emits_send_message; [apply Hsend|done]|].
  intros [id|]; apply emits_ret.
Qed.

Lemma returns_notify_subscriber (chats : list Z) (title price link : string)
    (m : sent_map) (user : subscriber) :
  sub_chat_id user ∈ chats →
  (∀ c, c ∈ m.*1 → c ∈ chats) →
  returns (λ m' : sent_map, ∀ c, c ∈ m'.*1 → c ∈ chats)
          (notify_subscriber title price link m user).
Proof.
  intros Hu Hm. unfold notify_subscriber.
  destruct (existsb _ _).
  { apply returns_bind. intros _. by apply returns_ret. }
  apply returns_bind. intros r. destruct (mode_filter _ _).
  { apply returns_bind. intros _. by apply returns_ret. }
  apply returns_try_except; [|intros _; by apply returns_ret].
  apply returns_bind. intros [id|]; apply returns_ret; [|done].
  intros c [Hc| ->]%dict_set_keys; auto.
Qed.

Lemma emits_enrich (P : event → Prop) (price link : string) (m : sent_map) :
  P (EvDetail link) →
  (∀ n, P (EvSleep n)) →
  (∀ c id text, c ∈ m.*1 → P (EvBotEdit c id text)) →
  emits P (enrich price link m).
Proof.
  intros Hdetail Hsleep Hedit. unfold enrich.
  apply emits_bind; [by apply emits_emit|]. intros _.
  apply emits_bind; [apply emits_call|]. intros _.
  apply emits_bind; [emits_tac|]. intros [[latitude longitude] address].
  apply emits_for_each_in. intros [c [[[id label] flat] flon]] Hin.
  assert (c ∈ m.*1) as Hc.
  { apply list_elem_of_fmap. by exists (c, (id, label, flat, flon)). }
  emits_tac; apply emits_emit; auto.
Qed.

Section EmitsOfPoll.
Variables (pair : pair_t) (user_data : gmap pair_t (list subscriber)) (P : event → Prop).
Hypothesis P_send :
  ∀ c result price link,
    c ∈ chats_of user_data pair → P (EvBotSend c (partial_text result price link)).
Hypothesis P_edit : ∀ c id text, c ∈ chats_of user_data pair → P (EvBotEdit c id text).
Hypothesis P_classify :
  ∀ c title price, c ∈ chats_of user_data pair → P (EvClassify c title price).
Hypothesis P_skip : ∀ c why, c ∈ chats_of user_data pair → P (EvSkip c why).
Hypothesis P_sleep : ∀ n, P (EvSleep n).
Hypothesis P_detail : ∀ link, P (EvDetail link).
Hypothesis P_fetch : P (EvFetch pair.1 pair.2).

Lemma emits_process_listing (l : listing) :
  emits P (process_listing pair user_data l).
Proof.
  unfold process_listing.
  destruct (link_element l) as [[link|]|], (price_element l) as [price|],
    (title_element l) as [title|]; try apply emits_ret.
  destruct link as [|ch link]; [apply emits_ret|].
  apply emits_bind; [apply emits_get_state|]. intros s.
  destruct (first_run s !! pair) as [[]|];
    [apply emits_set_seen_listings| |apply emits_raise].
  destruct (bool_decide _); [apply emits_ret|].
  apply emits_bind; [apply emits_set_seen_listings|]. intros _.
  assert (∀ u, u ∈ default [] (user_data !! pair) →
               sub_chat_id u ∈ chats_of user_data pair) as Hchat.
  { intros u Hu. apply list_elem_of_fmap. by exists u. }
  apply (emits_bind_returns P (λ m : sent_map, ∀ c, c ∈ m.*1 → c ∈ chats_of user_data pair)).
  - apply (emits_for_fold_inv P (λ m : sent_map, ∀ c, c ∈ m.*1 → c ∈ chats_of user_data pair)).
    + by intros c ?%elem_of_nil.
    + intros m u Hu _. apply emits_notify_subscriber; auto.
    + intros m u Hu Hm. apply returns_notify_subscriber; auto.
  - apply returns_for_fold.
    + by intros c ?%elem_of_nil.
    + intros m u Hu Hm. apply returns_notify_subscriber; auto.
  - intros [|entry m] Hm; [apply emits_ret|].
    apply emits_enrich; auto.
Qed.

Lemma emits_poll_listings (listings : list listing) :
  emits P (poll_listings pair user_data listings).
Proof.
  unfold poll_listings. apply emits_bind.
  - apply emits_for_each. intros l. apply emits_process_listing.
  - intros _. emits_tac.
Qed.

(** The part of [check_marketplace_pair] that follows the comparison of
    the statuses, at an active location. *)
Lemma emits_fetch_and_poll :
  emits P
    (call start_driver ;;
     try_finally
       (try_except
          (emit (EvFetch pair.1 pair.2) ;;
           listings ← call (fetch_listings pair.1 pair.2);
           poll_listings pair user_data listings)
          (λ _, mret ()))
       (call quit_driver)).
Proof.
  apply emits_bind; [apply emits_call|]. intros _.
  apply emits_try_finally; [|apply emits_call].
  apply emits_try_except; [|intros _; apply emits_ret].
  apply emits_bind; [by apply emits_emit|]. intros _.
  apply emits_bind; [apply emits_call|]. intros listings.
  apply emits_poll_listings.
Qed.

End EmitsOfPoll.

(** X14: The poll of a work item writes to nobody else: every message it
    sends is the provisional message of a listing, sent to a subscriber
    of the work item, or the message of a status change of its
    location, sent to a user the index lists for that location; every
    classification, skip and edit is for a subscriber of the work item;
    the page it fetches is its own and the status it logs is the status
    of its own location. *)
Theorem poll_writes_to_its_own_subscribers (clk : clock) (pair : pair_t)
    (user_data : gmap pair_t (list subscriber)) (s : state) :
  emits_at
    (addressed pair (chats_of user_data pair)
       (default ∅ (LOCATION_USERS s !! lower pair.2)) (lower pair.2))
    (check_marketplace_pair clk pair user_data) s.
Proof.
  destruct pair as [keyword location]. unfold check_marketplace_pair.
  set (P := addressed _ _ _ _).
  assert (∀ active reason next,
            emits_at P (notify_if_changed clk location active reason next) s) as Hnotify.
  { intros. apply emits_notify_if_changed_at; unfold P; simpl; auto.
    intros c Hc. right. split; [done|]. by eexists _, _, _. }
  apply emits_at_bind; [apply emits_lift|].
  intros [[active reason] next] s'. unfold lift. intros [= _ <-].
  destruct (negb active); [apply Hnotify|].
  apply emits_at_bind; [apply Hnotify|]. intros _ s' _.
  apply (emits_fetch_and_poll (keyword, location)); unfold P; simpl; auto.
  intros c result price link Hc. left. split; [done|]. by eexists _, _, _.
Qed.

(** X15: While the schedule engine answers that the location is inactive the
    work item is not polled: the set of seen links and the first-run
    flags stay as they are, nothing but the events of a status change is
    performed (no fetch, no classification, no edit), and when the
    recorded status is not the opposite one the call does nothing at
    all. *)
Theorem inactive_location_is_not_polled (clk : clock) (pair : pair_t)
    (user_data : gmap pair_t (list subscriber)) (s : state)
    (reason : string) (next : datetime) :
  is_monitoring_active clk pair.2 = Ok (false, reason, next) →
  let run := check_marketplace_pair clk pair user_data s in
  untouched s run.2 ∧
  emits_at status_event (check_marketplace_pair clk pair user_data) s ∧
  (default false (status_differs s (lower pair.2) false) = false → run = (Ok (), s)).
Proof.
  destruct pair as [keyword location]. cbn [fst snd]. intros Hact.
  assert (check_marketplace_pair clk (keyword, location) user_data s =
          notify_if_changed clk location false reason next s) as Hrun.
  { unfold check_marketplace_pair. by rewrite run_bind; unfold lift; rewrite Hact. }
  unfold emits_at. rewrite !Hrun. split; [|split].
  - apply untouched_notify_if_changed.
  - by apply emits_notify_if_changed_at.
  - intros Hsame. unfold notify_if_changed. run_monad. by rewrite Hsame.
Qed.

Lemma untouched_failed_fetch (pair : pair_t) (user_data : gmap pair_t (list subscriber)) :
  (∀ w, is_ok (fetch_listings pair.1 pair.2 w).1 = false) →
  preserves untouched
    (emit (EvFetch pair.1 pair.2) ;;
     listings ← call (fetch_listings pair.1 pair.2);
     poll_listings pair user_data listings).
Proof.
  intros Hfail s. rewrite run_bind. simpl. rewrite run_bind. unfold call. simpl.
  specialize (Hfail (the_world s)).
  by destruct (fetch_listings pair.1 pair.2 (the_world s)) as [[listings|e] w].
Qed.

(** X16: While the result page cannot be fetched, a poll marks nothing: the
    set of seen links and the first-run flags are as they were, so a work
    item that has never been fetched is still on its first run. *)
Theorem failed_fetch_marks_nothing (clk : clock) (pair : pair_t)
    (user_data : gmap pair_t (list subscriber)) (s : state) :
  (∀ w, is_ok (fetch_listings pair.1 pair.2 w).1 = false) →
  untouched s (check_marketplace_pair clk pair user_data s).2.
Proof.
  intros Hfail. apply (preserves_apply untouched).
  pose proof (untouched_failed_fetch pair user_data Hfail) as Hfetch.
  destruct pair as [keyword location]. unfold check_marketplace_pair.
  apply preserves_bind; [typeclasses eauto|apply preserves_lift; typeclasses eauto|].
  intros [[active reason] next].
  destruct (negb active); [apply untouched_notify_if_changed|].
  apply preserves_bind; [typeclasses eauto|apply untouched_notify_if_changed|]. intros _.
  apply preserves_bind; [typeclasses eauto|apply preserves_call; typeclasses eauto|]. intros _.
  apply preserves_try_finally; [typeclasses eauto| |apply preserves_call; typeclasses eauto].
  apply preserves_try_except; [typeclasses eauto|exact Hfetch|].
  intros _. apply preserves_ret; typeclasses eauto.
Qed.

Lemma process_listing_marks (pair : pair_t) (user_data : gmap pair_t (list subscriber))
    (l : listing) (link : string) (s : state) :
  listing_link l = Some link →
  is_Some (first_run s !! pair) →
  link ∈ seen_listings (process_listing pair user_data l s).2.
Proof.
  intros Hl [b Hb]. rewrite (process_listing_well_formed _ _ _ _ _ Hl), Hb.
  destruct b; [simpl; by apply elem_of_union_r, elem_of_singleton|].
  destruct (bool_decide (link ∈ seen_listings s)) eqn:Hseen.
  { by apply bool_decide_eq_true_1 in Hseen. }
  rewrite run_bind. simpl.
  set (s1 := State _ _ _ _ _ _).
  assert (link ∈ seen_listings s1) as Hin
    by (simpl; by apply elem_of_union_r, elem_of_singleton).
  match goal with |- _ ∈ seen_listings (?m s1).2 =>
    assert (grows pair s1 (m s1).2) as [Hsub _]
  end; [|by apply Hsub].
  apply (preserves_apply (grows pair)). preserves_tac;
    (apply preserves_notify_subscriber || apply preserves_enrich); typeclasses eauto.
Qed.

(** X17: A listing is marked before anybody is told of it: whatever happens
    while a well-formed record is processed, the classifier raising
    included, its link is in the set of seen links afterwards, and the
    record will not be processed again. *)
Theorem listing_is_marked_whatever_happens (pair : pair_t)
    (user_data : gmap pair_t (list subscriber)) (l : listing) (link : string) (s : state) :
  listing_link l = Some link →
  is_Some (first_run s !! pair) →
  let s' := (process_listing pair user_data l s).2 in
  link ∈ seen_listings s' ∧
  process_listing pair user_data l s' = (Ok (), s').
Proof.
  intros Hl Hfr s'.
  assert (link ∈ seen_listings s') as Hin by by apply process_listing_marks.
  split; [done|]. apply process_listing_seen with link; [done..|].
  by apply (preserves_process_listing pair user_data l s).
Qed.

(** X18: A poll that completes has marked the link of every well-formed
    record of the page and cleared the first-run flag of the work
    item. *)
Theorem completed_poll_marks_every_link (pair : pair_t)
    (user_data : gmap pair_t (list subscriber)) (listings : list listing) (s s' : state) :
  poll_listings pair user_data listings s = (Ok (), s') →
  first_run s' !! pair = Some false ∧
  ∀ l link, l ∈ listings → listing_link l = Some link → link ∈ seen_listings s'.
Proof.
  unfold poll_listings. rewrite run_bind.
  destruct (for_each listings (process_listing pair user_data) s) as [[[]|e] s1] eqn:Hloop;
    [|done].
  run_monad. intros [= <-]. simpl. split; [by rewrite lookup_insert_eq|].
  clear -Hloop. revert s Hloop.
  induction listings as [|l0 listings IH]; intros s Hloop l link Hin Hl.
  { by apply elem_of_nil in Hin. }
  simpl in Hloop. rewrite run_bind in Hloop.
  destruct (process_listing pair user_data l0 s) as [[[]|e] s2] eqn:Hstep; [|done].
  apply elem_of_cons in Hin as [->|Hin]; [|by eapply IH].
  assert (link ∈ seen_listings s2) as Hin.
  { replace s2 with (process_listing pair user_data l0 s).2 by by rewrite Hstep.
    apply process_listing_marks; [done|].
    destruct (first_run s !! pair) eqn:Hfr; [done|].
    by rewrite (process_listing_well_formed _ _ _ _ _ Hl), Hfr in Hstep. }
  assert (grows pair s2 s1) as [Hsub _]; [|by apply Hsub].
  replace s1 with (for_each listings (process_listing pair user_data) s2).2
    by by rewrite Hloop.
  apply (preserves_apply (grows pair)). apply preserves_for_each; [typeclasses eauto|].
  intros ?. apply preserves_process_listing.
Qed.

End PollerMore.

Lemma inactive_location_witness :
  check_marketplace_pair (H := ascii_strops) (H0 := quiet)
    (clock_at (DateTime 2024 1 15 23 0 0 0)) bike_pair {[bike_pair := [bike_subscriber]]}
    first_run_state
  = (Ok (), first_run_state).
Proof.
  destruct (inactive_location_is_not_polled (H := ascii_strops) (H0 := quiet)
              (clock_at (DateTime 2024 1 15 23 0 0 0)) bike_pair
              {[bike_pair := [bike_subscriber]]} first_run_state
              "Nighttime hours in Melbourne (local time: 23:00). Resuming at 06:30"
              (DateTime 2024 1 16 6 30 0 0))
    as (_ & _ & Hsame); [vm_compute; reflexivity|].
  apply Hsame. reflexivity.
Defined.

Lemma failed_fetch_witness :
  let s := @State offline ∅ ∅ ∅ {[bike_pair := true]} [] [] in
  untouched s
    (check_marketplace_pair (H := ascii_strops) (H0 := offline)
       (clock_at (DateTime 2024 1 15 12 0 0 0)) bike_pair ∅ s).2.
Proof.
  apply (failed_fetch_marks_nothing (H := ascii_strops) (H0 := offline)).
  intros w. reflexivity.
Defined.

Lemma listing_is_marked_witness :
  let s := @State keen ∅ ∅ ∅ {[bike_pair := false]} [] [] in
  let s' := (process_listing (H := ascii_strops) (H0 := keen) bike_pair
               {[bike_pair := [keen_subscriber]]} blue_bike s).2 in
  "/item/2" ∈ seen_listings s' ∧
  process_listing (H := ascii_strops) (H0 := keen) bike_pair
    {[bike_pair := [keen_subscriber]]} blue_bike s' = (Ok (), s').
Proof.
  apply (listing_is_marked_whatever_happens (H := ascii_strops) (H0 := keen)).
  - reflexivity.
  - exists false. vm_compute. reflexivity.
Defined.

Lemma completed_poll_witness :
  let run := poll_listings (H := ascii_strops) (H0 := quiet) bike_pair
               {[bike_pair := [bike_subscriber]]} [red_bike] first_run_state in
  is_ok run.1 = true ∧
  first_run run.2 !! bike_pair = Some false ∧
  ∀ l link, l ∈ [red_bike] → listing_link l = Some link → link ∈ seen_listings run.2.
Proof.
  intros run. split; [vm_compute; reflexivity|].
  destruct run as [r s'] eqn:Hrun.
  assert (is_ok r = true) as Hok.
  { replace r with (r, s').1 by done. rewrite <- Hrun. vm_compute. reflexivity. }
  destruct r as [[]|]; [|done].
  apply (completed_poll_marks_every_link (H := ascii_strops) (H0 := quiet) _ _ _ _ _ Hrun).
Defined.

(** ** The status tracker: what it leaves recorded *)

Lemma dict_set_key {K V} `{EqDecision K} (d : list (K * V)) (k : K) (v : V) :
  k ∈ (dict_set d k v).*1.
Proof.
  induction d as [|[k' v'] d IH]; simpl.
  - by left.
  - destruct (decide (k' = k)); simpl; [by left|by right].
Qed.

Lemma dict_set_old {K V} `{EqDecision K} (d : list (K * V)) (k : K) (v : V) (c : K) :
  c ∈ d.*1 → c ∈ (dict_set d k v).*1.
Proof.
  induction d as [|[k' v'] d IH]; simpl.
  - by intros ?%elem_of_nil.
  - destruct (decide (k' = k)) as [->|]; simpl; rewrite !elem_of_cons.
    + intros [->|?]; auto.
    + intros [->|?]; auto.
Qed.

Section TrackerMore.
Context `{StrOps} `{Collaborators}.

#[local] Instance same_status_stable : Stable same_status.
Proof.
  split.
  - split.
    + by intros s.
    + intros s1 s2 s3 ? ?. unfold same_status in *. congruence.
  - by intros s w t _.
Qed.

(** The first loop of the tracker: the locations whose recorded status
    is not the computed one. *)
Lemma tracker_scan (clk : clock) (ps : list pair_t)
    (ups0 ups : list (string * (bool * string * datetime))) (s s1 : state) :
  for_fold ps ups0 (λ location_updates '(keyword, location),
      r ← lift (is_monitoring_active clk location);
      let '(active, reason, next_change_time) := (r : bool * string * datetime) in
      let location_key := lower location in
      s ← get_state;
      if default false (status_differs s location_key active)
      then mret (dict_set location_updates location_key (active, reason, next_change_time))
      else mret location_updates) s = (Ok ups, s1) →
  s1 = s ∧
  (∀ key, key ∈ ups.*1 →
          key ∈ ups0.*1 ∨
          (is_Some (LOCATION_STATUS s !! key) ∧ ∃ p, p ∈ ps ∧ key = lower p.2)) ∧
  (∀ key, key ∈ ups0.*1 → key ∈ ups.*1) ∧
  (∀ p st, p ∈ ps → LOCATION_STATUS s !! lower p.2 = Some st →
           is_active st = active_at_key clk (lower p.2) ∨ lower p.2 ∈ ups.*1).
Proof.
  revert ups0. induction ps as [|[keyword location] ps IH]; intros ups0; simpl.
  - run_monad. intros [= <- <-]. repeat split; auto.
    intros p st Hp. by apply elem_of_nil in Hp.
  - rewrite run_bind.
    destruct (is_monitoring_active clk location) as [[[active reason] next]|] eqn:Hm;
      [|done].
    pose proof (is_monitoring_active_at_key _ _ _ Hm) as Hactive. simpl in Hactive.
    run_monad.
    destruct (default false (status_differs s (lower location) active)) eqn:Hd.
    + intros (-> & Hk & Hold & Hp)%IH. split; [done|].
      assert (is_Some (LOCATION_STATUS s !! lower location)) as Hsome.
      { unfold status_differs in Hd.
        by destruct (LOCATION_STATUS s !! lower location). }
      split; [|split].
      * intros key [[Hkey| ->]%dict_set_keys|(Hs & p & Hin & ->)]%Hk; [by left| |].
        -- right. split; [done|]. exists (keyword, location). split; [by left|done].
        -- right. split; [done|]. exists p. split; [by right|done].
      * intros key Hkey. by apply Hold, dict_set_old.
      * intros p st [->|Hin]%elem_of_cons Hst; [|by eapply Hp].
        right. apply Hold, dict_set_key.
    + intros (-> & Hk & Hold & Hp)%IH. split; [done|]. split; [|split; [done|]].
      * intros key [Hkey|(Hs & p & Hin & ->)]%Hk; [by left|].
        right. split; [done|]. exists p. split; [by right|done].
      * intros p st [->|Hin]%elem_of_cons Hst; [|by eapply Hp].
        left. simpl in *. unfold status_differs in Hd. rewrite Hst in Hd. simpl in Hd.
        apply negb_false_iff, Bool.eqb_prop in Hd. congruence.
Qed.

(** One turn of the second loop. *)
Lemma tracker_step (clk : clock) (location : string) (active : bool) (reason : string)
    (next : datetime) (s s2 : state) :
  (notify_status_change location active reason (Some next) ;;
   sched ← lift (get_monitoring_schedule clk location);
   s ← get_state;
   set_LOCATION_STATUS (<[location := sched]> (LOCATION_STATUS s))) s = (Ok (), s2) →
  ∃ sched, get_monitoring_schedule clk location = Ok sched ∧
           LOCATION_STATUS s2 = <[location := sched]> (LOCATION_STATUS s).
Proof.
  rewrite run_bind.
  pose proof (preserves_notify_status_change same_status location active reason
                (Some next) s) as Hsame.
  destruct (notify_status_change location active reason (Some next) s) as [[[]|e] sa];
    [|done].
  unfold same_status in Hsame. simpl in Hsame.
  rewrite run_bind. unfold lift at 1.
  destruct (get_monitoring_schedule clk location) as [sched|]; [|done].
  run_monad. intros [= <-]. exists sched. simpl. by rewrite Hsame.
Qed.

(** The second loop of the tracker. *)
Lemma tracker_apply (clk : clock) (ups : list (string * (bool * string * datetime)))
    (s s1 : state) :
  for_each ups (λ '(location, (active, reason, next_change_time)),
    notify_status_change location active reason (Some next_change_time) ;;
    sched ← lift (get_monitoring_schedule clk location);
    s ← get_state;
    set_LOCATION_STATUS (<[location := sched]> (LOCATION_STATUS s))) s = (Ok (), s1) →
  (∀ key, key ∈ ups.*1 → lower key = key → key_current clk (LOCATION_STATUS s1) key) ∧
  (∀ key, key ∉ ups.*1 → LOCATION_STATUS s1 !! key = LOCATION_STATUS s !! key) ∧
  (∀ key, is_Some (LOCATION_STATUS s1 !! key) ↔
          is_Some (LOCATION_STATUS s !! key) ∨ key ∈ ups.*1).
Proof.
  revert s. induction ups as [|[location [[active reason] next]] ups IH]; intros s.
  - simpl. run_monad. intros [= <-]. split; [|split].
    + by intros key ?%elem_of_nil.
    + done.
    + intros key. split; [auto|]. by intros [?|?%elem_of_nil].
  - rewrite for_each_cons, run_bind.
    match goal with |- context [match ?step s with _ => _ end] =>
      destruct (step s) as [[[]|e] s2] eqn:Hstep; [|done]
    end.
    apply tracker_step in Hstep as (sched & Hsched & Hls).
    pose proof (get_monitoring_schedule_at_key _ _ _ Hsched) as Hact.
    intros (Hcur & Hrest & Hdom)%IH. simpl. split; [|split].
    + intros key Hkey Hlow. destruct (decide (key ∈ ups.*1)) as [Hin|Hout]; [by apply Hcur|].
      apply elem_of_cons in Hkey as [->|?]; [|done].
      exists sched. rewrite (Hrest _ Hout), Hls, lookup_insert_eq. split; [done|].
      by rewrite <- Hlow.
    + intros key [Hne Hout]%not_elem_of_cons.
      by rewrite (Hrest _ Hout), Hls, lookup_insert_ne.
    + intros key. rewrite Hdom, Hls, lookup_insert_is_Some, elem_of_cons.
      destruct (decide (location = key)) as [->|Hne]; split.
      * intros _. right. by left.
      * intros _. left. by left.
      * intros [[?|[_ ?]]|?]; [done|by left|by right; right].
      * intros [?|[?|?]]; [by left; right|congruence|by right].
Qed.

(** X12: When the tracker returns, the status it leaves recorded for the
    location of every work item it was given is the status at the time
    of the call, for every location that had a recorded status; it adds
    no location and removes none, and the status of the locations of no
    work item is as it was. *)
Theorem tracker_makes_statuses_current (clk : clock) (full_pairs : list pair_t)
    (s s' : state) :
  (∀ p, p ∈ full_pairs → lower (lower p.2) = lower p.2) →
  check_and_update_schedules clk full_pairs s = (Ok (), s') →
  (∀ key, is_Some (LOCATION_STATUS s' !! key) ↔ is_Some (LOCATION_STATUS s !! key)) ∧
  (∀ p, p ∈ full_pairs → is_Some (LOCATION_STATUS s !! lower p.2) →
        key_current clk (LOCATION_STATUS s') (lower p.2)) ∧
  (∀ key, (∀ p, p ∈ full_pairs → lower p.2 ≠ key) →
          LOCATION_STATUS s' !! key = LOCATION_STATUS s !! key).
Proof.
  intros Hlower. unfold check_and_update_schedules. rewrite run_bind.
  match goal with |- context [match ?scan s with _ => _ end] =>
    destruct (scan s) as [[ups|e] sa] eqn:Hscan; [|done]
  end.
  apply tracker_scan in Hscan as (-> & Hk & _ & Hp). rewrite run_bind.
  match goal with |- context [match ?loop s with _ => _ end] =>
    destruct (loop s) as [[[]|e] sb] eqn:Hloop; [|done]
  end.
  apply tracker_apply in Hloop as (Hcur & Hrest & Hdom).
  intros Hsave.
  assert (LOCATION_STATUS s' = LOCATION_STATUS sb) as ->.
  { destruct ups; revert Hsave; unfold save_monitoring_status, emit; run_monad;
      by intros [= <-]. }
  assert (∀ key, key ∈ ups.*1 →
                 is_Some (LOCATION_STATUS s !! key) ∧ ∃ p, p ∈ full_pairs ∧ key = lower p.2)
    as Hups.
  { intros key [?%elem_of_nil|?]%Hk; done. }
  split; [|split].
  - intros key. rewrite Hdom. split; [|auto]. intros [?|Hin]; [done|].
    by apply Hups in Hin as [? _].
  - intros p Hin [st Hst].
    destruct (decide (lower p.2 ∈ ups.*1)) as [Hup|Hout].
    + apply Hcur; [done|]. by apply Hlower.
    + destruct (Hp p st Hin Hst) as [Hact|?]; [|done].
      exists st. by rewrite (Hrest _ Hout).
  - intros key Hkey. apply Hrest. intros (_ & p & Hin & ->)%Hups. by eapply Hkey.
Qed.

End TrackerMore.

Lemma tracker_witness :
  let day :=
    monitor_cycle (H := ascii_strops) (H0 := quiet) (Date 2024 1 15)
      (clock_at (DateTime 2024 1 15 12 0 0 0)) [bike_user] [bike_pair] first_run_state in
  let alone :=
    check_and_update_schedules (H := ascii_strops) (H0 := quiet)
      (clock_at (DateTime 2024 1 15 23 0 0 0)) [bike_pair] day.2 in
  is_ok alone.1 = true ∧
  key_current (clock_at (DateTime 2024 1 15 23 0 0 0)) (LOCATION_STATUS alone.2) "melbourne".
Proof.
  intros day alone. split; [vm_compute; reflexivity|].
  destruct alone as [r s'] eqn:Hrun.
  assert (is_ok r = true) as Hok.
  { replace r with (r, s').1 by done. rewrite <- Hrun. vm_compute. reflexivity. }
  destruct r as [[]|]; [|done].
  destruct (tracker_makes_statuses_current (H := ascii_strops) (H0 := quiet)
              (clock_at (DateTime 2024 1 15 23 0 0 0)) [bike_pair] day.2 s')
    as (_ & Hcur & _).
  - intros p ->%list_elem_of_singleton. reflexivity.
  - exact Hrun.
  - apply (Hcur bike_pair); [by left|]. vm_compute. eauto.
Defined.

(** ** What can abort a poll *)

Section Succeeds.
Context `{Collaborators}.










End Succeeds.

Section PollCompletes.
Context `{StrOps} `{Collaborators}.
Hypothesis classifier_answers : ∀ c title price w, is_ok (product_checker c title price w).1 = true.
Hypothesis detail_opens : ∀ link w, is_ok (open_detail link w).1 = true.
Hypothesis detail_closes : ∀ w, is_ok (close_detail w).1 = true.

#[local] Existing Instance grows_stable.





End PollCompletes.


(** ** main.py: the compiler of the version without schedules *)

Section MainCompiler.
Context `{StrOps} `{Collaborators}.

Lemma main_gen_keywords (u : user) (ks : list string) (acc : MainPy.gen_acc)
    (cs : list (pair_t * subscriber)) (s : state) :
  (∀ p, MainPy.user_pair_map acc !! p = expected_entry p cs) →
  (∀ p, p ∈ MainPy.pairs acc ↔ is_Some (MainPy.user_pair_map acc !! p)) →
  ∃ acc',
    for_fold ks acc (MainPy.gen_keyword u) s = (Ok acc', s) ∧
    (∀ p, MainPy.user_pair_map acc' !! p =
          expected_entry p (cs ++ map (λ keyword, ((keyword, location u), entry_of u)) ks)) ∧
    (∀ p, p ∈ MainPy.pairs acc' ↔ is_Some (MainPy.user_pair_map acc' !! p)).
Proof.
  revert acc cs. induction ks as [|k ks IH]; intros acc cs Hmap Hdom.
  - exists acc. simpl. by rewrite app_nil_r.
  - simpl. rewrite run_bind.
    set (acc1 := MainPy.GenAcc (MainPy.pairs acc ∪ {[(k, location u)]})
                   (<[(k, location u) :=
                        default [] (MainPy.user_pair_map acc !! (k, location u)) ++
                        [entry_of u]]> (MainPy.user_pair_map acc))).
    change (MainPy.gen_keyword u acc k s) with (Ok acc1, s).
    destruct (IH acc1 (cs ++ [((k, location u), entry_of u)]))
      as (acc' & Hrun & Hmap' & Hdom').
    + simpl. by apply expected_entry_snoc.
    + intros p. simpl. rewrite elem_of_union, elem_of_singleton, lookup_insert_is_Some', Hdom.
      split; intros [?|?]; auto.
    + exists acc'. split; [exact Hrun|]. split; [|done].
      intros p. by rewrite Hmap', <- app_assoc.
Qed.

Lemma main_gen_user_skip (today : date) (acc : MainPy.gen_acc) (u : user) (s : state) :
  is_ok (strptime_date (expiry_date u)) = true →
  eligible today u = false →
  MainPy.gen_user today acc u s = (Ok acc, s).
Proof.
  unfold eligible, MainPy.gen_user.
  destruct (strptime_date (expiry_date u)) as [d|]; [|done].
  intros _ He. rewrite run_bind. simpl.
  by destruct (activation_status u), (date_lt d today).
Qed.

Lemma main_gen_user_eligible (today : date) (acc : MainPy.gen_acc) (u : user) (s : state) :
  eligible today u = true →
  MainPy.gen_user today acc u s = for_fold (keywords u) acc (MainPy.gen_keyword u) s.
Proof.
  unfold eligible, MainPy.gen_user.
  destruct (strptime_date (expiry_date u)) as [d|]; [|done].
  intros He. rewrite run_bind. simpl.
  by destruct (activation_status u), (date_lt d today).
Qed.

Lemma main_gen_users (today : date) (users : list user) (acc : MainPy.gen_acc)
    (cs : list (pair_t * subscriber)) (s : state) :
  Forall (λ u, is_ok (strptime_date (expiry_date u)) = true) users →
  (∀ p, MainPy.user_pair_map acc !! p = expected_entry p cs) →
  (∀ p, p ∈ MainPy.pairs acc ↔ is_Some (MainPy.user_pair_map acc !! p)) →
  ∃ acc',
    for_fold users acc (MainPy.gen_user today) s = (Ok acc', s) ∧
    (∀ p, MainPy.user_pair_map acc' !! p =
          expected_entry p (cs ++ contributions today users)) ∧
    (∀ p, p ∈ MainPy.pairs acc' ↔ is_Some (MainPy.user_pair_map acc' !! p)).
Proof.
  intros Hwf. revert acc cs.
  induction Hwf as [|u users Hu _ IH]; intros acc cs Hmap Hdom.
  - exists acc. unfold contributions. simpl. by rewrite app_nil_r.
  - simpl. destruct (eligible today u) eqn:He.
    + destruct (main_gen_keywords u (keywords u) acc cs s Hmap Hdom)
        as (acc1 & Hrun & Hmap1 & Hdom1).
      destruct (IH acc1 (cs ++ contribution u) Hmap1 Hdom1) as (acc' & Hrun' & Hmap' & Hdom').
      exists acc'. rewrite run_bind, main_gen_user_eligible, Hrun by done.
      split; [done|]. split; [|done]. intros p. rewrite Hmap'. unfold contributions.
      rewrite filter_cons_True by done. simpl. by rewrite <- app_assoc.
    + destruct (IH acc cs Hmap Hdom) as (acc' & Hrun' & Hmap' & Hdom').
      exists acc'. rewrite run_bind, main_gen_user_skip by done.
      split; [done|]. split; [|done]. intros p. rewrite Hmap'. unfold contributions.
      rewrite filter_cons_False; [done|]. by rewrite He.
Qed.

Lemma main_generate_pairs_and_log_ok (today : date) (users : list user) (s : state) :
  Forall (λ u, is_ok (strptime_date (expiry_date u)) = true) users →
  ∃ ps upm,
    MainPy.generate_pairs_and_log today users s =
      (Ok (ps, upm),
       with_world_trace s (the_world s)
         (trace s ++
          [EvWritePairsLog
             (map (λ '(keyword, location), keyword +:+ " - " +:+ location +:+ nl)
                  (elements ps))])) ∧
    (∀ p, upm !! p = expected_entry p (contributions today users)) ∧
    (∀ p, p ∈ ps ↔ is_Some (upm !! p)).
Proof.
  intros Hwf.
  destruct (main_gen_users today users (MainPy.GenAcc ∅ ∅) [] s Hwf)
    as (acc & Hrun & Hmap & Hdom).
  { intros p. simpl. by rewrite lookup_empty. }
  { intros p. simpl. rewrite lookup_empty. split; [by intros ?%not_elem_of_empty|].
    by intros [? ?]. }
  exists (MainPy.pairs acc), (MainPy.user_pair_map acc).
  unfold MainPy.generate_pairs_and_log. rewrite (run_bind_ok _ _ _ _ _ Hrun).
  split; [done|]. by split.
Qed.

(** X21: The compiler of main.py never consults the schedule engine: when
    the expiry date of every user parses it returns on every day, the end
    of a month included, having written the pairs log and changed nothing
    else; the map it returns holds, for each work item, the entries of
    the eligible users in the order of the list, and the set it returns
    is the set of the keys of the map. *)
Theorem main_compiler_returns (today : date) (users : list user) (s : state) :
  Forall (λ u, is_ok (strptime_date (expiry_date u)) = true) users →
  ∃ ps upm,
    MainPy.generate_pairs_and_log today users s =
      (Ok (ps, upm),
       with_world_trace s (the_world s)
         (trace s ++
          [EvWritePairsLog
             (map (λ '(keyword, location), keyword +:+ " - " +:+ location +:+ nl)
                  (elements ps))])) ∧
    (∀ p, upm !! p = expected_entry p (contributions today users)) ∧
    (∀ p, p ∈ ps ↔ is_Some (upm !! p)).
Proof. apply main_generate_pairs_and_log_ok. Qed.

Lemma gen_users_dates (today : date) (clk : clock) (users : list user)
    (acc acc' : gen_acc) (s s' : state) :
  for_fold users acc (gen_user today clk) s = (Ok acc', s') →
  Forall (λ u, is_ok (strptime_date (expiry_date u)) = true) users.
Proof.
  revert acc s. induction users as [|u users IH]; intros acc s; [by constructor|].
  simpl. rewrite run_bind.
  destruct (gen_user today clk acc u s) as [[acc1|e] s1] eqn:Hu; [|done].
  apply gen_user_inv in Hu as [Hd _]. intros Hrest. constructor; [done|by eapply IH].
Qed.

(** X22: The two versions of the compiler agree: whenever the compiler of
    new_main.py returns, the compiler of main.py returns the same map on
    the same users and day, and the set of active work items of the
    former is the part of the set of work items of the latter where the
    schedule engine answers active. *)
Theorem compilers_agree (today : date) (clk : clock) (users : list user)
    (s s1 s0 : state) (out : gset pair_t * gmap pair_t (list subscriber)) :
  generate_pairs_and_log today clk users s = (Ok out, s1) →
  ∃ ps s2,
    MainPy.generate_pairs_and_log today users s0 = (Ok (ps, out.2), s2) ∧
    ∀ p, p ∈ out.1 ↔
         p ∈ ps ∧ ∃ reason next, is_monitoring_active clk p.2 = Ok (true, reason, next).
Proof.
  intros Hrun.
  pose proof (generate_pairs_and_log_map _ _ _ _ _ _ Hrun) as Hmap.
  apply generate_pairs_and_log_inv in Hrun as (acc & s' & lines & Hfold & -> & _).
  pose proof (gen_users_dates _ _ _ _ _ _ _ Hfold) as Hwf.
  eapply (gen_users_inv _ _ _ _ _ []) in Hfold as ((Hdom & _ & Hact) & _ & _); cycle 1.
  { split; [|split]; simpl.
    - intros q. rewrite lookup_empty. split; [by intros ?%not_elem_of_empty|by intros [? ?]].
    - by intros q ?%not_elem_of_empty.
    - intros q. split; [by intros ?%not_elem_of_empty|by intros [?%not_elem_of_empty _]]. }
  { done. }
  destruct (main_generate_pairs_and_log_ok today users s0 Hwf) as (ps & upm & Hmain & Hm & Hd).
  simpl in *.
  assert (upm = user_pair_map acc) as ->.
  { apply map_eq. intros p. by rewrite Hm, Hmap. }
  eexists ps, _. split; [exact Hmain|].
  intros p. by rewrite Hact, Hdom, Hd.
Qed.

End MainCompiler.

Lemma main_compiler_witness :
  ∃ ps upm,
    MainPy.generate_pairs_and_log (H := quiet) (Date 2024 1 31) [bike_user; expired_user]
      first_run_state =
      (Ok (ps, upm),
       with_world_trace first_run_state (the_world first_run_state)
         (trace first_run_state ++
          [EvWritePairsLog
             (map (λ '(keyword, location), keyword +:+ " - " +:+ location +:+ nl)
                  (elements ps))])) ∧
    (∀ p, upm !! p =
          expected_entry p (contributions (Date 2024 1 31) [bike_user; expired_user])) ∧
    (∀ p, p ∈ ps ↔ is_Some (upm !! p)).
Proof.
  apply (main_compiler_returns (H0 := quiet)). repeat constructor.
Defined.

Lemma compilers_agree_witness :
  let run := generate_pairs_and_log (H := ascii_strops) (H0 := quiet) (Date 2024 1 15)
               (clock_at (DateTime 2024 1 15 12 0 0 0)) [bike_user; expired_user]
               first_run_state in
  is_ok run.1 = true ∧
  ∀ out, run.1 = Ok out →
    ∃ ps s2,
      MainPy.generate_pairs_and_log (H := quiet) (Date 2024 1 15) [bike_user; expired_user]
        first_run_state = (Ok (ps, out.2), s2) ∧
      ∀ p, p ∈ out.1 ↔
           p ∈ ps ∧
           ∃ reason next,
             is_monitoring_active (H := ascii_strops)
               (clock_at (DateTime 2024 1 15 12 0 0 0)) p.2 = Ok (true, reason, next).
Proof.
  intros run. split; [vm_compute; reflexivity|].
  intros out Hout. destruct run as [r s1] eqn:Hrun. simpl in Hout. subst r.
  apply (compilers_agree (H := ascii_strops) (H0 := quiet) _ _ _ _ _ _ _ Hrun).
Defined.

(** ** listing_location.py: the search for the coordinates *)

Lemma dict_has_truthy {V} (d : list (string * V)) (k : string) :
  dict_has d k = true → truthy d = true.
Proof. by destruct d. Qed.

Lemma dict_get_elem_of {V} (d : list (string * V)) (k : string) (v : V) :
  dict_get d k = Some v → (k, v) ∈ d.
Proof.
  induction d as [|[k' v'] d IH]; simpl; [done|].
  destruct (decide (k' = k)) as [->|].
  - intros [= ->]. by left.
  - intros ?%IH. by right.
Qed.

Lemma search_list_inv (rec : json → option (list (string * json))) (value : list json)
    (r : list (string * json)) :
  search_list rec value = Some r →
  ∃ item, JDict item ∈ value ∧ rec (JDict item) = Some r.
Proof.
  induction value as [|item value IH]; simpl; [done|].
  assert (search_list rec value = Some r →
          ∃ item0, JDict item0 ∈ item :: value ∧ rec (JDict item0) = Some r) as Hrest.
  { intros (item0 & Hin & Hrec)%IH. exists item0. split; [by right|done]. }
  destruct item as [| | | | |d]; try done.
  destruct (rec (JDict d)) as [result|] eqn:Hrec; [|done].
  destruct (truthy result); [|done].
  intros [= ->]. exists d. split; [by left|done].
Qed.

Lemma search_items_inv (rec : json → option (list (string * json)))
    (items : list (string * json)) (r : list (string * json)) :
  search_items rec items = Some r →
  (∃ key value, (key, JDict value) ∈ items ∧ rec (JDict value) = Some r) ∨
  (∃ key value item, (key, JList value) ∈ items ∧ JDict item ∈ value ∧
                     rec (JDict item) = Some r).
Proof.
  induction items as [|[key value] items IH]; simpl; [done|].
  assert (search_items rec items = Some r →
          (∃ key0 value0, (key0, JDict value0) ∈ (key, value) :: items ∧
                          rec (JDict value0) = Some r) ∨
          (∃ key0 value0 item, (key0, JList value0) ∈ (key, value) :: items ∧
                               JDict item ∈ value0 ∧ rec (JDict item) = Some r)) as Hrest.
  { intros [(key0 & value0 & Hin & Hrec)|(key0 & value0 & item & Hin & Hitem & Hrec)]%IH.
    - left. exists key0, value0. split; [by right|done].
    - right. exists key0, value0, item. split; [by right|done]. }
  destruct value as [| | | |vs|d]; try done.
  - destruct (search_list rec vs) as [result|] eqn:Hlist; [|done].
    intros [= ->]. apply search_list_inv in Hlist as (item & Hin & Hrec).
    right. exists key, vs, item. split; [by left|done].
  - destruct (rec (JDict d)) as [result|] eqn:Hrec; [|done].
    destruct (truthy result); [|done].
    intros [= ->]. left. exists key, d. split; [by left|done].
Qed.

Lemma search_list_finds (rec : json → option (list (string * json))) (value : list json)
    (item r : list (string * json)) :
  JDict item ∈ value → rec (JDict item) = Some r → truthy r = true →
  is_Some (search_list rec value).
Proof.
  intros Hin Hrec Hr. induction value as [|item0 value IH]; [by apply elem_of_nil in Hin|].
  simpl. apply elem_of_cons in Hin as [<-|Hin].
  - by rewrite Hrec, Hr.
  - destruct item0 as [| | | | |d]; auto.
    destruct (rec (JDict d)) as [result|]; auto. destruct (truthy result); auto.
Qed.

Lemma search_items_finds_value (rec : json → option (list (string * json)))
    (items : list (string * json)) (key : string) (value r : list (string * json)) :
  (key, JDict value) ∈ items → rec (JDict value) = Some r → truthy r = true →
  is_Some (search_items rec items).
Proof.
  intros Hin Hrec Hr. induction items as [|[key0 value0] items IH];
    [by apply elem_of_nil in Hin|].
  simpl. apply elem_of_cons in Hin as [[= <- <-]|Hin].
  - by rewrite Hrec, Hr.
  - destruct value0 as [| | | |vs|d]; auto.
    + destruct (search_list rec vs); auto.
    + destruct (rec (JDict d)) as [result|]; auto. destruct (truthy result); auto.
Qed.

Lemma search_items_finds_item (rec : json → option (list (string * json)))
    (items : list (string * json)) (key : string) (value : list json)
    (item r : list (string * json)) :
  (key, JList value) ∈ items → JDict item ∈ value →
  rec (JDict item) = Some r → truthy r = true →
  is_Some (search_items rec items).
Proof.
  intros Hin Hitem Hrec Hr. induction items as [|[key0 value0] items IH];
    [by apply elem_of_nil in Hin|].
  simpl. apply elem_of_cons in Hin as [[= <- <-]|Hin].
  - destruct (search_list_finds rec value item r Hitem Hrec Hr) as [result ->]. eauto.
  - destruct value0 as [| | | |vs|d]; auto.
    + destruct (search_list rec vs); auto.
    + destruct (rec (JDict d)) as [result|]; auto. destruct (truthy result); auto.
Qed.

Lemma find_location_recursive_dict (data : list (string * json)) (depth max_depth : Z) :
  find_location_recursive (JDict data) depth max_depth =
    if depth >? max_depth then None
    else
      match location_of data with
      | Some location => Some location
      | None =>
        if dict_has data "latitude" && dict_has data "longitude" then Some data
        else search_items (λ value, find_location_recursive value (depth + 1) max_depth) data
      end.
Proof. reflexivity. Qed.

Lemma find_location_recursive_sound (levels : nat) (data : json) (depth max_depth : Z)
    (r : list (string * json)) :
  Z.to_nat (max_depth - depth + 1) = levels →
  find_location_recursive data depth max_depth = Some r →
  dict_has r "latitude" = true ∧ dict_has r "longitude" = true ∧
  ∃ n, reach n r data ∧ depth + Z.of_nat n ≤ max_depth + 1.
Proof.
  revert data depth. induction levels as [|levels IH]; intros data depth Hlevels.
  { destruct data; simpl; destruct (Z.gtb_spec depth max_depth); try done; lia. }
  destruct data as [| | | | |d]; try (simpl; by destruct (depth >? max_depth)).
  rewrite find_location_recursive_dict.
  destruct (Z.gtb_spec depth max_depth) as [|Hle]; [done|].
  unfold location_of.
  destruct (dict_get d "location") as [[| | | | |location]|] eqn:Hloc;
    try destruct (dict_has location "latitude" && dict_has location "longitude") eqn:Hboth;
    try (intros [= <-]; apply andb_prop in Hboth as [? ?]; split; [done|]; split; [done|];
         exists 1%nat; split; [|lia];
         apply reach_value with "location" location;
           [by apply dict_get_elem_of|constructor]).
  all: destruct (dict_has d "latitude" && dict_has d "longitude") eqn:Hhere;
    [intros [= <-]; apply andb_prop in Hhere as [? ?]; split; [done|]; split; [done|];
     exists 0%nat; split; [constructor|lia]|].
  all: intros [(key & value & Hin & Hrec)|(key & value & item & Hin & Hitem & Hrec)]%search_items_inv;
    apply IH in Hrec as (Hlat & Hlon & n & Hreach & Hn); try lia;
    (split; [done|]; split; [done|]; exists (S n); split; [|lia]).
  all: first [ by apply reach_value with key value
             | by apply reach_item with key value item ].
Qed.

(** X23: What [find_location_recursive] returns is a dictionary of the data
    that has both a latitude and a longitude; it lies at most
    [max_depth - depth + 1] levels down (the dictionary under
    ['location'] is returned without a test of its depth). *)
Theorem find_location_returns_coordinates (data : json) (depth max_depth : Z)
    (r : list (string * json)) :
  find_location_recursive data depth max_depth = Some r →
  dict_has r "latitude" = true ∧ dict_has r "longitude" = true ∧
  ∃ n, reach n r data ∧ depth + Z.of_nat n ≤ max_depth + 1.
Proof. by apply (find_location_recursive_sound (Z.to_nat (max_depth - depth + 1))). Qed.

(** X24: The search is complete within its bound: when a dictionary with
    both coordinates lies at most [max_depth - depth] levels down, the
    search returns a result (the test [if result] never discards one,
    a result having two keys). *)
Theorem find_location_finds_coordinates (n : nat) (r : list (string * json)) (data : json)
    (depth max_depth : Z) :
  reach n r data →
  dict_has r "latitude" = true → dict_has r "longitude" = true →
  depth + Z.of_nat n ≤ max_depth →
  is_Some (find_location_recursive data depth max_depth).
Proof.
  intros Hreach Hlat Hlon. revert depth.
  assert (∀ d depth, depth ≤ max_depth →
            is_Some (search_items
                       (λ value, find_location_recursive value (depth + 1) max_depth) d) →
            is_Some (find_location_recursive (JDict d) depth max_depth)) as Hstep.
  { intros d depth Hle Hsearch. rewrite find_location_recursive_dict.
    destruct (Z.gtb_spec depth max_depth); [lia|].
    destruct (location_of d); [done|].
    by destruct (dict_has d "latitude" && dict_has d "longitude"). }
  assert (∀ value depth r0,
            find_location_recursive value depth max_depth = Some r0 → truthy r0 = true)
    as Htruthy.
  { intros value depth r0 Hr0.
    apply (find_location_recursive_sound (Z.to_nat (max_depth - depth + 1))) in Hr0
      as (Hl & _); [|done].
    by apply dict_has_truthy in Hl. }
  induction Hreach as [r|n r d key value Hin _ IH|n r d key value item Hin Hitem _ IH];
    intros depth Hn.
  - rewrite find_location_recursive_dict.
    destruct (Z.gtb_spec depth max_depth); [lia|].
    destruct (location_of r); [done|]. by rewrite Hlat, Hlon.
  - apply Hstep; [lia|].
    destruct (IH Hlat Hlon (depth + 1)) as [r0 Hr0]; [lia|].
    eapply search_items_finds_value; [done|exact Hr0|by eapply Htruthy].
  - apply Hstep; [lia|].
    destruct (IH Hlat Hlon (depth + 1)) as [r0 Hr0]; [lia|].
    eapply search_items_finds_item; [done|done|exact Hr0|by eapply Htruthy].
Qed.

Lemma find_location_returns_witness :
  dict_has [("latitude", JNumber "-37.81"); ("longitude", JNumber "144.96")] "latitude" = true ∧
  dict_has [("latitude", JNumber "-37.81"); ("longitude", JNumber "144.96")] "longitude" = true ∧
  ∃ n, reach n [("latitude", JNumber "-37.81"); ("longitude", JNumber "144.96")] sample_page ∧
       0 + Z.of_nat n ≤ 10 + 1.
Proof.
  apply (find_location_returns_coordinates sample_page 0 10). vm_compute. reflexivity.
Defined.

Lemma find_location_finds_witness :
  is_Some (find_location_recursive sample_page 0 3).
Proof.
  apply (find_location_finds_coordinates 3
           [("latitude", JNumber "-37.81"); ("longitude", JNumber "144.96")]
           sample_page 0 3).
  - eapply reach_item; [by left|by right; left|].
    eapply reach_value; [by left|].
    eapply reach_value; [by right; left|]. constructor.
  - reflexivity.
  - reflexivity.
  - lia.
Defined.

(** ** A whole cycle: the compiler hides every status change *)

Section CycleMore.
Context `{StrOps} `{Collaborators}.

#[local] Existing Instance same_status_stable.





End CycleMore.


(** ** The broadcast of a status change *)

Section Broadcast.
Context `{StrOps} `{Collaborators}.

(** X20: A status change is sent, with the same text, to every user the
    index lists for the location and to nobody else, a failure of the
    bot for one user notwithstanding; when the call returns, the log
    line of the status change is written, once, after all the messages,
    and when it raises no log line is written; for a location the index
    does not know nothing is done at all. *)
Theorem status_broadcast_goes_to_the_listed_users (location : string) (active : bool)
    (reason : string) (next : option datetime) (s : state) :
  let message := status_message location active reason next in
  let members := default ∅ (LOCATION_USERS s !! location) in
  let run := notify_status_change location active reason next s in
  (∃ d, Forall (broadcast_send members message) d ∧
        (∀ c, c ∈ members → EvBotSend c message ∈ d) ∧
        trace run.2 =
          trace s ++ d ++
          match run.1, LOCATION_USERS s !! location with
          | Ok _, Some _ => [EvStatusLog location active reason]
          | _, _ => []
          end) ∧
  (LOCATION_USERS s !! location = None → run = (Ok (), s)).
Proof.
  intros message members run. split; cycle 1.
  { intros Hnone. unfold run, notify_status_change. run_monad. by rewrite Hnone. }
  unfold members. destruct (LOCATION_USERS s !! location) as [user_ids|] eqn:Hl.
  - set (tasks := map (λ user_id, send_message message user_id) (elements user_ids)).
    assert (run = (gather tasks ;; emit (EvStatusLog location active reason)) s) as ->.
    { unfold run, notify_status_change. run_monad. by rewrite Hl. }
    destruct (emits_gather (broadcast_send user_ids message) tasks) with s
      as (d & Hd & HP).
    { apply Forall_forall. intros task Htask.
      apply list_elem_of_In, in_map_iff in Htask as (user_id & <- & Hin).
      apply emits_send_message; [|done]. split; [|done].
      by apply elem_of_elements, list_elem_of_In. }
    exists d. split; [done|]. split.
    + intros c Hc. simpl in Hc.
      destruct (gather_sends_to message (elements user_ids) c s) as (t1 & t2 & Ht);
        [by apply elem_of_elements|].
      fold tasks in Ht. rewrite Hd in Ht. apply app_inv_head in Ht as ->.
      apply elem_of_app. right. by left.
    + rewrite run_bind. destruct (gather tasks s) as [[l|e] s1]; simpl in *.
      * by rewrite Hd, <- app_assoc.
      * by rewrite Hd, app_nil_r.
  - exists []. split; [done|]. split; [by intros c ?%not_elem_of_empty|].
    assert (run = (Ok (), s)) as ->.
    { unfold run, notify_status_change. run_monad. by rewrite Hl. }
    simpl. by rewrite app_nil_r.
Qed.

End Broadcast.
